(** * StudyMate: the text chunker, the response parsers, retrieval and
    configuration, embedded from the Python sources.

    Python values are modelled as follows.
    - [int] is [Z] (unbounded); [//] is [Z.div] (floor division).
    - [str] is a list of Unicode code points ([N]); [len], slicing, [find],
      [rfind], [split], [strip] and the substring test [in] follow CPython,
      including the treatment of negative and out-of-range slice bounds.
    - a [while] loop is a fuelled fixpoint returning [None] when the fuel runs out
      before the loop condition turns false.
    - an exception raised inside a [try] block is [None] in the option monad;
      the [except] handler is the match on that option. *)

From Stdlib Require Import String Ascii.
From Stdlib Require Import ZArith NArith List Lia Bool Sorted.
Import ListNotations.
Local Open Scope Z_scope.

(** ** Python strings *)

Module PyStr.

Abbreviation char := N (only parsing).
Abbreviation str := (list N) (only parsing).

(** Rocq string literals, read as Python literals (ASCII only). *)
Definition of_string (s : String.string) : str :=
  map Ascii.N_of_ascii (String.list_ascii_of_string s).
Arguments of_string s%_string.

Definition len {A} (s : list A) : Z := Z.of_nat (length s).

Definition is_nil {A} (l : list A) : bool :=
  match l with [] => true | _ => false end.

(** [a == b] on strings. *)
Fixpoint str_eqb (a b : str) : bool :=
  match a, b with
  | [], [] => true
  | x :: a', y :: b' => (x =? y)%N && str_eqb a' b'
  | _, _ => false
  end.

(** [a < b] on strings: lexicographic on code points. *)
Fixpoint str_ltb (a b : str) : bool :=
  match a, b with
  | [], [] => false
  | [], _ :: _ => true
  | _ :: _, [] => false
  | x :: a', y :: b' =>
      if (x <? y)%N then true else if (y <? x)%N then false else str_ltb a' b'
  end.

(** [str.isspace] on one code point: the Unicode whitespace set CPython uses
    for [strip] and for the regular expression class [\s]. *)
Definition whitespace_points : list N :=
  [9; 10; 11; 12; 13; 28; 29; 30; 31; 32; 133; 160; 5760;
   8192; 8193; 8194; 8195; 8196; 8197; 8198; 8199; 8200; 8201; 8202;
   8232; 8233; 8239; 8287; 12288]%N.

Definition is_space (c : char) : bool := existsb (N.eqb c) whitespace_points.

Definition SP : char := 32%N.

(** Slice bounds, as [PySlice_AdjustIndices] does for step 1: a negative bound
    counts from the end; the result is clamped into [0, n]. *)
Definition adjust (n i : Z) : Z :=
  if i <? 0 then Z.max 0 (i + n) else Z.min i n.

(** [s[i:j]] *)
Definition slice {A} (s : list A) (i j : Z) : list A :=
  let lo := adjust (len s) i in
  let hi := adjust (len s) j in
  firstn (Z.to_nat (hi - lo)) (skipn (Z.to_nat lo) s).

(** [s.startswith(sub)] *)
Fixpoint starts_with (sub s : str) : bool :=
  match sub, s with
  | [], _ => true
  | _ :: _, [] => false
  | x :: sub', y :: s' => (x =? y)%N && starts_with sub' s'
  end.

(** [s.endswith(sub)] *)
Definition ends_with (sub s : str) : bool :=
  (length sub <=? length s)%nat
  && starts_with sub (skipn (length s - length sub) s).

(** [s[i:].startswith(sub)] for an index [i] inside the string. *)
Definition match_at (sub s : str) (i : nat) : bool :=
  starts_with sub (skipn i s).

(** Forward scan over the candidate positions [lo, lo+1, ..., lo+n-1]. *)
Fixpoint find_up (sub s : str) (lo n : nat) : Z :=
  match n with
  | O => -1
  | S k => if match_at sub s lo then Z.of_nat lo else find_up sub s (S lo) k
  end.

(** Backward scan over the candidate positions [lo+n-1, ..., lo+1, lo]. *)
Fixpoint rfind_down (sub s : str) (lo n : nat) : Z :=
  match n with
  | O => -1
  | S k => if match_at sub s (lo + k) then Z.of_nat (lo + k)
           else rfind_down sub s lo k
  end.

(** The bounds of [find]/[rfind] ([ADJUST_INDICES] in CPython): [end] is
    clamped to the length, a negative bound counts from the end, and [start]
    is not clamped from above. *)
Definition adjust_end (n e : Z) : Z :=
  if n <? e then n else if e <? 0 then Z.max 0 (e + n) else e.
Definition adjust_start (n s : Z) : Z :=
  if s <? 0 then Z.max 0 (s + n) else s.

(** Number of candidate positions of a needle of length [m] in [lo, hi). *)
Definition candidates (lo hi m : Z) : nat := Z.to_nat (hi - lo - m + 1).

(** [s.find(sub, start, end)] *)
Definition find_in (sub s : str) (start end_ : Z) : Z :=
  let lo := adjust_start (len s) start in
  let hi := adjust_end (len s) end_ in
  find_up sub s (Z.to_nat lo) (candidates lo hi (len sub)).

(** [s.rfind(sub, start, end)] *)
Definition rfind_in (sub s : str) (start end_ : Z) : Z :=
  let lo := adjust_start (len s) start in
  let hi := adjust_end (len s) end_ in
  rfind_down sub s (Z.to_nat lo) (candidates lo hi (len sub)).

(** [s.find(sub)] and [s.rfind(sub)] *)
Definition find (sub s : str) : Z := find_in sub s 0 (len s).
Definition rfind (sub s : str) : Z := rfind_in sub s 0 (len s).

(** [sub in s] *)
Definition contains (sub s : str) : bool := 0 <=? find sub s.

(** [s.lstrip()], [s.rstrip()], [s.strip()] *)
Fixpoint lstrip (s : str) : str :=
  match s with
  | [] => []
  | c :: t => if is_space c then lstrip t else s
  end.

Fixpoint rstrip (s : str) : str :=
  match s with
  | [] => []
  | c :: t => let r := rstrip t in
              if is_space c && is_nil r then [] else c :: r
  end.

Definition strip (s : str) : str := rstrip (lstrip s).

(** [re.sub(r'\s+', ' ', s)]: every maximal run of whitespace becomes one
    space. [in_run] tells that the previous character was whitespace, whose
    replacement has been emitted already. *)
Fixpoint collapse (in_run : bool) (s : str) : str :=
  match s with
  | [] => []
  | c :: t =>
      if is_space c then (if in_run then collapse true t else SP :: collapse true t)
      else c :: collapse false t
  end.

Definition re_sub_ws (s : str) : str := collapse false s.

(** [s.split(sep, maxsplit)] for a non-empty separator: a left-to-right scan
    for non-overlapping occurrences. [skip] counts the characters of a matched
    separator still to be passed over, [cur] is the current piece, reversed,
    and [budget] is the number of splits still allowed ([None]: no limit). *)
Fixpoint split_go (sep : str) (budget : option nat) (skip : nat) (cur s : str)
  : list str :=
  match s with
  | [] => [rev cur]
  | c :: t =>
      match skip with
      | S k => split_go sep budget k cur t
      | O =>
          let allowed := match budget with Some O => false | _ => true end in
          if allowed && starts_with sep s then
            rev cur :: split_go sep (option_map Nat.pred budget)
                                (Nat.pred (length sep)) [] t
          else split_go sep budget O (c :: cur) t
      end
  end.

Definition split (sep s : str) : list str := split_go sep None O [] s.
Definition split_max (sep : str) (maxsplit : nat) (s : str) : list str :=
  split_go sep (Some maxsplit) O [] s.

(** [sep.join(parts)] *)
Fixpoint join (sep : str) (parts : list str) : str :=
  match parts with
  | [] => []
  | [p] => p
  | p :: rest => p ++ sep ++ join sep rest
  end.

(** [str(n)] for a non-negative integer: its decimal digits. *)
Fixpoint digits (fuel : nat) (n : N) (acc : str) : str :=
  let acc' := (48 + n mod 10)%N :: acc in
  match fuel with
  | O => acc'
  | S f => if (n / 10 =? 0)%N then acc' else digits f (n / 10)%N acc'
  end.

Definition str_of_N (n : N) : str := digits (N.to_nat (N.log2 n)) n [].

(** [int(s)] for a string of decimal digits. *)
Definition int_of_digits (s : str) : N :=
  fold_left (fun value c => (10 * value + (c - 48))%N) s 0%N.

(** [str(z)] *)
Definition str_of_int (z : Z) : str :=
  if z <? 0 then 45%N :: str_of_N (Z.to_N (- z)) else str_of_N (Z.to_N z).

(** A string is trimmed when neither its first nor its last character is
    whitespace. *)
Definition trimmed (c : str) : Prop :=
  (forall x t, c = x :: t -> is_space x = false) /\
  (forall t x, c = t ++ [x] -> is_space x = false).

(** The last [n] characters of a list. *)
Definition lastn {A} (n : nat) (l : list A) : list A :=
  skipn (length l - n) l.

End PyStr.
Import PyStr.

(** ** backend/ingest/pdf_loader.py *)

Module PDFLoader.

Definition DOT : str := of_string ".".
Definition QMARK : str := of_string "?".
Definition BANG : str := of_string "!".
Definition SPACE : str := of_string " ".

(** Lines 183-199: the end of the window that starts at [start]. *)
Definition window_end (text : str) (chunk_size start : Z) : Z :=
  let end_ := start + chunk_size in
  if end_ <? len text then
    let last_period :=
      Z.max (Z.max (rfind_in DOT text start end_) (rfind_in QMARK text start end_))
            (rfind_in BANG text start end_) in
    if negb (last_period =? -1) && (start + chunk_size / 2 <? last_period) then
      last_period + 1
    else
      let last_space := rfind_in SPACE text start end_ in
      if negb (last_space =? -1) then last_space + 1 else end_
  else end_.

(** Lines 181-207: the loop. [None]: the fuel ran out with [start < len(text)]
    still true. *)
Fixpoint chunk_loop (fuel : nat) (text : str) (chunk_size overlap start : Z)
                    (chunks : list str) : option (list str) :=
  if start <? len text then
    match fuel with
    | O => None
    | S fuel' =>
        let end_ := window_end text chunk_size start in
        let chunks := chunks ++ [strip (slice text start end_)] in
        let start := end_ - overlap in
        let start := if start <? 0 then 0 else start in
        chunk_loop fuel' text chunk_size overlap start chunks
    end
  else Some chunks.

(** The loop body, by parts: the chunk cut at [start], the next [start], and
    the [start] of iteration [k] (the first iteration is [k = 0]). *)
Definition chunk_at (text : str) (chunk_size start : Z) : str :=
  strip (slice text start (window_end text chunk_size start)).

Definition next_start (text : str) (chunk_size overlap start : Z) : Z :=
  let start' := window_end text chunk_size start - overlap in
  if start' <? 0 then 0 else start'.

Definition start_at (text : str) (chunk_size overlap : Z) (k : nat) : Z :=
  Nat.iter k (next_start text chunk_size overlap) 0.

(** Lines 186-199 searched for a boundary and moved nothing: the window ends
    inside the text, no terminator lies past its midpoint, and it holds no
    space. *)
Definition search_found_nothing (text : str) (chunk_size start : Z) : bool :=
  let end_ := start + chunk_size in
  let last_period :=
    Z.max (Z.max (rfind_in DOT text start end_) (rfind_in QMARK text start end_))
          (rfind_in BANG text start end_) in
  (end_ <? len text)
  && negb (negb (last_period =? -1) && (start + chunk_size / 2 <? last_period))
  && (rfind_in SPACE text start end_ =? -1).

(** Lines 186-199 moved nothing: no assignment to [end] was executed. *)
Definition end_not_moved (text : str) (chunk_size start : Z) : bool :=
  let end_ := start + chunk_size in
  negb (end_ <? len text) || search_found_nothing text chunk_size start.

(** Spec 4.1 in its own words, "collapse runs of whitespace to a single space,
    trim ends": what is left is the words of the text (its maximal runs of
    characters that are not whitespace), joined by single spaces. *)
Fixpoint words (s : str) : list str :=
  match s with
  | [] => []
  | c :: t =>
      if is_space c then words t
      else match t with
           | [] => [[c]]
           | d :: _ =>
               if is_space d then [c] :: words t
               else match words t with
                    | w :: ws => (c :: w) :: ws
                    | [] => [[c]]
                    end
           end
  end.

Definition words_joined (s : str) : str := join [SP] (words s).

(** Line 172. *)
Definition normalize (text : str) : str := strip (re_sub_ws text).

(** [PDFLoader.chunk_text] *)
Definition chunk_text (fuel : nat) (text : str) (chunk_size overlap : Z)
  : option (list str) :=
  let text := normalize text in
  if len text <=? chunk_size then Some [text]
  else chunk_loop fuel text chunk_size overlap 0 [].

End PDFLoader.

(** ** Python objects *)

(** The values [json.loads] can return, and the records the parsers build.
    A [dict] keeps its items in insertion order; a [float] is given by the bit
    pattern of its IEEE-754 double. *)
#[local] Unset Elimination Schemes.
Inductive pyval : Type :=
| PNone
| PBool (b : bool)
| PInt (z : Z)
| PFloat (bits : Z)
| PStr (s : str)
| PList (items : list pyval)
| PDict (items : list (str * pyval)).
#[local] Set Elimination Schemes.

(** The option monad of a [try] block: [None] is a raised exception. *)
Notation "x <- e ;; k" := (match e with Some x => k | None => None end)
  (at level 61, e at next level, right associativity, only parsing).

(** Truth value of a string or a list: non-empty. *)
Definition truthy {A} (l : list A) : bool := negb (is_nil l).

Definition NL : char := 10%N.
Definition BLANK_LINE : str := [NL; NL].

(** A dictionary with string keys, kept as its items in insertion order:
    [d.get(key, default)] and [d[key]] ([None]: [KeyError]). *)
Fixpoint dict_get {A} (d : list (str * A)) (key : str) (default : A) : A :=
  match d with
  | [] => default
  | (k, v) :: rest => if str_eqb k key then v else dict_get rest key default
  end.

Fixpoint dict_item {A} (d : list (str * A)) (key : str) : option A :=
  match d with
  | [] => None
  | (k, v) :: rest => if str_eqb k key then Some v else dict_item rest key
  end.

(** [l[i]] for any integer [i]; [None]: [IndexError]. *)
Definition list_item {A} (l : list A) (i : Z) : option A :=
  if i <? 0 then
    (if 0 <=? i + len l then nth_error l (Z.to_nat (i + len l)) else None)
  else nth_error l (Z.to_nat i).

(** "The substring '[{' followed later by '}]'": some "[{" of the response
    lies before some "}]". *)
Definition has_bracket_pair (response : str) : Prop :=
  exists i j, match_at (of_string "[{") response i = true
              /\ match_at (of_string "}]") response j = true
              /\ (i < j)%nat.

(** The same, decided: the first "[{" lies before the last "}]". *)
Definition bracket_pair (response : str) : bool :=
  (0 <=? find (of_string "[{") response)
  && (find (of_string "[{") response <? rfind (of_string "}]") response).

(** [str.lower] on ASCII letters, other code points left alone: an instance
    for examples. *)
Definition ascii_lower (s : str) : str :=
  map (fun c => if ((65 <=? c) && (c <=? 90))%N then (c + 32)%N else c) s.

(** ** api_layer/mcq_generator.py *)

Module MCQGenerator.

Definition OPTION_MARKERS : list str :=
  [of_string "A."; of_string "B."; of_string "C."; of_string "D."].
Definition OPTION_LETTERS : list str :=
  [of_string "A"; of_string "B"; of_string "C"; of_string "D"].

(** Lines 80-85: the record returned by the [except] handler. *)
Definition placeholder : pyval :=
  PList [PDict
    [(of_string "question",
      PStr (of_string "Failed to parse questions properly. Please try again."));
     (of_string "options",
      PList [PStr (of_string "A. Try again");
             PStr (of_string "B. Use different content");
             PStr (of_string "C. Adjust parameters");
             PStr (of_string "D. Contact support")]);
     (of_string "correct_answer", PStr (of_string "A"));
     (of_string "explanation",
      PStr (of_string "There was an error processing the AI response."))]].

(** Line 50: the test a block must pass to be read as a question. *)
Definition has_markers (q : str) : bool :=
  contains (of_string "?") q && contains (of_string "A.") q
  && contains (of_string "B.") q.

(** Lines 55-60. *)
Definition parse_options (options_text : str) : list str :=
  fold_left
    (fun options opt =>
       if contains opt options_text then
         let opt_start := find opt options_text in
         let next_opt :=
           List.find (fun o => str_ltb opt o && contains o options_text)
                     OPTION_MARKERS in
         let opt_end := match next_opt with
                        | Some o => find o options_text
                        | None => len options_text
                        end in
         options ++ [strip (slice options_text opt_start opt_end)]
       else options)
    OPTION_MARKERS [].

Section Parser.
(** [json.loads]; [None] when it raises. *)
Variable json_loads : str -> option pyval.
(** [str.lower], Python's Unicode lower-casing. *)
Variable lower : str -> str.

(** Lines 63-68. *)
Definition correct_answer (q : str) : str :=
  if contains (of_string "correct") (lower q) then
    match List.find
            (fun opt =>
               contains (of_string "correct answer is " ++ opt) (lower q)
               || contains (of_string "correct: " ++ opt) (lower q))
            OPTION_LETTERS with
    | Some opt => opt
    | None => of_string "A"
    end
  else of_string "A".

(** Lines 51-75: the record built from one block. *)
Definition parse_block (q : str) : option pyval :=
  let question_parts := split (of_string "?") q in
  part0 <- nth_error question_parts 0 ;;
  let question := part0 ++ of_string "?" in
  options_text <- nth_error question_parts 1 ;;
  let options := parse_options options_text in
  let correct := correct_answer q in
  Some (PDict
    [(of_string "question", PStr (strip question));
     (of_string "options", PList (map PStr options));
     (of_string "correct_answer", PStr correct);
     (of_string "explanation",
      PStr (of_string "Explanation not available in parsed format"))]).

(** Lines 49-75: the loop over the blocks. *)
Fixpoint parse_blocks (questions : list str) (mcqs : list pyval)
  : option (list pyval) :=
  match questions with
  | [] => Some mcqs
  | q :: rest =>
      if has_markers q then
        record <- parse_block q ;;
        parse_blocks rest (mcqs ++ [record])
      else parse_blocks rest mcqs
  end.

(** Lines 37-76: the body of the [try]. *)
Definition try_parse (response : str) (num_questions : Z) : option pyval :=
  let start_idx := find (of_string "[{") response in
  let end_idx := rfind (of_string "}]") response + 2 in
  if (0 <=? start_idx) && (start_idx <? end_idx) then
    json_loads (slice response start_idx end_idx)
  else
    let questions := split BLANK_LINE response in
    mcqs <- parse_blocks (slice questions 0 num_questions) [] ;;
    Some (PList mcqs).

(** [MCQGenerator.generate_mcqs], from the model's response on (lines
    36-85); [response] is what [self.llm.generate_text] returned. *)
Definition generate_mcqs (response : str) (num_questions : Z) : pyval :=
  match try_parse response num_questions with
  | Some mcqs => mcqs
  | None => placeholder
  end.
End Parser.

End MCQGenerator.

(** ** api_layer/revision.py *)

Module RevisionHelper.

(** Lines 66-69. *)
Definition placeholder : pyval :=
  PList [PDict
    [(of_string "front",
      PStr (of_string "Failed to parse flashcards properly. Please try again."));
     (of_string "back",
      PStr (of_string "There was an error processing the AI response."))]].

Section Parser.
Variable json_loads : str -> option pyval.
Variable lower : str -> str.

(** Lines 53-57: the loop over the lines of one card. *)
Fixpoint read_lines (lines : list str) (front back : str)
  : option (str * str) :=
  match lines with
  | [] => Some (front, back)
  | line :: rest =>
      if contains (of_string "front:") (lower line) then
        value <- nth_error (split_max (of_string ":") 1 line) 1 ;;
        read_lines rest (strip value) back
      else if contains (of_string "back:") (lower line) then
        value <- nth_error (split_max (of_string ":") 1 line) 1 ;;
        read_lines rest front (strip value)
      else read_lines rest front back
  end.

(** Lines 48-60: the loop over the cards. *)
Fixpoint parse_cards (cards : list str) (flashcards : list pyval)
  : option (list pyval) :=
  match cards with
  | [] => Some flashcards
  | card :: rest =>
      if contains (of_string "front") (lower card)
         && contains (of_string "back") (lower card) then
        fb <- read_lines (split [NL] card) [] [] ;;
        let '(front, back) := fb in
        if truthy front && truthy back then
          parse_cards rest
            (flashcards ++ [PDict [(of_string "front", PStr front);
                                   (of_string "back", PStr back)]])
        else parse_cards rest flashcards
      else parse_cards rest flashcards
  end.

(** Lines 36-62: the body of the [try]. *)
Definition try_parse (response : str) (num_cards : Z) : option pyval :=
  let start_idx := find (of_string "[{") response in
  let end_idx := rfind (of_string "}]") response + 2 in
  if (0 <=? start_idx) && (start_idx <? end_idx) then
    json_loads (slice response start_idx end_idx)
  else
    let cards := split BLANK_LINE response in
    flashcards <- parse_cards (slice cards 0 num_cards) [] ;;
    Some (PList flashcards).

(** [RevisionHelper.generate_flashcards], from the model's response on
    (lines 35-69). *)
Definition generate_flashcards (response : str) (num_cards : Z) : pyval :=
  match try_parse response num_cards with
  | Some flashcards => flashcards
  | None => placeholder
  end.
End Parser.

Definition KEY_CONCEPTS : str := of_string "Key Concepts".
Definition DEFINITIONS : str := of_string "Definitions".
Definition SUMMARY : str := of_string "Summary".
Definition PRACTICE_QUESTIONS : str := of_string "Practice Questions".

(** Lines 117-120 and 127-130: the loop that cuts the text before the first
    of the listed headers it holds, and stops there; [None]: an index raised. *)
Fixpoint cut_at_first (sections : list str) (text : str) : option str :=
  match sections with
  | [] => Some text
  | section :: rest =>
      if contains section text then nth_error (split section text) 0
      else cut_at_first rest text
  end.

(** Lines 116-120 and 126-130: the loop is run when [any] header is there. *)
Definition cut_section (sections : list str) (text : str) : option str :=
  if existsb (fun section => contains section text) sections
  then cut_at_first sections text
  else Some text.

(** Lines 111-145: the body of the [try], from the empty dictionary on. *)
Definition guide_sections (response : str) : option (list (str * pyval)) :=
  let sections := [] in
  sections <-
    (if contains KEY_CONCEPTS response then
       key_concepts_text <- nth_error (split KEY_CONCEPTS response) 1 ;;
       key_concepts_text <-
         cut_section [DEFINITIONS; SUMMARY; PRACTICE_QUESTIONS]
                     key_concepts_text ;;
       Some (sections
             ++ [(of_string "key_concepts", PStr (strip key_concepts_text))])
     else Some sections) ;;
  sections <-
    (if contains DEFINITIONS response then
       definitions_text <- nth_error (split DEFINITIONS response) 1 ;;
       definitions_text <-
         cut_section [SUMMARY; PRACTICE_QUESTIONS] definitions_text ;;
       Some (sections
             ++ [(of_string "definitions", PStr (strip definitions_text))])
     else Some sections) ;;
  sections <-
    (if contains SUMMARY response then
       summary_text <- nth_error (split SUMMARY response) 1 ;;
       summary_text <-
         (if contains PRACTICE_QUESTIONS summary_text
          then nth_error (split PRACTICE_QUESTIONS summary_text) 0
          else Some summary_text) ;;
       Some (sections ++ [(of_string "summary", PStr (strip summary_text))])
     else Some sections) ;;
  sections <-
    (if contains PRACTICE_QUESTIONS response then
       practice_questions <- nth_error (split PRACTICE_QUESTIONS response) 1 ;;
       Some (sections
             ++ [(of_string "practice_questions",
                  PStr (strip practice_questions))])
     else Some sections) ;;
  Some sections.

(** [RevisionHelper.generate_study_guide], from the model's response on
    (lines 110-150). *)
Definition generate_study_guide (response : str) : pyval :=
  match guide_sections response with
  | Some sections => PDict sections
  | None => PDict [(of_string "raw_content", PStr response)]
  end.

(** Lines 196-201 and 205-210: the graph that holds the main concept only. *)
Definition default_map (main_concept : str) : pyval :=
  PDict
    [(of_string "nodes",
      PList [PDict [(of_string "id", PStr (of_string "1"));
                    (of_string "label", PStr main_concept);
                    (of_string "type", PStr (of_string "main"))]]);
     (of_string "edges", PList [])].

Section ConceptMap.
Variable json_loads : str -> option pyval.

(** Lines 188-201: the body of the [try]. *)
Definition try_concept_map (response main_concept : str) : option pyval :=
  let start_idx := find (of_string "{") response in
  let end_idx := rfind (of_string "}") response + 1 in
  if (0 <=? start_idx) && (start_idx <? end_idx) then
    json_loads (slice response start_idx end_idx)
  else Some (default_map main_concept).

(** [RevisionHelper.generate_concept_connections], from the model's response
    on (lines 185-210). *)
Definition generate_concept_connections (response main_concept : str)
  : pyval :=
  match try_concept_map response main_concept with
  | Some concept_map => concept_map
  | None => default_map main_concept
  end.
End ConceptMap.

End RevisionHelper.

(** A decoder for examples: it knows the payload "[{}]", a list holding one
    empty object, and rejects everything else. *)
Definition sample_loads (s : str) : option pyval :=
  if str_eqb s (of_string "[{}]") then Some (PList [PDict []]) else None.

(** A decoder of objects for examples: it knows "{}" only. *)
Definition sample_object_loads (s : str) : option pyval :=
  if str_eqb s (of_string "{}") then Some (PDict []) else None.

(** ** api_layer/llm_interface.py *)

Module GeminiInterface.

Inductive exn : Type := ValueError (msg : str).

(** The calls made to the [genai] package, in order. *)
Inductive genai_call : Type :=
| Configure (api_key : str)
| GenerativeModel (name : str).

Record t : Type := { model : str; embedding_model : str }.

(** [os.getenv]: the environment is a list of bindings; the first one counts. *)
Fixpoint getenv (environ : list (str * str)) (name : str) : option str :=
  match environ with
  | [] => None
  | (k, v) :: rest => if str_eqb k name then Some v else getenv rest name
  end.

Definition GEMINI_API_KEY : str := of_string "GEMINI_API_KEY".

(** [GeminiInterface.__init__] (lines 8-16): the [genai] calls made and the
    outcome, an exception or the constructed object. [genai.configure] and
    the [GenerativeModel] constructor only record their arguments. *)
Definition init (environ : list (str * str)) : list genai_call * (exn + t) :=
  let api_key := getenv environ GEMINI_API_KEY in
  match api_key with
  | None | Some [] =>
      ([], inl (ValueError
                  (of_string "GEMINI_API_KEY environment variable not set")))
  | Some key =>
      ([Configure key; GenerativeModel (of_string "gemini-1.0-pro")],
       inr {| model := of_string "gemini-1.0-pro";
              embedding_model := of_string "embedding-001" |})
  end.

Section Embeddings.
Variable vector : Type.
(** [genai.embed_content(...)['embedding']] for one text. *)
Variable embed_content : str -> vector.

(** [GeminiInterface.get_embeddings] (lines 56-65). *)
Definition get_embeddings (texts : list str) : list vector :=
  fold_left (fun embeddings text => embeddings ++ [embed_content text])
            texts [].
End Embeddings.

(** The [generation_config] dictionary of [generate_text]; a [float] is given
    by the bit pattern of its double. *)
Record generation_config : Type := {
  temperature : Z;
  top_p : Z;
  top_k : Z;
  max_output_tokens : Z
}.

(** The literals [0.3], [0.7] and [0.95]. *)
Definition FLOAT_0_3 : Z := 4599075939470750515.
Definition FLOAT_0_7 : Z := 4604480259023595110.
Definition FLOAT_0_95 : Z := 4606732058837280358.

(** One entry of a chat history in Gemini's format. *)
Record content : Type := { role : str; parts : list str }.

Inductive chat_exn : Type := KeyError (key : str) | IndexError.

Section Generation.
(** [self.model.generate_content(prompt, generation_config=...).text] *)
Variable generate_content : str -> generation_config -> str.
(** [self.model.start_chat(history=h).send_message(m,
    generation_config={"temperature": t}).text]: what the call yields, the
    text of the response or, for a caller that tells failures of the API
    apart, the text or the exception the call raises, which [chat] lets
    through. *)
Variable reply : Type.
Variable send_message : list content -> str -> Z -> reply.

(** [GeminiInterface.generate_text] (lines 33-45). *)
Definition generate_text (prompt : str)
    (temperature max_output_tokens top_k top_p : Z) : str :=
  generate_content prompt
    {| temperature := temperature; top_p := top_p; top_k := top_k;
       max_output_tokens := max_output_tokens |}.

(** Lines 103-109: the prompt of [generate_with_context]. *)
Definition context_prompt (query context : str) : str :=
  of_string "Context information is below." ++ [NL]
  ++ of_string "        ---------------------" ++ [NL]
  ++ of_string "        " ++ context ++ [NL]
  ++ of_string "        ---------------------" ++ [NL]
  ++ of_string "        Given the context information and not prior knowledge, answer the query."
  ++ [NL]
  ++ of_string "        Query: " ++ query ++ [NL]
  ++ of_string "        Answer:".

(** [GeminiInterface.generate_with_context] (lines 103-111); the other
    arguments of [generate_text] take their defaults. *)
Definition generate_with_context (query context : str) (temperature : Z)
  : str :=
  generate_text (context_prompt query context) temperature 1024 40 FLOAT_0_95.

(** Lines 78-80: the loop over the messages. *)
Fixpoint to_gemini (messages : list (list (str * str)))
    (gemini_messages : list content) : chat_exn + list content :=
  match messages with
  | [] => inr gemini_messages
  | msg :: rest =>
      match dict_item msg (of_string "role") with
      | None => inl (KeyError (of_string "role"))
      | Some msg_role =>
          let role := if str_eqb msg_role (of_string "user")
                      then of_string "user" else of_string "model" in
          match dict_item msg (of_string "content") with
          | None => inl (KeyError (of_string "content"))
          | Some msg_content =>
              to_gemini rest
                (gemini_messages ++ [{| role := role; parts := [msg_content] |}])
          end
      end
  end.

(** [GeminiInterface.chat] (lines 77-89). *)
Definition chat (messages : list (list (str * str))) (temperature : Z)
  : chat_exn + reply :=
  match to_gemini messages [] with
  | inl e => inl e
  | inr gemini_messages =>
      match list_item gemini_messages (-1) with
      | None => inl IndexError
      | Some last =>
          match list_item (parts last) 0 with
          | None => inl IndexError
          | Some text => inr (send_message gemini_messages text temperature)
          end
      end
  end.
End Generation.
Arguments chat {reply}.

End GeminiInterface.

(** ** backend/vector_db/chroma_db.py *)

(** [range(n)] *)
Definition range (n : Z) : list Z := map Z.of_nat (seq 0 (Z.to_nat n)).

Module ChromaDBManager.

(** What [collection.query] returns: one row per query embedding. *)
Record query_result (dist : Type) : Type := {
  ids : list (list str);
  documents : list (list str);
  metadatas : option (list (list pyval));
  distances : list (list dist)
}.
Arguments ids {dist}.
Arguments documents {dist}.
Arguments metadatas {dist}.
Arguments distances {dist}.

(** The arguments of the [collection.add] call. *)
Record add_call (vector : Type) : Type := {
  add_collection : str;
  add_embeddings : list vector;
  add_documents_ : list str;
  add_metadatas : option (list pyval);
  add_ids : list str
}.
Arguments add_collection {vector}.
Arguments add_embeddings {vector}.
Arguments add_documents_ {vector}.
Arguments add_metadatas {vector}.
Arguments add_ids {vector}.

Section Store.
Variables vector dist : Type.
Variable embed_content : str -> vector.
(** [collection.query(query_embeddings=[e], n_results=n, include=...)] on
    the named collection: the vector store's nearest-neighbour search. *)
Variable collection_query : str -> vector -> Z -> query_result dist.

(** [ChromaDBManager.add_documents] (lines 55-71). *)
Definition add_documents (collection_name : str) (documents : list str)
    (metadatas : option (list pyval)) (ids : option (list str))
  : add_call vector :=
  let embeddings := GeminiInterface.get_embeddings vector embed_content documents in
  let ids := match ids with
             | None => map (fun i => of_string "doc_" ++ str_of_int i)
                           (range (len documents))
             | Some ids => ids
             end in
  {| add_collection := collection_name;
     add_embeddings := embeddings;
     add_documents_ := documents;
     add_metadatas := metadatas;
     add_ids := ids |}.

(** [ChromaDBManager.query_collection] (lines 85-98); [None]: the index
    [[0]] raised. *)
Definition query_collection (collection_name query_text : str)
    (n_results : Z) : option (query_result dist) :=
  query_embedding <-
    nth_error (GeminiInterface.get_embeddings vector embed_content [query_text]) 0 ;;
  Some (collection_query collection_name query_embedding n_results).
End Store.

End ChromaDBManager.

(** A store for examples: two matches whatever the query, at distances 0.120
    and 0.870 given in thousandths. *)
Definition sample_query (collection_name : str) (query_embedding : nat)
    (n_results : Z) : ChromaDBManager.query_result Z :=
  {| ChromaDBManager.ids := [[of_string "doc_4"; of_string "doc_0"]];
     ChromaDBManager.documents :=
       [[of_string "Plants turn light into sugar."; of_string "Page 1:"]];
     ChromaDBManager.metadatas := Some [[PDict []; PNone]];
     ChromaDBManager.distances := [[120; 870]] |}.

(** ** backend/retrieval/rag_chain.py *)

Module RAGChain.
Import ChromaDBManager.

Record retrieved (dist : Type) : Type := {
  r_id : str;
  r_document : str;
  r_metadata : pyval;
  r_distance : dist
}.
Arguments r_id {dist}.
Arguments r_document {dist}.
Arguments r_metadata {dist}.
Arguments r_distance {dist}.

Section Retrieve.
Variables vector dist : Type.
Variable embed_content : str -> vector.
Variable collection_query : str -> vector -> Z -> query_result dist.

(** [RAGChain.add_documents] (line 28); [collection_name] is
    [self.collection_name]. *)
Definition add_documents (collection_name : str) (documents : list str)
    (metadatas : option (list pyval)) (ids : option (list str))
  : add_call vector :=
  ChromaDBManager.add_documents vector embed_content collection_name
    documents metadatas ids.

(** Lines 44-49: the record for index [i]; [None]: an index raised. *)
Definition record_at (results : query_result dist) (i : nat)
  : option (retrieved dist) :=
  ids0 <- nth_error (ids results) 0 ;;
  id <- nth_error ids0 i ;;
  documents0 <- nth_error (documents results) 0 ;;
  document <- nth_error documents0 i ;;
  metadata <- (match metadatas results with
               | Some ((_ :: _) as rows) =>
                   row <- nth_error rows 0 ;; nth_error row i
               | _ => Some (PDict [])
               end) ;;
  distances0 <- nth_error (distances results) 0 ;;
  distance <- nth_error distances0 i ;;
  Some {| r_id := id; r_document := document;
          r_metadata := metadata; r_distance := distance |}.

(** Lines 42-49: the loop over [range(len(results["ids"][0]))]. *)
Fixpoint collect (results : query_result dist) (indices : list nat)
    (retrieved_docs : list (retrieved dist))
  : option (list (retrieved dist)) :=
  match indices with
  | [] => Some retrieved_docs
  | i :: rest =>
      doc <- record_at results i ;;
      collect results rest (retrieved_docs ++ [doc])
  end.

(** [RAGChain.retrieve] (lines 40-51). *)
Definition retrieve (collection_name query : str) (n_results : Z)
  : option (list (retrieved dist)) :=
  results <- query_collection vector dist embed_content collection_query
               collection_name query n_results ;;
  ids0 <- nth_error (ids results) 0 ;;
  collect results (seq 0 (length ids0)) [].

(** What [generate_response] and [answer_with_sources] return. *)
Record response_with_context : Type := {
  response : str;
  context : list (retrieved dist)
}.
Record source : Type := { source_id : str; source_metadata : pyval }.
Record response_with_sources : Type := {
  cited_response : str;
  sources : list source
}.

(** [self.llm]'s model. *)
Variable generate_content : str -> GeminiInterface.generation_config -> str.
(** [str] of a value, as an f-string writes it. *)
Variable format_value : pyval -> str.

(** [RAGChain.generate_response] (lines 64-75). *)
Definition generate_response (collection_name query : str) (n_results : Z)
  : option response_with_context :=
  retrieved_docs <- retrieve collection_name query n_results ;;
  let context := join BLANK_LINE (map r_document retrieved_docs) in
  let response :=
    GeminiInterface.generate_with_context generate_content query context
      GeminiInterface.FLOAT_0_3 in
  Some {| response := response; context := retrieved_docs |}.

(** [metadata.get('source', 'Unknown')]; only a dictionary has [get]. *)
Definition source_of (metadata : pyval) : option pyval :=
  match metadata with
  | PDict items => Some (dict_get items (of_string "source")
                                  (PStr (of_string "Unknown")))
  | _ => None
  end.

(** Lines 91-94: the loop over [enumerate(retrieved_docs)]. *)
Fixpoint cite (i : Z) (retrieved_docs : list (retrieved dist))
    (context_parts : list str) : option (list str) :=
  match retrieved_docs with
  | [] => Some context_parts
  | doc :: rest =>
      source_name <- source_of (r_metadata doc) ;;
      let source_info :=
        of_string "Source " ++ str_of_int (i + 1) ++ of_string ": "
        ++ format_value source_name in
      cite (i + 1) rest
           (context_parts ++ [r_document doc ++ [NL] ++ source_info])
  end.

(** Lines 99-105: the prompt of [answer_with_sources]. *)
Definition citing_prompt (query context : str) : str :=
  of_string "Context information is below." ++ [NL]
  ++ of_string "        ---------------------" ++ [NL]
  ++ of_string "        " ++ context ++ [NL]
  ++ of_string "        ---------------------" ++ [NL]
  ++ of_string "        Given the context information and not prior knowledge, answer the query and cite your sources."
  ++ [NL]
  ++ of_string "        Query: " ++ query ++ [NL]
  ++ of_string "        Answer (include [Source X] citations):".

(** [RAGChain.answer_with_sources] (lines 88-116). *)
Definition answer_with_sources (collection_name query : str) (n_results : Z)
  : option response_with_sources :=
  retrieved_docs <- retrieve collection_name query n_results ;;
  context_parts <- cite 0 retrieved_docs [] ;;
  let context := join BLANK_LINE context_parts in
  let prompt := citing_prompt query context in
  let response :=
    GeminiInterface.generate_text generate_content prompt
      GeminiInterface.FLOAT_0_3 1024 40 GeminiInterface.FLOAT_0_95 in
  Some {| cited_response := response;
          sources := map (fun doc => {| source_id := r_id doc;
                                        source_metadata := r_metadata doc |})
                         retrieved_docs |}.
End Retrieve.

End RAGChain.

(** ** backend/ingest/pdf_loader.py: reading the file *)

Module PDFFiles.

(** What [fitz.open] gives: the document's metadata dictionary and the text
    [page.get_text()] returns for each page. *)
Record pdf_document : Type := {
  doc_metadata : list (str * pyval);
  doc_pages : list str
}.

(** A path of the file system: nothing there, a file [fitz] fails on (with the
    text of its error), or a PDF and its size in bytes. *)
Inductive file_state : Type :=
| Missing
| Unreadable (message : str)
| Readable (doc : pdf_document) (size : Z).

Inductive exn : Type :=
| FileNotFoundError (message : str)
| Exception (message : str).

(** Lines 42-45: the loop over [enumerate(doc)]. *)
Fixpoint page_texts (page_num : Z) (pages : list str) (full_text : str) : str :=
  match pages with
  | [] => full_text
  | text :: rest =>
      page_texts (page_num + 1) rest
        (full_text ++ of_string "Page " ++ str_of_int (page_num + 1)
                   ++ of_string ":" ++ [NL] ++ text ++ [NL; NL])
  end.

(** [PDFLoader.load_pdf] (lines 22-50). *)
Definition load_pdf (files : str -> file_state) (file_path : str)
  : exn + (str * list (str * pyval)) :=
  match files file_path with
  | Missing => inl (FileNotFoundError (of_string "PDF file not found: " ++ file_path))
  | Unreadable message =>
      inl (Exception (of_string "Error loading PDF: " ++ message))
  | Readable doc size =>
      let metadata :=
        [(of_string "title",
          dict_get (doc_metadata doc) (of_string "title") (PStr []));
         (of_string "author",
          dict_get (doc_metadata doc) (of_string "author") (PStr []));
         (of_string "subject",
          dict_get (doc_metadata doc) (of_string "subject") (PStr []));
         (of_string "keywords",
          dict_get (doc_metadata doc) (of_string "keywords") (PStr []));
         (of_string "creator",
          dict_get (doc_metadata doc) (of_string "creator") (PStr []));
         (of_string "producer",
          dict_get (doc_metadata doc) (of_string "producer") (PStr []));
         (of_string "page_count", PInt (len (doc_pages doc)));
         (of_string "file_size", PInt size)] in
      inr (page_texts 0 (doc_pages doc) [], metadata)
  end.

(** [PDFLoader.extract_text_by_page] (lines 61-77). *)
Definition extract_text_by_page (files : str -> file_state) (file_path : str)
  : exn + list str :=
  match files file_path with
  | Missing => inl (FileNotFoundError (of_string "PDF file not found: " ++ file_path))
  | Unreadable message =>
      inl (Exception (of_string "Error extracting text by page: " ++ message))
  | Readable doc _ =>
      inr (fold_left (fun pages_text text => pages_text ++ [text])
                     (doc_pages doc) [])
  end.

End PDFFiles.

(** ** frontend/pdf_viewer.py: processing an uploaded file *)

Module PdfViewer.

Section Upload.
Variable vector : Type.
Variable embed_content : str -> vector.

(** Lines 40-62, for a new file, on the session's chain
    [RAGChain("pdf_documents")]: what reaches the collection, or the error
    shown to the user; [None] when the chunker has not returned within the
    fuel. [name] is [uploaded_file.name]. *)
Definition process_upload (fuel : nat) (files : str -> PDFFiles.file_state)
    (name temp_file_path : str)
  : option (PDFFiles.exn + ChromaDBManager.add_call vector) :=
  match PDFFiles.load_pdf files temp_file_path with
  | inl e => Some (inl e)
  | inr (pdf_text, pdf_metadata) =>
      chunks <- PDFLoader.chunk_text fuel pdf_text 1000 200 ;;
      let metadatas :=
        map (fun i => PDict [(of_string "source", PStr name);
                             (of_string "chunk_index", PInt i)])
            (range (len chunks)) in
      Some (inr (RAGChain.add_documents vector embed_content
                   (of_string "pdf_documents") chunks (Some metadatas) None))
  end.
End Upload.

End PdfViewer.

(** ** frontend/chatbot_ui.py *)

Module ChatbotUI.

(** A message of the chat history (lines 33 and 46). *)
Definition message (role content : str) : list (str * str) :=
  [(of_string "role", role); (of_string "content", content)].

(** Lines 39-40: the copy of the history handed to [chat]. *)
Fixpoint copy_messages (chat_history : list (list (str * str)))
  : GeminiInterface.chat_exn + list (list (str * str)) :=
  match chat_history with
  | [] => inr []
  | msg :: rest =>
      match dict_item msg (of_string "role") with
      | None => inl (GeminiInterface.KeyError (of_string "role"))
      | Some msg_role =>
          match dict_item msg (of_string "content") with
          | None => inl (GeminiInterface.KeyError (of_string "content"))
          | Some msg_content =>
              match copy_messages rest with
              | inl e => inl e
              | inr messages => inr (message msg_role msg_content :: messages)
              end
          end
      end
  end.

(** The two buttons of the page. *)
Inductive event : Type := Send (user_input : str) | ClearChat.

(** What line 51 shows: an exception of [chat]'s own code, or one raised by
    the call of the API. *)
Inductive error (api_exn : Type) : Type :=
| ChatRaised (e : GeminiInterface.chat_exn)
| ApiRaised (e : api_exn).
Arguments ChatRaised {api_exn}.
Arguments ApiRaised {api_exn}.

Section Session.
Variable api_exn : Type.
(** The call of the model: its answer, or the exception it raises. *)
Variable send_message :
  list GeminiInterface.content -> str -> Z -> api_exn + str.

(** One run of [render_chatbot] on a press of a button (lines 30-56): the
    chat history it leaves in the session state, and the exception shown by
    [st.error], if any. The user's message is appended before the [try]
    (line 33), so it stays in the history when the call raises. The rerun of
    line 49 is Streamlit's own control flow and shows nothing. *)
Definition press (chat_history : list (list (str * str))) (e : event)
  : list (list (str * str)) * option (error api_exn) :=
  match e with
  | Send user_input =>
      if truthy (strip user_input) then
        let chat_history :=
          chat_history ++ [message (of_string "user") user_input] in
        match copy_messages chat_history with
        | inl e => (chat_history, Some (ChatRaised e))
        | inr messages =>
            match GeminiInterface.chat send_message messages
                    GeminiInterface.FLOAT_0_7 with
            | inl e => (chat_history, Some (ChatRaised e))
            | inr (inl e) => (chat_history, Some (ApiRaised e))
            | inr (inr response) =>
                (chat_history ++ [message (of_string "assistant") response],
                 None)
            end
        end
      else (chat_history, None)
  | ClearChat => ([], None)
  end.

(** A session: the presses in order, from a given history on, with the
    exceptions shown on the way. *)
Fixpoint session (events : list event) (chat_history : list (list (str * str)))
  : list (list (str * str)) * list (error api_exn) :=
  match events with
  | [] => (chat_history, [])
  | e :: rest =>
      let '(chat_history, shown) := press chat_history e in
      let '(final, errors) := session rest chat_history in
      (final, match shown with Some x => x :: errors | None => errors end)
  end.
End Session.

End ChatbotUI.

(** A model for examples that raises (with the code 503) when the history it
    is given holds one entry, and otherwise answers with as many stars as the
    history has entries. *)
Definition sample_flaky_chat (history : list GeminiInterface.content)
    (text : str) (temperature : Z) : Z + str :=
  if (length history =? 1)%nat then inl 503 else inr (repeat 42%N (length history)).

(** A model for examples: it answers with the number of entries of the
    history it was given, as a string of that many stars. *)
Definition sample_chat (history : list GeminiInterface.content) (text : str)
    (temperature : Z) : str :=
  repeat 42%N (length history).


(** A model for examples: it answers with its prompt. *)
Definition sample_model (prompt : str)
    (config : GeminiInterface.generation_config) : str := prompt.

(** [str] for examples: a string is itself, anything else is "?". *)
Definition sample_format (v : pyval) : str :=
  match v with PStr s => s | _ => of_string "?" end.

(** A file system for examples: [paper.pdf] is a one-page PDF whose text is
    993 times the letter "x", [notes.pdf] has two short pages, [lab.pdf] one,
    and there is nothing else. *)
Definition sample_files (file_path : str) : PDFFiles.file_state :=
  if str_eqb file_path (of_string "paper.pdf") then
    PDFFiles.Readable
      {| PDFFiles.doc_metadata := [];
         PDFFiles.doc_pages := [repeat 120%N (Z.to_nat 993)] |} 4096
  else if str_eqb file_path (of_string "notes.pdf") then
    PDFFiles.Readable
      {| PDFFiles.doc_metadata := [(of_string "title", PStr (of_string "Notes"))];
         PDFFiles.doc_pages :=
           [of_string "Cells are small."; of_string "Plants  make sugar."] |} 2048
  else if str_eqb file_path (of_string "lab.pdf") then
    PDFFiles.Readable
      {| PDFFiles.doc_metadata := [];
         PDFFiles.doc_pages := [of_string "Mix the acid slowly."] |} 1024
  else PDFFiles.Missing.

(** * Vocabulary of the statements *)

Import PDFLoader.

(** The sentence terminators of line 188. *)
Definition is_terminator (c : char) : Prop := c = 46%N \/ c = 63%N \/ c = 33%N.

(** A string without whitespace. *)
Definition clean (a : str) : Prop := Forall (fun x => is_space x = false) a.

(** A string without whitespace and without sentence terminators. *)
Definition plain (a : str) : Prop :=
  Forall (fun x => is_space x = false /\ ~ is_terminator x) a.

(** The four ways a window can end. *)
Inductive window_case (text : str) (chunk_size start : Z) : Z -> Prop :=
| AtTextEnd :
    len text <= start + chunk_size ->
    window_case text chunk_size start (start + chunk_size)
| AtTerminator p c :
    start + chunk_size < len text ->
    start + chunk_size / 2 < p < start + chunk_size ->
    nth_error text (Z.to_nat p) = Some c -> is_terminator c ->
    window_case text chunk_size start (p + 1)
| AtSpace q :
    start + chunk_size < len text ->
    start <= q < start + chunk_size ->
    nth_error text (Z.to_nat q) = Some SP ->
    window_case text chunk_size start (q + 1)
| HardCut :
    start + chunk_size < len text ->
    search_found_nothing text chunk_size start = true ->
    window_case text chunk_size start (start + chunk_size).

(** What the vector store is trusted to return for a query asking for
    [n_results] matches: one row of ids, documents and distances of one common
    length, at most [n_results]; a row of metadata of that length when there is
    metadata at all; distances in ascending order. *)
Record store_contract {dist} (dist_le : dist -> dist -> Prop) (n_results : Z)
    (results : ChromaDBManager.query_result dist)
    (row_ids row_documents : list (list N)) (row_distances : list dist)
  : Prop := {
  contract_ids : nth_error (ChromaDBManager.ids results) 0 = Some row_ids;
  contract_documents :
    nth_error (ChromaDBManager.documents results) 0 = Some row_documents;
  contract_distances :
    nth_error (ChromaDBManager.distances results) 0 = Some row_distances;
  contract_documents_length : length row_documents = length row_ids;
  contract_distances_length : length row_distances = length row_ids;
  contract_metadatas :
    match ChromaDBManager.metadatas results with
    | Some (row :: _) => length row = length row_ids
    | _ => True
    end;
  contract_at_most : Z.of_nat (length row_ids) <= n_results;
  contract_ranked : Sorted dist_le row_distances
}.

(** The text of page [k] as [load_pdf] writes it: under the header "Page k:"
    and followed by a blank line. *)
Definition framed_page (k : Z) (text : str) : str :=
  of_string "Page " ++ str_of_int k ++ of_string ":" ++ [NL] ++ text
  ++ [NL; NL].

(** The metadata row of a query result, empty when there is none. *)
Definition metadata_row {dist} (results : ChromaDBManager.query_result dist)
  : list pyval :=
  match ChromaDBManager.metadatas results with
  | Some (row :: _) => row
  | _ => []
  end.

Definition is_dict (v : pyval) : bool :=
  match v with PDict _ => true | _ => false end.

(** The [generation_config] of a [generate_text] call that passes a
    temperature only. *)
Definition config_at (temperature : Z) : GeminiInterface.generation_config :=
  {| GeminiInterface.temperature := temperature;
     GeminiInterface.top_p := GeminiInterface.FLOAT_0_95;
     GeminiInterface.top_k := 40;
     GeminiInterface.max_output_tokens := 1024 |}.

(** A chat message that has both keys [chat] reads. *)
Definition has_role_and_content (msg : list (str * str)) : Prop :=
  exists msg_role msg_content,
    dict_item msg (of_string "role") = Some msg_role
    /\ dict_item msg (of_string "content") = Some msg_content.

(** The history entry [chat] makes of such a message: only the role "user"
    is kept, every other role becomes "model". *)
Definition gemini_entry (msg : list (str * str)) : GeminiInterface.content :=
  {| GeminiInterface.role :=
       if str_eqb (dict_get msg (of_string "role") []) (of_string "user")
       then of_string "user" else of_string "model";
     GeminiInterface.parts := [dict_get msg (of_string "content") []] |}.

(** The histories of the chatbot page: questions, each followed by what the
    model answered when given the history up to and including the question,
    and the question again as the new message; a question whose call raised
    stays without an answer. *)
Inductive transcript {api_exn : Type}
    (send_message :
       list GeminiInterface.content -> list N -> Z -> api_exn + list N)
  : list (list (list N * list N)) -> Prop :=
| transcript_empty : transcript send_message []
| transcript_answered chat_history question answer :
    transcript send_message chat_history ->
    strip question <> [] ->
    send_message
      (map gemini_entry
           (chat_history ++ [ChatbotUI.message (of_string "user") question]))
      question GeminiInterface.FLOAT_0_7 = inr answer ->
    transcript send_message
      (chat_history
       ++ [ChatbotUI.message (of_string "user") question;
           ChatbotUI.message (of_string "assistant") answer])
| transcript_unanswered chat_history question raised :
    transcript send_message chat_history ->
    strip question <> [] ->
    send_message
      (map gemini_entry
           (chat_history ++ [ChatbotUI.message (of_string "user") question]))
      question GeminiInterface.FLOAT_0_7 = inl raised ->
    transcript send_message
      (chat_history ++ [ChatbotUI.message (of_string "user") question]).

(** The shape of a record the heuristic path builds. *)
Definition heuristic_record (m : pyval) : Prop :=
  exists question options correct,
    m = PDict
          [(of_string "question", PStr question);
           (of_string "options", PList (map PStr options));
           (of_string "correct_answer", PStr correct);
           (of_string "explanation",
            PStr (of_string "Explanation not available in parsed format"))]
    /\ trimmed question /\ Forall trimmed options.

(** The shape of a card the heuristic path of the flashcard parser builds. *)
Definition heuristic_card (m : pyval) : Prop :=
  exists front back,
    m = PDict [(of_string "front", PStr front); (of_string "back", PStr back)]
    /\ front <> [] /\ back <> [] /\ trimmed front /\ trimmed back.

(** An upper-case ASCII letter. *)
Definition is_upper (c : char) : Prop := (65 <= c <= 90)%N.

(** * Facts about the string primitives *)

Section StringFacts.

Lemma len_nonneg {A} (s : list A) : 0 <= len s.
Proof. unfold len; lia. Qed.

Lemma len_app {A} (a b : list A) : len (a ++ b) = len a + len b.
Proof. unfold len; rewrite length_app; lia. Qed.

Lemma lstrip_length s : (length (lstrip s) <= length s)%nat.
Proof.
  induction s as [|c t IH]; simpl; [lia|].
  destruct (is_space c); simpl; lia.
Qed.

Lemma rstrip_length s : (length (rstrip s) <= length s)%nat.
Proof.
  induction s as [|c t IH]; simpl; [lia|].
  destruct (is_space c && is_nil (rstrip t)); simpl; lia.
Qed.

Lemma strip_len s : len (strip s) <= len s.
Proof.
  unfold strip, len.
  pose proof (rstrip_length (lstrip s)); pose proof (lstrip_length s); lia.
Qed.

(** What [lstrip] returns starts with a character that is not whitespace. *)
Lemma lstrip_head s x t : lstrip s = x :: t -> is_space x = false.
Proof.
  induction s as [|c s' IH]; simpl; [discriminate|].
  destruct (is_space c) eqn:E; [exact IH|].
  intros H; injection H as -> _; exact E.
Qed.

(** [rstrip] keeps the first character of whatever it keeps. *)
Lemma rstrip_head s x t : rstrip s = x :: t -> exists t', s = x :: t'.
Proof.
  destruct s as [|c s']; simpl; [discriminate|].
  destruct (is_space c && is_nil (rstrip s')); [discriminate|].
  intros H; injection H as -> _; eauto.
Qed.

(** What [rstrip] returns ends with a character that is not whitespace. *)
Lemma rstrip_last s : forall t x, rstrip s = t ++ [x] -> is_space x = false.
Proof.
  induction s as [|c s' IH]; simpl; intros t x H.
  - destruct t; discriminate.
  - destruct (rstrip s') as [|y r] eqn:R.
    + rewrite andb_true_r in H. destruct (is_space c) eqn:E.
      * destruct t; discriminate.
      * destruct t as [|z t]; simpl in H.
        -- injection H as <-; exact E.
        -- injection H as _ H; destruct t; discriminate.
    + rewrite andb_false_r in H. destruct t as [|z t]; simpl in H.
      * discriminate.
      * injection H as _ H. eapply IH; eauto.
Qed.

Lemma strip_trimmed s : trimmed (strip s).
Proof.
  unfold strip; split.
  - intros x t H. destruct (rstrip_head _ _ _ H) as [t' H'].
    eapply lstrip_head; eauto.
  - intros t x H. eapply rstrip_last; eauto.
Qed.

(** [rstrip] leaves a prefix without whitespace alone. *)
Lemma rstrip_app_clean a b :
  Forall (fun x => is_space x = false) a -> rstrip (a ++ b) = a ++ rstrip b.
Proof.
  induction 1 as [|x a Hx _ IH]; simpl; [reflexivity|].
  rewrite Hx, IH; reflexivity.
Qed.

Lemma rstrip_clean a :
  Forall (fun x => is_space x = false) a -> rstrip a = a.
Proof.
  intros H. rewrite <- (app_nil_r a) at 1.
  rewrite rstrip_app_clean by assumption. simpl. apply app_nil_r.
Qed.

Lemma lstrip_clean_head x t : is_space x = false -> lstrip (x :: t) = x :: t.
Proof. intros H; simpl; rewrite H; reflexivity. Qed.

(** Slices with bounds inside the string. *)
Lemma adjust_inside n i : 0 <= i <= n -> adjust n i = i.
Proof. unfold adjust; intros H. destruct (Z.ltb_spec i 0); lia. Qed.

Lemma adjust_above n i : 0 <= n <= i -> adjust n i = n.
Proof. unfold adjust; intros H. destruct (Z.ltb_spec i 0); lia. Qed.

Lemma adjust_range n i : 0 <= n -> 0 <= adjust n i <= n.
Proof. unfold adjust; intros H. destruct (Z.ltb_spec i 0); lia. Qed.

Lemma slice_inside {A} (s : list A) i j :
  0 <= i <= len s -> 0 <= j <= len s ->
  slice s i j = firstn (Z.to_nat (j - i)) (skipn (Z.to_nat i) s).
Proof.
  intros Hi Hj. unfold slice. rewrite !adjust_inside by assumption. reflexivity.
Qed.

Lemma slice_len_le {A} (s : list A) i j :
  0 <= i <= len s -> 0 <= j -> len (slice s i j) <= Z.max 0 (j - i).
Proof.
  intros Hi Hj. unfold slice. rewrite (adjust_inside _ i) by assumption.
  unfold len at 1. rewrite length_firstn.
  assert (adjust (len s) j <= j).
  { unfold adjust. destruct (Z.ltb_spec j 0); lia. }
  lia.
Qed.

(** One-character needles: a match is the character at that index. *)
Lemma match_at_char c s i :
  match_at [c] s i = true <-> nth_error s i = Some c.
Proof.
  unfold match_at. revert i; induction s as [|y s IH]; intros [|i]; simpl.
  - split; discriminate.
  - split; discriminate.
  - rewrite andb_true_r, N.eqb_eq. split; congruence.
  - apply IH.
Qed.

(** The backward scan finds the last match among its candidates. *)
Lemma rfind_down_spec sub s lo n :
  let r := rfind_down sub s lo n in
  (r = -1 /\ forall i, (lo <= i < lo + n)%nat -> match_at sub s i = false)
  \/ (exists k, r = Z.of_nat k /\ (lo <= k < lo + n)%nat
                /\ match_at sub s k = true
                /\ forall i, (k < i < lo + n)%nat -> match_at sub s i = false).
Proof.
  induction n as [|n IH]; simpl.
  - left; split; [reflexivity|intros; lia].
  - destruct (match_at sub s (lo + n)) eqn:E.
    + right. exists (lo + n)%nat. repeat split; try lia. exact E.
    + destruct IH as [[Hr Hno]|(k & Hr & Hk & Hm & Hno)].
      * left; split; [exact Hr|]. intros i Hi.
        destruct (Nat.eq_dec i (lo + n)) as [->|]; [exact E|apply Hno; lia].
      * right. exists k. repeat split; try lia; try assumption.
        intros i Hi.
        destruct (Nat.eq_dec i (lo + n)) as [->|]; [exact E|apply Hno; lia].
Qed.

(** The forward scan finds the first match among its candidates. *)
Lemma find_up_spec sub s : forall n lo,
  let r := find_up sub s lo n in
  (r = -1 /\ forall i, (lo <= i < lo + n)%nat -> match_at sub s i = false)
  \/ (exists k, r = Z.of_nat k /\ (lo <= k < lo + n)%nat
                /\ match_at sub s k = true
                /\ forall i, (lo <= i < k)%nat -> match_at sub s i = false).
Proof.
  induction n as [|n IH]; intros lo; simpl.
  - left; split; [reflexivity|intros; lia].
  - destruct (match_at sub s lo) eqn:E.
    + right. exists lo. repeat split; try lia. exact E.
    + destruct (IH (S lo)) as [[Hr Hno]|(k & Hr & Hk & Hm & Hno)].
      * left; split; [exact Hr|]. intros i Hi.
        destruct (Nat.eq_dec i lo) as [->|]; [exact E|apply Hno; lia].
      * right. exists k. repeat split; try lia; try assumption.
        intros i Hi.
        destruct (Nat.eq_dec i lo) as [->|]; [exact E|apply Hno; lia].
Qed.

(** [rfind] of one character in a window [start, end_) inside the string. *)
Lemma rfind_in_char c text start end_ :
  0 <= start -> start <= end_ -> end_ <= len text ->
  let r := rfind_in [c] text start end_ in
  (r = -1 /\ forall i, start <= i < end_ -> nth_error text (Z.to_nat i) <> Some c)
  \/ (start <= r < end_ /\ nth_error text (Z.to_nat r) = Some c
      /\ forall i, r < i < end_ -> nth_error text (Z.to_nat i) <> Some c).
Proof.
  intros Hs Hse He. unfold rfind_in.
  assert (Hlo : adjust_start (len text) start = start).
  { unfold adjust_start. destruct (Z.ltb_spec start 0); lia. }
  assert (Hhi : adjust_end (len text) end_ = end_).
  { unfold adjust_end. destruct (Z.ltb_spec (len text) end_); [lia|].
    destruct (Z.ltb_spec end_ 0); lia. }
  rewrite Hlo, Hhi. unfold candidates. change (len [c]) with 1.
  pose proof (rfind_down_spec [c] text (Z.to_nat start)
                (Z.to_nat (end_ - start - 1 + 1))) as H.
  cbv zeta in H |- *.
  destruct H as [[Hr Hno]|(k & Hr & Hk & Hm & Hno)].
  - left; split; [exact Hr|]. intros i Hi Hc.
    apply match_at_char in Hc. rewrite Hno in Hc; [discriminate|lia].
  - right. rewrite Hr. rewrite Nat2Z.id. repeat split; try lia.
    + apply match_at_char; exact Hm.
    + intros i Hi Hc. apply match_at_char in Hc.
      rewrite Hno in Hc; [discriminate|lia].
Qed.

End StringFacts.

(** The facts [rfind_in_char] gives for one character in one window. *)
Ltac rfind_facts text start end_ c H :=
  let Hs := fresh in let Hse := fresh in let He := fresh in
  assert (Hs : 0 <= start) by lia;
  assert (Hse : start <= end_) by lia;
  assert (He : end_ <= len text) by lia;
  pose proof (rfind_in_char c text start end_ Hs Hse He) as H;
  cbv zeta in H; clear Hs Hse He.

(** * The chunker *)

Section ChunkerFacts.

Lemma chunk_loop_step fuel text chunk_size overlap start chunks :
  chunk_loop (S fuel) text chunk_size overlap start chunks =
  if start <? len text then
    chunk_loop fuel text chunk_size overlap
      (next_start text chunk_size overlap start)
      (chunks ++ [chunk_at text chunk_size start])
  else Some chunks.
Proof. reflexivity. Qed.

Lemma window_end_case text chunk_size start :
  0 <= start -> 0 <= chunk_size ->
  window_case text chunk_size start (window_end text chunk_size start).
Proof.
  intros Hs Hc. unfold window_end.
  destruct (Z.ltb_spec (start + chunk_size) (len text)) as [Hlt|Hge];
    [|apply AtTextEnd; lia].
  change DOT with [46%N]; change QMARK with [63%N];
    change BANG with [33%N]; change SPACE with [SP].
  rfind_facts text start (start + chunk_size) 46%N H1.
  rfind_facts text start (start + chunk_size) 63%N H2.
  rfind_facts text start (start + chunk_size) 33%N H3.
  rfind_facts text start (start + chunk_size) SP H4.
  assert (Hmid : 0 <= chunk_size / 2) by (apply Z.div_pos; lia).
  destruct (negb _ && (_ <? _)) eqn:E.
  - apply andb_true_iff in E as [_ E]. apply Z.ltb_lt in E.
    destruct (Z.max_spec
                (Z.max (rfind_in [46%N] text start (start + chunk_size))
                       (rfind_in [63%N] text start (start + chunk_size)))
                (rfind_in [33%N] text start (start + chunk_size)))
      as [[_ M]|[_ M]]; rewrite M in *; clear M.
    + destruct H3 as [[H3 _]|(H3 & H3' & _)]; [lia|].
      eapply AtTerminator; eauto; [lia|right; right; reflexivity].
    + destruct (Z.max_spec (rfind_in [46%N] text start (start + chunk_size))
                           (rfind_in [63%N] text start (start + chunk_size)))
        as [[_ M]|[_ M]]; rewrite M in *; clear M.
      * destruct H2 as [[H2 _]|(H2 & H2' & _)]; [lia|].
        eapply AtTerminator; eauto; [lia|right; left; reflexivity].
      * destruct H1 as [[H1 _]|(H1 & H1' & _)]; [lia|].
        eapply AtTerminator; eauto; [lia|left; reflexivity].
  - destruct (rfind_in [SP] text start (start + chunk_size) =? -1) eqn:F; simpl.
    + apply HardCut; [lia|]. unfold search_found_nothing.
      change DOT with [46%N]; change QMARK with [63%N];
        change BANG with [33%N]; change SPACE with [SP].
      rewrite E, F. apply Z.ltb_lt in Hlt. rewrite Hlt. reflexivity.
    + apply Z.eqb_neq in F.
      destruct H4 as [[H4 _]|(H4 & H4' & _)]; [contradiction|].
      eapply AtSpace; eauto.
Qed.

(** Every window is non-empty when [chunk_size] is positive, and never wider
    than [chunk_size]. *)
Lemma window_end_bounds text chunk_size start :
  0 <= start -> 0 <= chunk_size ->
  start <= window_end text chunk_size start <= start + chunk_size
  /\ (0 < chunk_size -> start < window_end text chunk_size start).
Proof.
  intros Hs Hc.
  assert (Hmid : 0 <= chunk_size / 2) by (apply Z.div_pos; lia).
  destruct (window_end_case text chunk_size start Hs Hc); lia.
Qed.

Lemma next_start_nonneg text chunk_size overlap start :
  0 <= next_start text chunk_size overlap start.
Proof.
  unfold next_start.
  destruct (Z.ltb_spec (window_end text chunk_size start - overlap) 0); lia.
Qed.

(** A chunk cut at a position inside the text is no longer than
    [chunk_size] and is trimmed. *)
Lemma chunk_at_len text chunk_size start :
  0 <= start < len text -> 0 <= chunk_size ->
  len (chunk_at text chunk_size start) <= chunk_size.
Proof.
  intros Hs Hc. unfold chunk_at.
  destruct (window_end_bounds text chunk_size start) as [B _]; [lia|lia|].
  pose proof (strip_len (slice text start (window_end text chunk_size start))).
  pose proof (slice_len_le text start (window_end text chunk_size start)).
  lia.
Qed.

(** An invariant of the loop: a property that holds of the chunk cut at every
    position inside the text holds of every chunk the loop returns. *)
Lemma chunk_loop_Forall (P : str -> Prop) text chunk_size overlap :
  (forall start, 0 <= start < len text -> P (chunk_at text chunk_size start)) ->
  forall fuel start chunks result,
    0 <= start -> Forall P chunks ->
    chunk_loop fuel text chunk_size overlap start chunks = Some result ->
    Forall P result.
Proof.
  intros HP. induction fuel as [|fuel IH]; intros start chunks result Hs Hacc.
  - simpl. destruct (Z.ltb_spec start (len text)) as [Hlt|Hge]; [discriminate|].
    intros E; injection E as <-; exact Hacc.
  - rewrite chunk_loop_step.
    destruct (Z.ltb_spec start (len text)) as [Hlt|Hge].
    + apply IH; [apply next_start_nonneg|].
      apply Forall_app; split; [exact Hacc|].
      constructor; [apply HP; lia|constructor].
    + intros E; injection E as <-; exact Hacc.
Qed.

Lemma chunk_text_Forall (P : str -> Prop) fuel text chunk_size overlap chunks :
  (len (normalize text) <= chunk_size -> P (normalize text)) ->
  (forall start, 0 <= start < len (normalize text) ->
                 P (chunk_at (normalize text) chunk_size start)) ->
  chunk_text fuel text chunk_size overlap = Some chunks ->
  Forall P chunks.
Proof.
  intros Hshort Hloop. unfold chunk_text.
  destruct (Z.leb_spec (len (normalize text)) chunk_size) as [Hle|Hgt].
  - intros E; injection E as <-. constructor; [auto|constructor].
  - apply chunk_loop_Forall; [assumption|lia|constructor].
Qed.

End ChunkerFacts.

(** * Whitespace normalisation *)

Section NormalizeFacts.

Lemma collapse_true_lstrip s : lstrip (collapse true s) = collapse true s.
Proof.
  induction s as [|c t IH]; simpl; [reflexivity|].
  destruct (is_space c) eqn:E; [exact IH|].
  simpl; rewrite E; reflexivity.
Qed.

Lemma lstrip_collapse s : lstrip (collapse false s) = collapse true s.
Proof.
  destruct s as [|c t]; simpl; [reflexivity|].
  destruct (is_space c) eqn:E; simpl.
  - apply collapse_true_lstrip.
  - rewrite E; reflexivity.
Qed.

Lemma words_nonempty s : Forall (fun w => w <> []) (words s).
Proof.
  induction s as [|c t IH]; simpl; [constructor|].
  destruct (is_space c); [exact IH|].
  destruct t as [|d t']; [repeat constructor; discriminate|].
  destruct (is_space d); [constructor; [discriminate|exact IH]|].
  destruct (words (d :: t')) as [|w ws]; [repeat constructor; discriminate|].
  inversion IH; subst. constructor; [discriminate|assumption].
Qed.

Lemma join_is_nil ws :
  Forall (fun w : str => w <> []) ws -> is_nil (join [SP] ws) = is_nil ws.
Proof.
  intros H. destruct H as [|w ws Hw _]; [reflexivity|].
  destruct w; [contradiction|]. destruct ws; reflexivity.
Qed.

Lemma join_cons w ws :
  join [SP] (w :: ws) = w ++ (if is_nil ws then [] else SP :: join [SP] ws).
Proof. destruct ws; simpl; [symmetry; apply app_nil_r|reflexivity]. Qed.

Lemma words_head_clean d t : is_space d = false -> words (d :: t) <> [].
Proof.
  intros E. simpl. rewrite E. destruct t as [|e t']; [discriminate|].
  destruct (is_space e); [discriminate|].
  destruct (words (e :: t')); discriminate.
Qed.

(** [rstrip] after either mode of [collapse], in terms of the words. *)
Lemma rstrip_collapse_words s :
  rstrip (collapse true s) = words_joined s
  /\ rstrip (collapse false s) =
     match s with
     | [] => []
     | d :: _ =>
         if is_space d
         then (if is_nil (words s) then [] else SP :: words_joined s)
         else words_joined s
     end.
Proof.
  unfold words_joined.
  induction s as [|c t [IH1 IH2]]; [split; reflexivity|].
  assert (First : rstrip (collapse true (c :: t)) = join [SP] (words (c :: t))).
  { simpl. destruct (is_space c) eqn:E; [exact IH1|].
    simpl. rewrite E. simpl. rewrite IH2.
    destruct t as [|d t']; [reflexivity|].
    destruct (is_space d) eqn:F.
    - rewrite join_cons. reflexivity.
    - pose proof (words_head_clean d t' F) as Hne.
      destruct (words (d :: t')) as [|w ws]; [contradiction|].
      rewrite !join_cons. reflexivity. }
  split; [exact First|].
  destruct (is_space c) eqn:E.
  - simpl. rewrite E. simpl. rewrite IH1.
    change (is_space SP) with true. simpl.
    rewrite join_is_nil by apply words_nonempty.
    destruct (is_nil (words t)); reflexivity.
  - rewrite <- First. simpl. rewrite E. reflexivity.
Qed.

(** The code's normalisation is the spec's. *)
Lemma normalize_words_joined text : normalize text = words_joined text.
Proof.
  unfold normalize, strip, re_sub_ws. rewrite lstrip_collapse.
  apply rstrip_collapse_words.
Qed.

(** After normalisation the only whitespace left is the space. *)
Lemma collapse_spaces b s x :
  In x (collapse b s) -> is_space x = true -> x = SP.
Proof.
  revert b; induction s as [|c t IH]; intros b; simpl; [contradiction|].
  destruct (is_space c) eqn:E.
  - destruct b; simpl.
    + apply IH.
    + intros [<-|H]; [reflexivity|]. eapply IH; eauto.
  - simpl. intros [<-|H] Hx; [congruence|]. eapply IH; eauto.
Qed.

Lemma lstrip_In s x : In x (lstrip s) -> In x s.
Proof.
  induction s as [|c t IH]; simpl; [tauto|].
  destruct (is_space c); simpl; tauto.
Qed.

Lemma rstrip_In s x : In x (rstrip s) -> In x s.
Proof.
  induction s as [|c t IH]; simpl; [tauto|].
  destruct (is_space c && is_nil (rstrip t)); simpl; tauto.
Qed.

Lemma normalize_spaces text x :
  In x (normalize text) -> is_space x = true -> x = SP.
Proof.
  unfold normalize, strip, re_sub_ws. intros H.
  apply rstrip_In, lstrip_In in H. eapply collapse_spaces; eauto.
Qed.

Lemma words_clean_then_space w c rest :
  clean w -> w <> [] -> is_space c = true ->
  words (w ++ c :: rest) = w :: words rest.
Proof.
  intros Hw Hne Hc. induction Hw as [|x w Hx Hw IH]; [contradiction|].
  cbn [app words]. rewrite Hx. destruct w as [|y w'].
  - cbn [app]. rewrite Hc. cbn [words]. rewrite Hc. reflexivity.
  - cbn [app]. inversion Hw as [|y' w'' Hy _]; subst. rewrite Hy.
    change (y :: w' ++ c :: rest) with ((y :: w') ++ c :: rest).
    rewrite IH by discriminate. reflexivity.
Qed.

Lemma words_skip_space c rest : is_space c = true -> words (c :: rest) = words rest.
Proof. intros H. cbn [words]. rewrite H. reflexivity. Qed.

(** The words of a text hold no whitespace. *)
Lemma words_clean s : Forall clean (words s).
Proof.
  induction s as [|c t IH]; cbn [words]; [constructor|].
  destruct (is_space c) eqn:Hc; [exact IH|].
  destruct t as [|d t']; [repeat constructor; exact Hc|].
  destruct (is_space d) eqn:Hd.
  - constructor; [repeat constructor; exact Hc|exact IH].
  - destruct (words (d :: t')) as [|w ws]; [repeat constructor; exact Hc|].
    inversion IH; subst. constructor; [constructor; assumption|assumption].
Qed.

(** A run without whitespace is one word. *)
Lemma words_single w : clean w -> w <> [] -> words w = [w].
Proof.
  intros Hw Hne. induction Hw as [|c w Hc Hw IH]; [contradiction|].
  cbn [words]. rewrite Hc. destruct w as [|d w']; [reflexivity|].
  inversion Hw as [|? ? Hd _]; subst. rewrite Hd.
  rewrite IH by discriminate. reflexivity.
Qed.

(** Joining words by single spaces and reading the words again gives the
    same words. *)
Lemma words_join ws :
  Forall clean ws -> Forall (fun w => w <> []) ws -> words (join [SP] ws) = ws.
Proof.
  intros Hclean Hne. induction Hclean as [|w ws Hw Hws IH]; [reflexivity|].
  inversion Hne as [|? ? Hw0 Hrest]; subst.
  destruct ws as [|w' ws'].
  - cbn [join]. apply words_single; assumption.
  - change (join [SP] (w :: w' :: ws')) with (w ++ SP :: join [SP] (w' :: ws')).
    rewrite words_clean_then_space by (assumption || reflexivity).
    rewrite IH by assumption. reflexivity.
Qed.

(** The normalised text has the words of the text, and normalising it again
    changes nothing. *)
Lemma words_normalize text : words (normalize text) = words text.
Proof.
  rewrite normalize_words_joined. unfold words_joined.
  apply words_join; [apply words_clean|apply words_nonempty].
Qed.

Lemma normalize_idempotent text : normalize (normalize text) = normalize text.
Proof.
  rewrite (normalize_words_joined (normalize text)). unfold words_joined.
  rewrite words_normalize. symmetry. apply normalize_words_joined.
Qed.

End NormalizeFacts.

(** * Claims about the chunker *)

Section ChunkerClaims.

Lemma In_removelast {A} (l : list A) x : In x (removelast l) -> In x l.
Proof.
  induction l as [|a l IH]; simpl; [tauto|].
  destruct l; simpl in *; tauto.
Qed.

Lemma normalize_trimmed text : trimmed (normalize text).
Proof. apply strip_trimmed. Qed.

(** Every returned chunk is at most [chunk_size] long and trimmed. *)
Lemma chunk_text_chunks fuel text chunk_size overlap chunks :
  0 <= chunk_size ->
  chunk_text fuel text chunk_size overlap = Some chunks ->
  Forall (fun c => len c <= chunk_size /\ trimmed c) chunks.
Proof.
  intros Hc. apply chunk_text_Forall.
  - intros Hle; split; [exact Hle|apply normalize_trimmed].
  - intros start Hs; split; [apply chunk_at_len; assumption|].
    apply strip_trimmed.
Qed.

(** Once [start] maps to itself and lies inside the text, the loop never
    leaves it: no amount of fuel gives a result. *)
Lemma chunk_loop_stuck text chunk_size overlap start :
  start < len text ->
  next_start text chunk_size overlap start = start ->
  forall fuel chunks,
    chunk_loop fuel text chunk_size overlap start chunks = None.
Proof.
  intros Hlt Hfix. apply Z.ltb_lt in Hlt.
  induction fuel as [|fuel IH]; intros chunks.
  - simpl. rewrite Hlt. reflexivity.
  - rewrite chunk_loop_step, Hlt, Hfix. apply IH.
Qed.

(** With [overlap >= chunk_size] the second window starts where the first
    did: a text longer than [chunk_size] is never chunked. *)
Lemma wide_overlap_stalls text chunk_size overlap :
  0 <= chunk_size <= overlap -> chunk_size < len text ->
  forall fuel chunks, chunk_loop fuel text chunk_size overlap 0 chunks = None.
Proof.
  intros Ho Hlong. apply chunk_loop_stuck; [lia|].
  unfold next_start.
  destruct (window_end_bounds text chunk_size 0) as [B _]; [lia|lia|].
  destruct (Z.ltb_spec (window_end text chunk_size 0 - overlap) 0); lia.
Qed.

(** C2 (fails on the code). With [chunk_size = 5] and [overlap = 2], which
    satisfy [chunk_size > 0] and [0 <= overlap < chunk_size], the text
    "a bbbbbbbbbbbbbb" makes the loop stall: the first window is cut after the
    space at index 1, so [end = 2 > start = 0], but the next [start] is
    [2 - 2 = 0] again, and [chunk_text] returns for no amount of fuel.
    ([end > start] does hold on every iteration, as the claim says.) *)
Theorem chunk_text_stalls_after_early_space :
  (forall text chunk_size start,
      0 <= start -> 0 < chunk_size -> start < window_end text chunk_size start)
  /\ normalize (of_string "a bbbbbbbbbbbbbb") = of_string "a bbbbbbbbbbbbbb"
  /\ 0 < 5 /\ 0 <= 2 < 5
  /\ window_end (of_string "a bbbbbbbbbbbbbb") 5 0 = 2
  /\ next_start (of_string "a bbbbbbbbbbbbbb") 5 2 0 = 0
  /\ forall fuel, chunk_text fuel (of_string "a bbbbbbbbbbbbbb") 5 2 = None.
Proof.
  assert (N : normalize (of_string "a bbbbbbbbbbbbbb") = of_string "a bbbbbbbbbbbbbb")
    by (vm_compute; reflexivity).
  assert (S : next_start (of_string "a bbbbbbbbbbbbbb") 5 2 0 = 0)
    by (vm_compute; reflexivity).
  split.
  { intros text chunk_size start Hs Hc.
    apply (window_end_bounds text chunk_size start); lia. }
  split; [exact N|]. split; [lia|]. split; [lia|].
  split; [vm_compute; reflexivity|]. split; [exact S|].
  intros fuel. unfold chunk_text. rewrite N.
  replace (len (of_string "a bbbbbbbbbbbbbb") <=? 5) with false
    by (vm_compute; reflexivity).
  apply chunk_loop_stuck; [vm_compute; reflexivity|exact S].
Qed.

(** C4, as amended. For every text, every overlap and every [chunk_size >= 0],
    every chunk but the last of the returned list is at most [chunk_size]
    characters long. *)
Theorem non_final_chunks_within_chunk_size fuel text chunk_size overlap chunks c :
  0 <= chunk_size ->
  chunk_text fuel text chunk_size overlap = Some chunks ->
  In c (removelast chunks) ->
  len c <= chunk_size.
Proof.
  intros Hc Hrun Hin.
  pose proof (chunk_text_chunks _ _ _ _ _ Hc Hrun) as Hall.
  rewrite Forall_forall in Hall.
  apply Hall, In_removelast, Hin.
Qed.

Lemma non_final_chunks_within_chunk_size_witness :
  len (of_string "ld. This is") <= 12.
Proof.
  apply (non_final_chunks_within_chunk_size 20
           (of_string "  Hello   world. This is  a test! Another sentence here?  ")
           12 3
           [of_string "Hello world."; of_string "ld. This is";
            of_string "is a test!"; of_string "st! Another";
            of_string "er sentence"; of_string "ce here?"]).
  - lia.
  - vm_compute; reflexivity.
  - simpl; right; left; reflexivity.
Defined.

(** C4 as stated fails for a negative [chunk_size]: on "abcdef" with
    [chunk_size = -1] and [overlap = -3] the first window is [text[0:-1]], and
    the returned list is "abcde", "", "", whose first chunk, not the last one,
    is five characters long. *)
Lemma negative_chunk_size_lets_a_chunk_exceed_it :
  chunk_text 50 (of_string "abcdef") (-1) (-3)
  = Some [of_string "abcde"; []; []]
  /\ In (of_string "abcde") (removelast [of_string "abcde"; []; []])
  /\ -1 < len (of_string "abcde").
Proof.
  split; [vm_compute; reflexivity|].
  split; [left; reflexivity|reflexivity].
Qed.

(** C5. [chunk_text] first normalises the whitespace of its input, whatever
    its length: the normalised text is the words of the input joined by
    single spaces; the result is that of chunking the normalised text, so two
    texts with the same words, however spaced, give the same result; and an
    input whose normalised text is at most [chunk_size] long comes back as
    that text alone. *)
Theorem short_text_is_one_normalized_chunk fuel text chunk_size overlap :
  normalize text = words_joined text
  /\ chunk_text fuel text chunk_size overlap
     = chunk_text fuel (normalize text) chunk_size overlap
  /\ (forall other,
        words other = words text ->
        chunk_text fuel other chunk_size overlap
        = chunk_text fuel text chunk_size overlap)
  /\ (len (normalize text) <= chunk_size ->
      chunk_text fuel text chunk_size overlap = Some [normalize text]).
Proof.
  split; [apply normalize_words_joined|]. split; [|split].
  - unfold chunk_text. rewrite normalize_idempotent. reflexivity.
  - intros other Hwords. unfold chunk_text.
    rewrite (normalize_words_joined other), (normalize_words_joined text).
    unfold words_joined. rewrite Hwords. reflexivity.
  - intros Hle. unfold chunk_text. apply Z.leb_le in Hle. rewrite Hle.
    reflexivity.
Qed.

Lemma short_text_is_one_normalized_chunk_witness :
  normalize (of_string "  two   words ") = of_string "two words"
  /\ chunk_text 0 (of_string "  two   words ") 9 200 = Some [of_string "two words"]
  /\ chunk_text 20 (of_string "a    b    c    d    e") 3 0
     = chunk_text 20 (of_string "a b c d e") 3 0
  /\ chunk_text 20 (of_string "a b c d e") 3 0
     = Some [of_string "a"; of_string "b"; of_string "c"; of_string "d e"].
Proof.
  destruct (short_text_is_one_normalized_chunk 0 (of_string "  two   words ")
              9 200) as (Hnorm & _ & _ & Hshort).
  destruct (short_text_is_one_normalized_chunk 20 (of_string "a b c d e") 3 0)
    as (_ & _ & Hsame & _).
  split; [exact Hnorm|].
  split; [apply Hshort; vm_compute; discriminate|].
  split; [apply Hsame; vm_compute; reflexivity|vm_compute; reflexivity].
Defined.

(** C10, as amended. Every returned chunk, the last one included, has no
    whitespace at either end, whatever the parameters; and for every
    [chunk_size >= 0] it is at most [chunk_size] characters long. *)
Theorem every_chunk_within_chunk_size_and_trimmed
    fuel text chunk_size overlap chunks c :
  chunk_text fuel text chunk_size overlap = Some chunks ->
  In c chunks ->
  trimmed c /\ (0 <= chunk_size -> len c <= chunk_size).
Proof.
  intros Hrun Hin. split.
  - pose proof (chunk_text_Forall trimmed _ _ _ _ _
                  (fun _ => normalize_trimmed text)
                  (fun start _ => strip_trimmed _) Hrun) as Hall.
    rewrite Forall_forall in Hall. apply Hall, Hin.
  - intros Hc. pose proof (chunk_text_chunks _ _ _ _ _ Hc Hrun) as Hall.
    rewrite Forall_forall in Hall. apply Hall, Hin.
Qed.

Lemma every_chunk_within_chunk_size_and_trimmed_witness :
  trimmed (of_string "ce here?") /\ len (of_string "ce here?") <= 12.
Proof.
  destruct (every_chunk_within_chunk_size_and_trimmed 20
              (of_string "  Hello   world. This is  a test! Another sentence here?  ")
              12 3
              [of_string "Hello world."; of_string "ld. This is";
               of_string "is a test!"; of_string "st! Another";
               of_string "er sentence"; of_string "ce here?"]
              (of_string "ce here?")) as [Htrimmed Hlen].
  - vm_compute; reflexivity.
  - simpl; do 5 right; left; reflexivity.
  - split; [exact Htrimmed|apply Hlen; lia].
Defined.

(** C10 as stated fails for a negative [chunk_size]: on "hello world" with
    [chunk_size = -2] and [overlap = -5] the only window, [text[0:-2]], is cut
    after its space, and the one chunk returned, "hello", is five characters
    long. *)
Lemma negative_chunk_size_breaks_the_bound_on_every_chunk :
  chunk_text 50 (of_string "hello world") (-2) (-5) = Some [of_string "hello"]
  /\ In (of_string "hello") [of_string "hello"]
  /\ -2 < len (of_string "hello").
Proof.
  split; [vm_compute; reflexivity|].
  split; [left; reflexivity|reflexivity].
Qed.

End ChunkerClaims.

(** * Overlap between consecutive chunks *)

Section OverlapFacts.

Lemma In_window {A} (T : list A) a n x :
  In x (firstn n (skipn a T)) ->
  exists i, (a <= i < a + n)%nat /\ nth_error T i = Some x.
Proof.
  intros H. apply In_nth_error in H as [j Hj].
  rewrite nth_error_firstn in Hj. destruct (Nat.ltb_spec j n); [|discriminate].
  rewrite nth_error_skipn in Hj. exists (a + j)%nat. split; [lia|exact Hj].
Qed.

Lemma strip_clean a : clean a -> strip a = a.
Proof.
  intros H. unfold strip. destruct H as [|x a Hx Ha]; [reflexivity|].
  rewrite lstrip_clean_head by assumption.
  apply rstrip_clean. constructor; assumption.
Qed.

Lemma strip_clean_prefix a b :
  a <> [] -> clean a -> strip (a ++ b) = a ++ rstrip b.
Proof.
  intros Hne H. unfold strip. destruct H as [|x a Hx Ha]; [contradiction|].
  change ((x :: a) ++ b) with (x :: (a ++ b)).
  rewrite lstrip_clean_head by assumption.
  change (x :: (a ++ b)) with ((x :: a) ++ b).
  apply rstrip_app_clean. constructor; assumption.
Qed.

(** What the search having found nothing says about the window. *)
Lemma search_found_nothing_facts text chunk_size start :
  0 <= start -> 0 <= chunk_size ->
  search_found_nothing text chunk_size start = true ->
  start + chunk_size < len text
  /\ window_end text chunk_size start = start + chunk_size
  /\ (forall i, start <= i < start + chunk_size ->
                nth_error text (Z.to_nat i) <> Some SP)
  /\ (forall i c, start + chunk_size / 2 < i < start + chunk_size ->
                  nth_error text (Z.to_nat i) = Some c -> ~ is_terminator c).
Proof.
  intros Hs Hc H. unfold search_found_nothing in H.
  apply andb_true_iff in H as [H Hsp]. apply andb_true_iff in H as [Hlt Hper].
  apply negb_true_iff in Hper. apply Z.eqb_eq in Hsp.
  assert (Hlt' : start + chunk_size < len text) by (apply Z.ltb_lt; exact Hlt).
  split; [exact Hlt'|]. split.
  { unfold window_end. rewrite Hlt, Hper, Hsp. reflexivity. }
  revert Hper Hsp.
  change DOT with [46%N]; change QMARK with [63%N];
    change BANG with [33%N]; change SPACE with [SP].
  intros Hper Hsp.
  rfind_facts text start (start + chunk_size) 46%N H1.
  rfind_facts text start (start + chunk_size) 63%N H2.
  rfind_facts text start (start + chunk_size) 33%N H3.
  rfind_facts text start (start + chunk_size) SP H4.
  split.
  - destruct H4 as [[_ H4]|(H4 & _)]; [exact H4|lia].
  - intros i c Hi Hc' Hterm.
    apply andb_false_iff in Hper.
    assert (Hmax : Z.max (Z.max (rfind_in [46%N] text start (start + chunk_size))
                                (rfind_in [63%N] text start (start + chunk_size)))
                         (rfind_in [33%N] text start (start + chunk_size))
                   = -1
                   \/ Z.max (Z.max (rfind_in [46%N] text start (start + chunk_size))
                                   (rfind_in [63%N] text start (start + chunk_size)))
                            (rfind_in [33%N] text start (start + chunk_size))
                      <= start + chunk_size / 2).
    { destruct Hper as [Hper|Hper].
      - left. apply negb_false_iff in Hper. apply Z.eqb_eq in Hper. exact Hper.
      - right. apply Z.ltb_ge in Hper. exact Hper. }
    assert (Hmid : 0 <= chunk_size / 2) by (apply Z.div_pos; lia).
    destruct Hterm as [-> | [-> | ->]].
    + destruct H1 as [[_ H1]|(H1 & _ & H1')];
        [apply (H1 i); [lia|exact Hc']|apply (H1' i); [lia|exact Hc']].
    + destruct H2 as [[_ H2]|(H2 & _ & H2')];
        [apply (H2 i); [lia|exact Hc']|apply (H2' i); [lia|exact Hc']].
    + destruct H3 as [[_ H3]|(H3 & _ & H3')];
        [apply (H3 i); [lia|exact Hc']|apply (H3' i); [lia|exact Hc']].
Qed.

Lemma firstn_split {A} (l : list A) n m :
  (n <= m)%nat -> firstn m l = firstn n l ++ firstn (m - n) (skipn n l).
Proof.
  revert l m; induction n as [|n IH]; intros l m H; simpl.
  - rewrite Nat.sub_0_r. reflexivity.
  - destruct m as [|m]; [lia|]. destruct l as [|x l]; simpl.
    + rewrite firstn_nil. reflexivity.
    + rewrite (IH l m) by lia. reflexivity.
Qed.

Lemma lastn_zero {A} (l : list A) : lastn 0 l = [].
Proof. unfold lastn. apply skipn_all2. lia. Qed.

(** The characters of a window that holds no space are not whitespace, in a
    text whose only whitespace is the space. *)
Lemma window_clean text (a n : nat) :
  (forall x, In x text -> is_space x = true -> x = SP) ->
  (forall i, (a <= i < a + n)%nat -> nth_error text i <> Some SP) ->
  clean (firstn n (skipn a text)).
Proof.
  intros Hws Hno. apply Forall_forall. intros x Hx.
  destruct (In_window _ _ _ _ Hx) as (i & Hi & Hnth).
  destruct (is_space x) eqn:E; [|reflexivity].
  exfalso. apply (Hno i Hi). rewrite Hnth. f_equal.
  apply Hws; [eapply nth_error_In; eauto|exact E].
Qed.

(** The next window after a hard cut reaches at least to the cut. *)
Lemma window_after_hard_cut text chunk_size overlap start :
  0 <= start -> 0 <= overlap <= chunk_size ->
  search_found_nothing text chunk_size start = true ->
  start + chunk_size <=
  window_end text chunk_size (start + chunk_size - overlap).
Proof.
  intros Hs Ho Hnothing.
  destruct (search_found_nothing_facts text chunk_size start)
    as (Hlt & _ & Hnosp & Hnoterm); [lia|lia|assumption|].
  assert (Hmid : 0 <= chunk_size / 2) by (apply Z.div_pos; lia).
  destruct (window_end_case text chunk_size (start + chunk_size - overlap))
    as [Hend|p c _ Hp Hnth Hterm|q _ Hq Hnth|_ _]; try lia.
  - destruct (Z_lt_le_dec p (start + chunk_size)) as [Hin|]; [|lia].
    exfalso. apply (Hnoterm p c); [lia|exact Hnth|exact Hterm].
  - destruct (Z_lt_le_dec q (start + chunk_size)) as [Hin|]; [|lia].
    exfalso. apply (Hnosp q); [lia|exact Hnth].
Qed.

(** After a hard cut, the chunk's last [overlap] characters open the next
    chunk. *)
Lemma hard_cut_overlap text chunk_size overlap start :
  (forall x, In x text -> is_space x = true -> x = SP) ->
  0 <= start -> 0 <= overlap <= chunk_size ->
  search_found_nothing text chunk_size start = true ->
  lastn (Z.to_nat overlap) (chunk_at text chunk_size start) =
  firstn (Z.to_nat overlap)
         (chunk_at text chunk_size (next_start text chunk_size overlap start)).
Proof.
  intros Hws Hs Ho Hnothing.
  destruct (Z.eq_dec overlap 0) as [->|Hpos].
  { change (Z.to_nat 0) with 0%nat. rewrite lastn_zero. reflexivity. }
  pose proof (window_after_hard_cut text chunk_size overlap start Hs Ho Hnothing)
    as Hreach.
  destruct (search_found_nothing_facts text chunk_size start)
    as (Hlt & Hend & Hnosp & _); [lia|lia|assumption|].
  assert (Hnext : next_start text chunk_size overlap start
                  = start + chunk_size - overlap).
  { unfold next_start. rewrite Hend.
    destruct (Z.ltb_spec (start + chunk_size - overlap) 0); [lia|reflexivity]. }
  rewrite Hnext. unfold chunk_at at 1. rewrite Hend.
  pose proof (len_nonneg text) as Hlen.
  (* the earlier chunk is its window, untouched by strip *)
  rewrite slice_inside by lia.
  replace (Z.to_nat (start + chunk_size - start)) with (Z.to_nat chunk_size) by lia.
  assert (Hnosp' : forall i : nat,
            (Z.to_nat start <= i < Z.to_nat start + Z.to_nat chunk_size)%nat ->
            nth_error text i <> Some SP).
  { intros i Hi. rewrite <- (Nat2Z.id i). apply Hnosp. lia. }
  rewrite strip_clean by (apply window_clean; assumption).
  unfold lastn. rewrite length_firstn, length_skipn.
  unfold len in Hlt, Hlen.
  replace (Nat.min (Z.to_nat chunk_size) (length text - Z.to_nat start)
           - Z.to_nat overlap)%nat
    with (Z.to_nat chunk_size - Z.to_nat overlap)%nat by lia.
  rewrite skipn_firstn_comm, skipn_skipn.
  replace (Z.to_nat chunk_size - (Z.to_nat chunk_size - Z.to_nat overlap))%nat
    with (Z.to_nat overlap) by lia.
  replace (Z.to_nat chunk_size - Z.to_nat overlap + Z.to_nat start)%nat
    with (Z.to_nat (start + chunk_size - overlap)) by lia.
  (* the later chunk begins with the same characters *)
  unfold chunk_at, slice. fold (len text).
  rewrite (adjust_inside (len text) (start + chunk_size - overlap))
    by (unfold len; lia).
  set (hi := adjust (len text)
               (window_end text chunk_size (start + chunk_size - overlap))).
  assert (Hhi : start + chunk_size <= hi).
  { unfold hi, adjust, len.
    destruct (Z.ltb_spec
                (window_end text chunk_size (start + chunk_size - overlap)) 0);
      lia. }
  rewrite (firstn_split _ (Z.to_nat overlap)
             (Z.to_nat (hi - (start + chunk_size - overlap)))) by lia.
  assert (Hclean : clean (firstn (Z.to_nat overlap)
                            (skipn (Z.to_nat (start + chunk_size - overlap)) text))).
  { apply window_clean; [assumption|]. intros i Hi. apply Hnosp'. lia. }
  assert (Hsize : length (firstn (Z.to_nat overlap)
                     (skipn (Z.to_nat (start + chunk_size - overlap)) text))
                  = Z.to_nat overlap).
  { rewrite length_firstn, length_skipn. lia. }
  rewrite strip_clean_prefix; [|intros Hnil; rewrite Hnil in Hsize; simpl in Hsize; lia|exact Hclean].
  rewrite firstn_app, Hsize, Nat.sub_diag, firstn_O, app_nil_r.
  symmetry. apply firstn_all2. lia.
Qed.

(** The loop only appends to its list. *)
Lemma chunk_loop_extends text chunk_size overlap :
  forall fuel start chunks result,
    chunk_loop fuel text chunk_size overlap start chunks = Some result ->
    exists rest, result = chunks ++ rest.
Proof.
  induction fuel as [|fuel IH]; intros start chunks result.
  - simpl. destruct (start <? len text); [discriminate|].
    intros E; injection E as <-. exists []. symmetry; apply app_nil_r.
  - rewrite chunk_loop_step. destruct (start <? len text).
    + intros E. apply IH in E as [rest ->]. rewrite <- app_assoc. eauto.
    + intros E; injection E as <-. exists []. symmetry; apply app_nil_r.
Qed.

(** The chunk at position [k] past the ones already in the list is the one
    cut at the [k]-th iterate of [next_start]. *)
Lemma chunk_loop_nth text chunk_size overlap :
  forall fuel start chunks result,
    chunk_loop fuel text chunk_size overlap start chunks = Some result ->
    forall k c,
      nth_error result (length chunks + k) = Some c ->
      c = chunk_at text chunk_size
            (Nat.iter k (next_start text chunk_size overlap) start).
Proof.
  induction fuel as [|fuel IH]; intros start chunks result.
  - simpl. destruct (start <? len text); [discriminate|].
    intros E; injection E as <-. intros k c Hk.
    assert (nth_error chunks (length chunks + k) = None)
      by (apply nth_error_None; lia).
    congruence.
  - rewrite chunk_loop_step. destruct (start <? len text).
    + intros E k c Hk. destruct k as [|k].
      * destruct (chunk_loop_extends _ _ _ _ _ _ _ E) as [rest ->].
        rewrite <- app_assoc, Nat.add_0_r, nth_error_app2 in Hk by lia.
        rewrite Nat.sub_diag in Hk. simpl in Hk |- *. congruence.
      * rewrite Nat.iter_succ_r. apply (IH _ _ _ E).
        rewrite length_app. simpl.
        replace (length chunks + 1 + k)%nat with (length chunks + S k)%nat by lia.
        exact Hk.
    + intros E; injection E as <-. intros k c Hk.
      assert (nth_error chunks (length chunks + k) = None)
        by (apply nth_error_None; lia).
      congruence.
Qed.

Lemma start_at_nonneg text chunk_size overlap k :
  0 <= start_at text chunk_size overlap k.
Proof.
  unfold start_at. destruct k; simpl; [lia|apply next_start_nonneg].
Qed.

(** The [k]-th chunk of a text longer than [chunk_size] is the one cut at
    [start_at k]. *)
Lemma chunk_text_nth fuel text chunk_size overlap chunks k c :
  chunk_size < len (normalize text) ->
  chunk_text fuel text chunk_size overlap = Some chunks ->
  nth_error chunks k = Some c ->
  c = chunk_at (normalize text) chunk_size
        (start_at (normalize text) chunk_size overlap k).
Proof.
  intros Hlong. unfold chunk_text.
  destruct (Z.leb_spec (len (normalize text)) chunk_size); [lia|].
  intros Hrun Hk. unfold start_at.
  apply (chunk_loop_nth _ _ _ _ _ _ _ Hrun k c). exact Hk.
Qed.

End OverlapFacts.

(** * Overlap: the claim *)

Section OverlapClaim.

(** C3, as amended. When the boundary search of a window found nothing to cut
    at (the window ends inside the text, holds no space and no terminator past
    its midpoint), the last [overlap] characters of its chunk are the first
    [overlap] characters of the next chunk. *)
Theorem hard_cut_chunks_share_overlap
    fuel text chunk_size overlap chunks k c1 c2 :
  0 <= chunk_size ->
  chunk_text fuel text chunk_size overlap = Some chunks ->
  nth_error chunks k = Some c1 ->
  nth_error chunks (S k) = Some c2 ->
  search_found_nothing (normalize text) chunk_size
    (start_at (normalize text) chunk_size overlap k) = true ->
  lastn (Z.to_nat overlap) c1 = firstn (Z.to_nat overlap) c2.
Proof.
  intros Hc Hrun H1 H2 Hcut.
  assert (Hlong : chunk_size < len (normalize text)).
  { destruct (Z.leb_spec (len (normalize text)) chunk_size) as [Hle|]; [|lia].
    exfalso. unfold chunk_text in Hrun. apply Z.leb_le in Hle.
    rewrite Hle in Hrun. injection Hrun as <-.
    destruct k; discriminate. }
  destruct (Z_le_gt_dec overlap 0) as [Hneg|Hpos].
  { replace (Z.to_nat overlap) with 0%nat by lia.
    rewrite lastn_zero. reflexivity. }
  destruct (Z_le_gt_dec chunk_size overlap) as [Hwide|Hnarrow].
  { exfalso. unfold chunk_text in Hrun.
    destruct (Z.leb_spec (len (normalize text)) chunk_size); [lia|].
    rewrite wide_overlap_stalls in Hrun by lia. discriminate. }
  rewrite (chunk_text_nth _ _ _ _ _ _ _ Hlong Hrun H1).
  rewrite (chunk_text_nth _ _ _ _ _ _ _ Hlong Hrun H2).
  change (start_at (normalize text) chunk_size overlap (S k))
    with (next_start (normalize text) chunk_size overlap
            (start_at (normalize text) chunk_size overlap k)).
  apply hard_cut_overlap; try assumption; try lia.
  - apply normalize_spaces.
  - apply start_at_nonneg.
Qed.

Lemma hard_cut_chunks_share_overlap_witness :
  lastn (Z.to_nat 4) (of_string "abcdef") = firstn (Z.to_nat 4) (of_string "cdefgh").
Proof.
  apply (hard_cut_chunks_share_overlap 10 (of_string "abcdefghij") 6 4
           [of_string "abcdef"; of_string "cdefgh"; of_string "efghij";
            of_string "ghij"; of_string "ij"] 0).
  - lia.
  - vm_compute; reflexivity.
  - reflexivity.
  - reflexivity.
  - vm_compute; reflexivity.
Defined.

(** C3 as stated fails once a window has reached the end of the text. On
    "abcdefghij" with [chunk_size = 6] and [overlap = 4] no boundary is ever
    adjusted (there is no space and no terminator); the fourth chunk is cut at
    [start = 6] with [end = 12], the fifth at [start = 8], and they share two
    characters, not four. *)
Lemma tail_chunks_share_less_than_overlap :
  chunk_text 10 (of_string "abcdefghij") 6 4
  = Some [of_string "abcdef"; of_string "cdefgh"; of_string "efghij";
          of_string "ghij"; of_string "ij"]
  /\ start_at (of_string "abcdefghij") 6 4 3 = 6
  /\ window_end (of_string "abcdefghij") 6 6 = 6 + 6
  /\ end_not_moved (of_string "abcdefghij") 6 6 = true
  /\ end_not_moved (of_string "abcdefghij") 6 8 = true
  /\ lastn (Z.to_nat 4) (of_string "ghij") = of_string "ghij"
  /\ firstn (Z.to_nat 4) (of_string "ij") = of_string "ij"
  /\ lastn (Z.to_nat 4) (of_string "ghij") <> firstn (Z.to_nat 4) (of_string "ij").
Proof.
  repeat split; try (vm_compute; reflexivity).
  vm_compute. discriminate.
Qed.

End OverlapClaim.

(** * The response parsers *)

Section ParserFacts.

Lemma find_whole sub s :
  find sub s = find_up sub s 0 (Z.to_nat (len s - len sub + 1)).
Proof.
  unfold find, find_in, adjust_start, adjust_end, candidates.
  pose proof (len_nonneg s) as Hlen.
  rewrite !Z.ltb_irrefl. destruct (Z.ltb_spec (len s) 0); [lia|].
  rewrite Z.sub_0_r. reflexivity.
Qed.

Lemma rfind_whole sub s :
  rfind sub s = rfind_down sub s 0 (Z.to_nat (len s - len sub + 1)).
Proof.
  unfold rfind, rfind_in, adjust_start, adjust_end, candidates.
  pose proof (len_nonneg s) as Hlen.
  rewrite !Z.ltb_irrefl. destruct (Z.ltb_spec (len s) 0); [lia|].
  rewrite Z.sub_0_r. reflexivity.
Qed.

Lemma starts_with_length sub s :
  starts_with sub s = true -> (length sub <= length s)%nat.
Proof.
  revert s; induction sub as [|x sub IH]; intros [|y s]; simpl;
    try lia; try discriminate.
  intros H. apply andb_true_iff in H as [_ H]. apply IH in H. lia.
Qed.

(** A string that starts with the needle has it at index 0. *)
Lemma find_starts_with sub s : starts_with sub s = true -> find sub s = 0.
Proof.
  intros H. rewrite find_whole. pose proof (starts_with_length _ _ H).
  unfold len.
  replace (Z.to_nat (Z.of_nat (length s) - Z.of_nat (length sub) + 1))
    with (S (length s - length sub)) by lia.
  simpl. unfold match_at. simpl. rewrite H. reflexivity.
Qed.

(** A string that ends with the needle has its last occurrence at the end. *)
Lemma rfind_ends_with sub s :
  ends_with sub s = true -> rfind sub s = len s - len sub.
Proof.
  unfold ends_with. intros H. apply andb_true_iff in H as [Hle H].
  apply Nat.leb_le in Hle. rewrite rfind_whole. unfold len.
  replace (Z.to_nat (Z.of_nat (length s) - Z.of_nat (length sub) + 1))
    with (S (length s - length sub)) by lia.
  simpl. unfold match_at. rewrite H. lia.
Qed.

Lemma slice_whole {A} (s : list A) : slice s 0 (len s) = s.
Proof.
  unfold slice. pose proof (len_nonneg s).
  rewrite adjust_inside, adjust_inside by lia.
  rewrite Z.sub_0_r. simpl. unfold len. rewrite Nat2Z.id. apply firstn_all.
Qed.

Lemma slice_In {A} (l : list A) i j x : In x (slice l i j) -> In x l.
Proof.
  unfold slice. intros H. apply In_window in H as (k & _ & Hk).
  eapply nth_error_In; eauto.
Qed.

(** The index [find] returns, when it is not [-1], is a match. *)
Lemma find_match sub s :
  find sub s = -1
  \/ exists k, find sub s = Z.of_nat k /\ match_at sub s k = true.
Proof.
  rewrite find_whole.
  destruct (find_up_spec sub s (Z.to_nat (len s - len sub + 1)) 0)
    as [[H _]|(k & H & _ & Hm & _)]; [left; exact H|right; eauto].
Qed.

Lemma rfind_match sub s :
  rfind sub s = -1
  \/ exists k, rfind sub s = Z.of_nat k /\ match_at sub s k = true.
Proof.
  rewrite rfind_whole.
  destruct (rfind_down_spec sub s 0 (Z.to_nat (len s - len sub + 1)))
    as [[H _]|(k & H & _ & Hm & _)]; [left; exact H|right; eauto].
Qed.

(** A one-character needle is found only in a string that holds it. *)
Lemma contains_char c s : contains [c] s = true -> In c s.
Proof.
  unfold contains. intros H. apply Z.leb_le in H.
  destruct (find_match [c] s) as [E|(k & _ & Hm)]; [lia|].
  apply match_at_char in Hm. eapply nth_error_In; eauto.
Qed.

(** Matches of two-character needles, read as characters. *)
Lemma match_at_two a b s i :
  match_at [a; b] s i = true ->
  nth_error s i = Some a /\ nth_error s (S i) = Some b.
Proof.
  unfold match_at. revert i; induction s as [|y s IH]; intros [|i]; simpl;
    try discriminate.
  - destruct s as [|z s]; [rewrite andb_false_r; discriminate|].
    rewrite andb_true_r. intros H.
    apply andb_true_iff in H as [H1 H2].
    apply N.eqb_eq in H1, H2. subst. split; reflexivity.
  - apply IH.
Qed.

(** The pieces of a split are made of characters of the string. *)
Lemma split_go_chars sep : forall s budget skip cur q x,
  In q (split_go sep budget skip cur s) -> In x q -> In x cur \/ In x s.
Proof.
  induction s as [|c t IH]; intros budget skip cur q x; simpl.
  - intros [<-|[]] Hx. left. apply in_rev. exact Hx.
  - destruct skip as [|k].
    + destruct (_ && starts_with sep (c :: t)).
      * intros [<-|Hq] Hx.
        -- left. apply in_rev. exact Hx.
        -- destruct (IH _ _ _ _ _ Hq Hx) as [[]|H]. right; right; exact H.
      * intros Hq Hx. destruct (IH _ _ _ _ _ Hq Hx) as [[<-|H]|H]; auto.
    + intros Hq Hx. destruct (IH _ _ _ _ _ Hq Hx) as [H|H]; auto.
Qed.

Lemma split_chars sep s q x : In q (split sep s) -> In x q -> In x s.
Proof.
  intros Hq Hx. destruct (split_go_chars sep s None 0%nat [] q x Hq Hx) as [[]|H].
  exact H.
Qed.

(** A match of a non-empty needle lies inside the string. *)
Lemma match_at_inside sub s i :
  sub <> [] -> match_at sub s i = true -> (i + length sub <= length s)%nat.
Proof.
  intros Hne H. apply starts_with_length in H. rewrite length_skipn in H.
  destruct sub; [contradiction|]. simpl in *. lia.
Qed.

(** [find] returns the first match and [rfind] the last one. *)
Lemma find_first sub s i :
  sub <> [] -> match_at sub s i = true -> 0 <= find sub s <= Z.of_nat i.
Proof.
  intros Hne H. pose proof (match_at_inside _ _ _ Hne H) as Hin.
  rewrite find_whole.
  destruct (find_up_spec sub s (Z.to_nat (len s - len sub + 1)) 0)
    as [[_ Hno]|(k & -> & _ & _ & Hno)].
  - rewrite Hno in H; [discriminate|]. unfold len; lia.
  - destruct (Nat.lt_ge_cases i k) as [Hlt|]; [|lia].
    rewrite Hno in H; [discriminate|lia].
Qed.

Lemma rfind_last sub s j :
  sub <> [] -> match_at sub s j = true -> Z.of_nat j <= rfind sub s.
Proof.
  intros Hne H. pose proof (match_at_inside _ _ _ Hne H) as Hin.
  rewrite rfind_whole.
  destruct (rfind_down_spec sub s 0 (Z.to_nat (len s - len sub + 1)))
    as [[_ Hno]|(k & -> & _ & _ & Hno)].
  - rewrite Hno in H; [discriminate|]. unfold len; lia.
  - destruct (Nat.lt_ge_cases k j) as [Hlt|]; [|lia].
    rewrite Hno in H; [discriminate|]. unfold len; lia.
Qed.

(** [bracket_pair] decides [has_bracket_pair]. *)
Lemma bracket_pair_spec response :
  bracket_pair response = true <-> has_bracket_pair response.
Proof.
  unfold bracket_pair, has_bracket_pair. split.
  - intros H. apply andb_true_iff in H as [H0 H1].
    apply Z.leb_le in H0. apply Z.ltb_lt in H1.
    destruct (find_match (of_string "[{") response) as [E|(i & Ei & Hi)]; [lia|].
    destruct (rfind_match (of_string "}]") response) as [E|(j & Ej & Hj)]; [lia|].
    exists i, j. repeat split; try assumption. lia.
  - intros (i & j & Hi & Hj & Hlt).
    assert (Hopen : of_string "[{" <> []) by (vm_compute; discriminate).
    assert (Hclose : of_string "}]" <> []) by (vm_compute; discriminate).
    pose proof (find_first _ _ _ Hopen Hi).
    pose proof (rfind_last _ _ _ Hclose Hj).
    apply andb_true_iff. split; [apply Z.leb_le|apply Z.ltb_lt]; lia.
Qed.

Lemma no_bracket_pair response :
  ~ has_bracket_pair response -> bracket_pair response = false.
Proof.
  intros H. destruct (bracket_pair response) eqn:E; [|reflexivity].
  exfalso. apply H, bracket_pair_spec, E.
Qed.

End ParserFacts.

Section ParserClaims.

Lemma contains_char_complete c s : In c s -> contains [c] s = true.
Proof.
  intros H. apply In_nth_error in H as [k Hk].
  assert (Hlt : (k < length s)%nat) by (apply nth_error_Some; congruence).
  apply match_at_char in Hk.
  unfold contains. apply Z.leb_le. rewrite find_whole.
  destruct (find_up_spec [c] s (Z.to_nat (len s - len [c] + 1)) 0)
    as [[_ Hno]|(j & -> & _)]; [|lia].
  rewrite Hno in Hk; [discriminate|]. unfold len; simpl; lia.
Qed.

(** Blocks that fail the marker test add nothing. *)
Lemma parse_blocks_no_markers lower questions :
  (forall q, In q questions -> MCQGenerator.has_markers q = false) ->
  forall mcqs, MCQGenerator.parse_blocks lower questions mcqs = Some mcqs.
Proof.
  induction questions as [|q rest IH]; intros H mcqs; simpl; [reflexivity|].
  rewrite (H q) by (left; reflexivity).
  apply IH. intros q' Hq'. apply H. right; exact Hq'.
Qed.

(** Where the first "[{" and the last "}]" lie in a response without a
    "[{" followed by a "}]". *)
Lemma no_bracket_pair_indices response :
  bracket_pair response = false ->
  if starts_with (of_string "[{") response
  then find (of_string "[{") response = 0
       /\ rfind (of_string "}]") response = -1
  else (0 <=? find (of_string "[{") response)
       && (find (of_string "[{") response
           <? rfind (of_string "}]") response + 2) = false.
Proof.
  unfold bracket_pair. intros H.
  change (of_string "[{") with [91%N; 123%N] in *.
  change (of_string "}]") with [125%N; 93%N] in *.
  destruct (starts_with [91%N; 123%N] response) eqn:Hstart.
  - pose proof (find_starts_with _ _ Hstart) as Hi. rewrite Hi in *.
    split; [reflexivity|].
    destruct (rfind_match [125%N; 93%N] response) as [Hj|(k & Hj & Hm)];
      [exact Hj|].
    rewrite Hj in H. simpl in H. apply Z.ltb_ge in H.
    assert (k = 0%nat) by lia. subst k.
    apply match_at_two in Hm as [Hm _].
    assert (Hs : match_at [91%N; 123%N] response 0 = true) by exact Hstart.
    apply match_at_two in Hs as [Hs _]. congruence.
  - destruct (find_match [91%N; 123%N] response) as [Hi|(k & Hi & Hm)].
    + rewrite Hi. reflexivity.
    + rewrite Hi in *.
      assert (Hk : k <> 0%nat).
      { intros ->. change (starts_with [91%N; 123%N] response = true) in Hm.
        congruence. }
      apply match_at_two in Hm as [Hm _].
      apply andb_false_iff. right. apply Z.ltb_ge.
      apply andb_false_iff in H as [H|H];
        [apply Z.leb_gt in H; lia|apply Z.ltb_ge in H].
      destruct (rfind_match [125%N; 93%N] response) as [Hj|(k' & Hj & Hm')];
        rewrite Hj in *; [lia|].
      apply match_at_two in Hm' as [Hm1 Hm2].
      assert (k' <> k) by (intros ->; congruence).
      assert (S k' <> k) by (intros <-; congruence).
      lia.
Qed.

(** What [generate_mcqs] returns on a response without a bracket pair and
    without question marks. *)
Lemma generate_mcqs_unstructured json_loads lower response num_questions :
  bracket_pair response = false ->
  contains (of_string "?") response = false ->
  MCQGenerator.generate_mcqs json_loads lower response num_questions =
  if starts_with (of_string "[{") response
  then match json_loads (of_string "[") with
       | Some mcqs => mcqs
       | None => MCQGenerator.placeholder
       end
  else PList [].
Proof.
  intros Hpair Hq. pose proof (no_bracket_pair_indices response Hpair) as Hidx.
  unfold MCQGenerator.generate_mcqs, MCQGenerator.try_parse.
  destruct (starts_with (of_string "[{") response) eqn:Hstart.
  - destruct Hidx as [-> ->]. simpl ((0 <=? 0) && (0 <? -1 + 2)). cbv iota.
    replace (slice response 0 (-1 + 2)) with (of_string "["); [reflexivity|].
    pose proof (starts_with_length _ _ Hstart) as Hlen.
    change (of_string "[{") with [91%N; 123%N] in Hstart, Hlen.
    destruct response as [|a [|b rest]]; simpl in Hlen; try lia.
    cbn [starts_with] in Hstart. apply andb_true_iff in Hstart as [Ha _].
    apply N.eqb_eq in Ha. subst a.
    unfold slice, adjust, len. simpl length.
    replace (-1 + 2 <? 0) with false by reflexivity.
    replace (0 <? 0) with false by reflexivity.
    rewrite Z.min_l, Z.min_l by lia. reflexivity.
  - rewrite Hidx. rewrite parse_blocks_no_markers; [reflexivity|].
    intros q Hin. apply slice_In in Hin.
    unfold MCQGenerator.has_markers.
    change (of_string "?") with [63%N] in Hq |- *.
    destruct (contains [63%N] q) eqn:E; [|reflexivity].
    exfalso. apply contains_char in E.
    pose proof (split_chars _ _ _ _ Hin E) as Hrsp.
    apply contains_char_complete in Hrsp. congruence.
Qed.

(** The strict path: a response that begins with "[{" and ends with "}]" is
    handed to [json.loads] whole. *)
Lemma strict_path_whole response :
  starts_with (of_string "[{") response = true ->
  ends_with (of_string "}]") response = true ->
  (0 <=? find (of_string "[{") response)
  && (find (of_string "[{") response <? rfind (of_string "}]") response + 2)
  = true
  /\ slice response (find (of_string "[{") response)
           (rfind (of_string "}]") response + 2) = response.
Proof.
  intros Hs He. rewrite (find_starts_with _ _ Hs), (rfind_ends_with _ _ He).
  pose proof (starts_with_length _ _ Hs) as Hlen.
  change (len (of_string "}]")) with 2.
  replace (len response - 2 + 2) with (len response) by lia.
  split; [|apply slice_whole].
  apply andb_true_iff; split; [reflexivity|].
  apply Z.ltb_lt. unfold len. simpl in Hlen. lia.
Qed.

(** C1, as amended. On a response that holds neither a "[{" followed later by
    a "}]" nor any of the markers "?", "A.", "B.", [generate_mcqs] raises
    nothing and returns the empty list; only when the response begins with
    "[{" does the one-character slice "[" go to [json.loads], whose failure
    then gives the placeholder. *)
Theorem unstructured_response_gives_empty_list
    json_loads lower response num_questions :
  ~ has_bracket_pair response ->
  contains (of_string "?") response = false ->
  contains (of_string "A.") response = false ->
  contains (of_string "B.") response = false ->
  MCQGenerator.generate_mcqs json_loads lower response num_questions =
  if starts_with (of_string "[{") response
  then match json_loads (of_string "[") with
       | Some mcqs => mcqs
       | None => MCQGenerator.placeholder
       end
  else PList [].
Proof.
  intros Hpair Hq _ _. apply generate_mcqs_unstructured; [|exact Hq].
  apply no_bracket_pair, Hpair.
Qed.

Lemma unstructured_response_gives_empty_list_witness :
  MCQGenerator.generate_mcqs sample_loads ascii_lower
    (of_string "I cannot help with that") 5 = PList [].
Proof.
  apply (unstructured_response_gives_empty_list sample_loads ascii_lower
           (of_string "I cannot help with that") 5).
  - intros H. apply bracket_pair_spec in H. vm_compute in H. discriminate.
  - vm_compute; reflexivity.
  - vm_compute; reflexivity.
  - vm_compute; reflexivity.
Defined.

(** C1 as stated fails: a response without any structure yields the empty
    list, which is not the one-record placeholder. *)
Lemma gibberish_is_not_given_the_placeholder :
  ~ has_bracket_pair (of_string "gibberish")
  /\ contains (of_string "?") (of_string "gibberish") = false
  /\ contains (of_string "A.") (of_string "gibberish") = false
  /\ contains (of_string "B.") (of_string "gibberish") = false
  /\ (forall json_loads lower num_questions,
        MCQGenerator.generate_mcqs json_loads lower (of_string "gibberish")
          num_questions = PList [])
  /\ PList [] <> MCQGenerator.placeholder.
Proof.
  assert (Hpair : bracket_pair (of_string "gibberish") = false)
    by (vm_compute; reflexivity).
  assert (Hq : contains (of_string "?") (of_string "gibberish") = false)
    by (vm_compute; reflexivity).
  split.
  { intros H. apply bracket_pair_spec in H. congruence. }
  split; [exact Hq|].
  split; [vm_compute; reflexivity|]. split; [vm_compute; reflexivity|].
  split.
  - intros json_loads lower num_questions.
    rewrite (generate_mcqs_unstructured _ _ _ _ Hpair Hq). reflexivity.
  - unfold MCQGenerator.placeholder. discriminate.
Qed.

(** C6. A response that is a JSON list of objects from its first character
    "[{" to its last "}]", and that [json.loads] decodes to [v], comes back as
    [v] from both parsers. *)
Theorem strict_path_returns_decoded_payload
    json_loads lower response v num_questions num_cards :
  starts_with (of_string "[{") response = true ->
  ends_with (of_string "}]") response = true ->
  json_loads response = Some v ->
  MCQGenerator.generate_mcqs json_loads lower response num_questions = v
  /\ RevisionHelper.generate_flashcards json_loads lower response num_cards = v.
Proof.
  intros Hs He Hv. destruct (strict_path_whole response Hs He) as [Hcond Hslice].
  unfold MCQGenerator.generate_mcqs, MCQGenerator.try_parse,
    RevisionHelper.generate_flashcards, RevisionHelper.try_parse.
  rewrite Hcond, Hslice, Hv. split; reflexivity.
Qed.

Lemma strict_path_returns_decoded_payload_witness :
  MCQGenerator.generate_mcqs sample_loads (fun s => s) (of_string "[{}]") 5
  = PList [PDict []]
  /\ RevisionHelper.generate_flashcards sample_loads (fun s => s)
       (of_string "[{}]") 10 = PList [PDict []].
Proof.
  apply (strict_path_returns_decoded_payload sample_loads (fun s => s)
           (of_string "[{}]") (PList [PDict []]) 5 10);
    vm_compute; reflexivity.
Defined.

End ParserClaims.

(** * Decimal numerals *)

Section DecimalFacts.

Lemma digits_value : forall fuel n acc,
  (n < 2 ^ N.of_nat (S fuel))%N ->
  fold_left (fun value c => (10 * value + (c - 48))%N) (digits fuel n acc) 0%N
  = fold_left (fun value c => (10 * value + (c - 48))%N) acc n.
Proof.
  assert (Hlast : forall n acc, (n / 10 = 0)%N ->
            fold_left (fun value c => (10 * value + (c - 48))%N)
                      ((48 + n mod 10)%N :: acc) 0%N
            = fold_left (fun value c => (10 * value + (c - 48))%N) acc n).
  { intros n acc Hq. cbn [fold_left]. f_equal.
    pose proof (N.div_mod n 10 ltac:(lia)) as Hdm. rewrite Hq in Hdm. lia. }
  induction fuel as [|fuel IH]; intros n acc Hn.
  - cbn [digits]. apply Hlast. apply N.div_small.
    change (2 ^ N.of_nat 1)%N with 2%N in Hn. lia.
  - cbn [digits]. destruct (N.eqb_spec (n / 10) 0) as [Hq|Hq].
    + apply Hlast; exact Hq.
    + rewrite IH.
      * cbn [fold_left]. f_equal.
        rewrite (N.add_comm 48), N.add_sub.
        symmetry. apply N.div_mod. discriminate.
      * apply N.le_lt_trans with (n / 2)%N.
        -- apply N.div_le_compat_l. clear; lia.
        -- apply N.Div0.div_lt_upper_bound.
           rewrite <- N.pow_succ_r', <- Nat2N.inj_succ. exact Hn.
Qed.

(** Reading back the numeral of [n] gives [n]. *)
Lemma int_of_digits_str_of_N n : int_of_digits (str_of_N n) = n.
Proof.
  unfold int_of_digits, str_of_N. rewrite digits_value; [reflexivity|].
  rewrite Nat2N.inj_succ, N2Nat.id.
  destruct n as [|p]; [reflexivity|].
  apply N.log2_spec. lia.
Qed.

Lemma str_of_int_nat i : str_of_int (Z.of_nat i) = str_of_N (N.of_nat i).
Proof.
  unfold str_of_int. destruct (Z.ltb_spec (Z.of_nat i) 0); [lia|].
  f_equal. lia.
Qed.

End DecimalFacts.

(** * The vector store and retrieval *)

Section StoreClaims.

Lemma get_embeddings_map {vector} (embed_content : list N -> vector) texts :
  GeminiInterface.get_embeddings vector embed_content texts
  = map embed_content texts.
Proof.
  unfold GeminiInterface.get_embeddings.
  enough (forall acc,
            fold_left (fun embeddings text => embeddings ++ [embed_content text])
                      texts acc = acc ++ map embed_content texts) as H
      by apply (H []).
  induction texts as [|t texts IH]; intros acc; simpl.
  - symmetry; apply app_nil_r.
  - rewrite IH, <- app_assoc. reflexivity.
Qed.

(** C8. Without ids, [add_documents] gives the document at index [i] the id
    "doc_" followed by the decimal numeral of [i]: the ids handed to the
    collection are "doc_0", ..., "doc_{n-1}", one per document. *)
Theorem generated_ids_are_doc_index
    (vector : Type) (embed_content : list N -> vector)
    collection_name documents metadatas i document :
  nth_error documents i = Some document ->
  let call := ChromaDBManager.add_documents vector embed_content
                collection_name documents metadatas None in
  length (ChromaDBManager.add_ids call) = length documents
  /\ nth_error (ChromaDBManager.add_documents_ call) i = Some document
  /\ nth_error (ChromaDBManager.add_ids call) i
     = Some (of_string "doc_" ++ str_of_N (N.of_nat i))
  /\ int_of_digits (str_of_N (N.of_nat i)) = N.of_nat i.
Proof.
  intros Hdoc call. unfold call, ChromaDBManager.add_documents. simpl.
  assert (Hi : (i < length documents)%nat)
    by (apply nth_error_Some; congruence).
  unfold range, len. rewrite Nat2Z.id.
  split; [rewrite !length_map, length_seq; reflexivity|].
  split; [exact Hdoc|]. split; [|apply int_of_digits_str_of_N].
  rewrite map_map, nth_error_map, nth_error_seq.
  apply Nat.ltb_lt in Hi. rewrite Hi. simpl.
  rewrite str_of_int_nat. reflexivity.
Qed.

Lemma generated_ids_are_doc_index_witness :
  let call := ChromaDBManager.add_documents nat (@length N)
                (of_string "notes")
                (repeat (of_string "chunk") 12) None None in
  length (ChromaDBManager.add_ids call) = 12%nat
  /\ nth_error (ChromaDBManager.add_documents_ call) 10 = Some (of_string "chunk")
  /\ nth_error (ChromaDBManager.add_ids call) 10 = Some (of_string "doc_10")
  /\ int_of_digits (of_string "10") = 10%N.
Proof.
  apply (generated_ids_are_doc_index nat (@length N) (of_string "notes")
           (repeat (of_string "chunk") 12) None 10 (of_string "chunk")).
  reflexivity.
Defined.

Lemma nth_error_defined {A} (l : list A) i :
  (i < length l)%nat -> exists x, nth_error l i = Some x.
Proof.
  intros H. destruct (nth_error l i) eqn:E; [eauto|].
  apply nth_error_None in E. lia.
Qed.

(** Under the contract every index of the id row yields a record made of the
    entries at that index. *)
Lemma record_at_defined {dist} dist_le n_results
    (results : ChromaDBManager.query_result dist) row_ids row_documents
    row_distances i :
  store_contract dist_le n_results results row_ids row_documents row_distances ->
  (i < length row_ids)%nat ->
  exists doc, RAGChain.record_at dist results i = Some doc
    /\ nth_error row_ids i = Some (RAGChain.r_id doc)
    /\ nth_error row_documents i = Some (RAGChain.r_document doc)
    /\ nth_error row_distances i = Some (RAGChain.r_distance doc).
Proof.
  intros [Hids Hdocs Hdists Hld Hldist Hmeta _ _] Hi.
  unfold RAGChain.record_at. rewrite Hids, Hdocs, Hdists.
  destruct (nth_error_defined row_ids i Hi) as [id ->].
  destruct (nth_error_defined row_documents i ltac:(lia)) as [document ->].
  destruct (nth_error_defined row_distances i ltac:(lia)) as [distance ->].
  destruct (ChromaDBManager.metadatas results) as [[|row rows]|].
  - eexists; repeat split.
  - simpl. destruct (nth_error_defined row i ltac:(lia)) as [metadata ->].
    eexists; repeat split.
  - eexists; repeat split.
Qed.

(** The loop returns one record per index, in the order of the indices. *)
Lemma collect_rows {dist} dist_le n_results
    (results : ChromaDBManager.query_result dist) row_ids row_documents
    row_distances :
  store_contract dist_le n_results results row_ids row_documents row_distances ->
  forall count first retrieved_docs,
    (first + count <= length row_ids)%nat ->
    exists docs,
      RAGChain.collect dist results (seq first count) retrieved_docs
      = Some (retrieved_docs ++ docs)
      /\ map RAGChain.r_id docs = firstn count (skipn first row_ids)
      /\ map RAGChain.r_document docs = firstn count (skipn first row_documents)
      /\ map RAGChain.r_distance docs = firstn count (skipn first row_distances).
Proof.
  intros Hc. induction count as [|count IH]; intros first acc Hle.
  - exists []. simpl. rewrite app_nil_r. repeat split.
  - destruct (record_at_defined _ _ _ _ _ _ first Hc ltac:(lia))
      as (doc & Hrec & Hid & Hdoc & Hdist).
    destruct (IH (S first) (acc ++ [doc]) ltac:(lia))
      as (docs & Hrun & Hids & Hdocs & Hdists).
    exists (doc :: docs). cbn [seq RAGChain.collect map].
    rewrite Hrec, Hrun, <- app_assoc.
    split; [reflexivity|].
    assert (Hcons : forall (B : Type) (l : list B) x,
              nth_error l first = Some x ->
              firstn (S count) (skipn first l)
              = x :: firstn count (skipn (S first) l)).
    { intros B l x Hx. clear - Hx. revert l Hx.
      induction first as [|k IHk]; intros [|y l] Hx; try discriminate.
      - simpl in Hx. injection Hx as ->. reflexivity.
      - simpl in Hx. apply (IHk l Hx). }
    rewrite (Hcons _ _ _ Hid), (Hcons _ _ _ Hdoc), (Hcons _ _ _ Hdist).
    rewrite Hids, Hdocs, Hdists. repeat split.
Qed.

(** C7. Given a store that answers within its contract, [retrieve] returns at
    most [n_results] records, one per match and in the store's order, and
    their distances are in ascending order. *)
Theorem retrieve_keeps_store_ranking
    (vector dist : Type) (dist_le : dist -> dist -> Prop)
    (embed_content : list N -> vector)
    (collection_query :
       list N -> vector -> Z -> ChromaDBManager.query_result dist)
    collection_name query n_results row_ids row_documents row_distances :
  store_contract dist_le n_results
    (collection_query collection_name (embed_content query) n_results)
    row_ids row_documents row_distances ->
  exists docs,
    RAGChain.retrieve vector dist embed_content collection_query
      collection_name query n_results = Some docs
    /\ Z.of_nat (length docs) <= n_results
    /\ map RAGChain.r_id docs = row_ids
    /\ map RAGChain.r_document docs = row_documents
    /\ map RAGChain.r_distance docs = row_distances
    /\ Sorted dist_le (map RAGChain.r_distance docs).
Proof.
  intros Hc.
  destruct (collect_rows _ _ _ _ _ _ Hc (length row_ids) 0%nat [] (le_n _))
    as (docs & Hrun & Hids & Hdocs & Hdists).
  simpl in Hids, Hdocs, Hdists.
  rewrite firstn_all in Hids.
  rewrite firstn_all2 in Hdocs by (rewrite (contract_documents_length _ _ _ _ _ _ Hc); lia).
  rewrite firstn_all2 in Hdists by (rewrite (contract_distances_length _ _ _ _ _ _ Hc); lia).
  exists docs.
  unfold RAGChain.retrieve, ChromaDBManager.query_collection.
  rewrite get_embeddings_map.
  change (nth_error (map embed_content [query]) 0)
    with (Some (embed_content query)).
  cbv beta iota. rewrite (contract_ids _ _ _ _ _ _ Hc), Hrun. cbn [app].
  split; [reflexivity|]. split.
  - rewrite <- (length_map RAGChain.r_id), Hids. apply (contract_at_most _ _ _ _ _ _ Hc).
  - repeat split; try assumption.
    rewrite Hdists. apply (contract_ranked _ _ _ _ _ _ Hc).
Qed.

Lemma retrieve_keeps_store_ranking_witness :
  exists docs,
    RAGChain.retrieve nat Z (@length N) sample_query
      (of_string "default_collection") (of_string "photosynthesis") 3
    = Some docs
    /\ Z.of_nat (length docs) <= 3
    /\ map RAGChain.r_id docs = [of_string "doc_4"; of_string "doc_0"]
    /\ map RAGChain.r_document docs
       = [of_string "Plants turn light into sugar."; of_string "Page 1:"]
    /\ map RAGChain.r_distance docs = [120; 870]
    /\ Sorted Z.le (map RAGChain.r_distance docs).
Proof.
  apply (retrieve_keeps_store_ranking nat Z Z.le (@length N) sample_query).
  constructor; try reflexivity.
  - simpl. lia.
  - repeat constructor. lia.
Defined.

End StoreClaims.

(** * Configuration *)

Section ConfigClaims.

(** C9. Constructing the interface raises exactly when [GEMINI_API_KEY] is
    unset or empty, and then no call to the model package has been made; with
    a key present the object is built. *)
Theorem init_raises_iff_key_missing environ :
  ((exists e, snd (GeminiInterface.init environ) = inl e)
   <-> (GeminiInterface.getenv environ GeminiInterface.GEMINI_API_KEY = None
        \/ GeminiInterface.getenv environ GeminiInterface.GEMINI_API_KEY
           = Some []))
  /\ ((exists e, snd (GeminiInterface.init environ) = inl e)
      -> fst (GeminiInterface.init environ) = [])
  /\ (forall key,
        GeminiInterface.getenv environ GeminiInterface.GEMINI_API_KEY = Some key ->
        key <> [] ->
        GeminiInterface.init environ
        = ([GeminiInterface.Configure key;
            GeminiInterface.GenerativeModel (of_string "gemini-1.0-pro")],
           inr {| GeminiInterface.model := of_string "gemini-1.0-pro";
                  GeminiInterface.embedding_model := of_string "embedding-001" |})).
Proof.
  unfold GeminiInterface.init.
  destruct (GeminiInterface.getenv environ GeminiInterface.GEMINI_API_KEY)
    as [[|c key]|]; cbn [fst snd].
  - split; [split; [auto|eauto]|]. split; [reflexivity|].
    intros key H Hne. congruence.
  - split; [split|].
    + intros [e H]; discriminate.
    + intros [H|H]; discriminate.
    + split; [intros [e H]; discriminate|].
      intros key' H _. injection H as <-. reflexivity.
  - split; [split; [auto|eauto]|]. split; [reflexivity|].
    intros key H _. discriminate.
Qed.

(** The two outcomes, on concrete environments. *)
Example init_without_key :
  GeminiInterface.init [(of_string "HOME", of_string "/root")]
  = ([], inl (GeminiInterface.ValueError
               (of_string "GEMINI_API_KEY environment variable not set"))).
Proof. reflexivity. Qed.

Example init_with_empty_key :
  GeminiInterface.init [(of_string "GEMINI_API_KEY", [])]
  = ([], inl (GeminiInterface.ValueError
               (of_string "GEMINI_API_KEY environment variable not set"))).
Proof. reflexivity. Qed.

Example init_with_key :
  GeminiInterface.init [(of_string "GEMINI_API_KEY", of_string "k-123")]
  = ([GeminiInterface.Configure (of_string "k-123");
      GeminiInterface.GenerativeModel (of_string "gemini-1.0-pro")],
     inr {| GeminiInterface.model := of_string "gemini-1.0-pro";
            GeminiInterface.embedding_model := of_string "embedding-001" |}).
Proof. reflexivity. Qed.

End ConfigClaims.

(** * The definitions on sample inputs *)

Section Examples.

Example normalize_example :
  normalize (of_string "  Hello   world. This is  a test! Another sentence here?  ")
  = of_string "Hello world. This is a test! Another sentence here?".
Proof. vm_compute; reflexivity. Qed.

Example words_example :
  words (of_string "  a bc   d ") = [of_string "a"; of_string "bc"; of_string "d"].
Proof. vm_compute; reflexivity. Qed.

(** The first window ends after the full stop at index 11, past the midpoint;
    the second holds a full stop before its midpoint and ends after its last
    space. *)
Example chunk_text_example :
  chunk_text 20
    (of_string "  Hello   world. This is  a test! Another sentence here?  ") 12 3
  = Some [of_string "Hello world."; of_string "ld. This is";
          of_string "is a test!"; of_string "st! Another";
          of_string "er sentence"; of_string "ce here?"].
Proof. vm_compute; reflexivity. Qed.

Example rfind_in_examples :
  rfind_in (of_string ".") (of_string "ab.def") 0 (-1) = 2
  /\ rfind_in (of_string ".") (of_string "ab.def") 2 1 = -1
  /\ rfind_in (of_string ".") (of_string "abcdef") 0 6 = -1
  /\ find (of_string "[{") (of_string "ab[{c}]") = 2
  /\ rfind (of_string "}]") (of_string "ab[{c}]}") = 5.
Proof. repeat split. Qed.

Example slice_examples :
  slice (of_string "abcdef") 2 1 = []
  /\ slice (of_string "abcdef") 0 (-1) = of_string "abcde"
  /\ slice (of_string "abcdef") (-100) 3 = of_string "abc"
  /\ slice (of_string "abcdef") 4 100 = of_string "ef".
Proof. repeat split. Qed.

Example split_examples :
  split (of_string "xx") (of_string "axxbxxxc")
  = [of_string "a"; of_string "b"; of_string "xc"]
  /\ split_max (of_string ":") 1 (of_string "a:b:c")
     = [of_string "a"; of_string "b:c"]
  /\ split BLANK_LINE [] = [[]]
  /\ split BLANK_LINE (of_string "a" ++ BLANK_LINE) = [of_string "a"; []].
Proof. repeat split. Qed.

Example str_of_int_examples :
  map str_of_int [0; 7; 10; 99; 100; 12345; -42]
  = [of_string "0"; of_string "7"; of_string "10"; of_string "99";
     of_string "100"; of_string "12345"; of_string "-42"].
Proof. vm_compute; reflexivity. Qed.

(** The heuristic path: two of three blocks carry the markers. The answer
    stays "A": the needle "correct answer is B" has a capital letter and is
    looked up in the lower-cased block. *)
Example generate_mcqs_fallback_example :
  MCQGenerator.generate_mcqs sample_loads ascii_lower
    (of_string "What is 2+2? A. 3 B. 4 C. 5 D. 6 The correct answer is B"
     ++ BLANK_LINE ++ of_string "no markers here"
     ++ BLANK_LINE ++ of_string "Capital of France? A. Paris B. Rome") 5
  = PList
      [PDict
         [(of_string "question", PStr (of_string "What is 2+2?"));
          (of_string "options",
           PList [PStr (of_string "A. 3"); PStr (of_string "B. 4");
                  PStr (of_string "C. 5");
                  PStr (of_string "D. 6 The correct answer is B")]);
          (of_string "correct_answer", PStr (of_string "A"));
          (of_string "explanation",
           PStr (of_string "Explanation not available in parsed format"))];
       PDict
         [(of_string "question", PStr (of_string "Capital of France?"));
          (of_string "options",
           PList [PStr (of_string "A. Paris"); PStr (of_string "B. Rome")]);
          (of_string "correct_answer", PStr (of_string "A"));
          (of_string "explanation",
           PStr (of_string "Explanation not available in parsed format"))]].
Proof. vm_compute; reflexivity. Qed.

(** The exception path: the slice "[" is not JSON. *)
Example generate_mcqs_placeholder_example :
  MCQGenerator.generate_mcqs sample_loads ascii_lower
    (of_string "[{ not json") 5 = MCQGenerator.placeholder.
Proof. vm_compute; reflexivity. Qed.

Example generate_flashcards_fallback_example :
  RevisionHelper.generate_flashcards sample_loads ascii_lower
    (of_string "Front: What is ATP?" ++ [NL] ++ of_string "Back: Energy currency"
     ++ BLANK_LINE ++ of_string "front only") 10
  = PList [PDict [(of_string "front", PStr (of_string "What is ATP?"));
                  (of_string "back", PStr (of_string "Energy currency"))]].
Proof. vm_compute; reflexivity. Qed.

End Examples.

(** * More about the chunker *)

Section ChunkerEdges.

Lemma collapse_blank text :
  Forall (fun c => is_space c = true) text -> collapse true text = [].
Proof.
  induction 1 as [|c t Hc _ IH]; simpl; [reflexivity|].
  rewrite Hc. exact IH.
Qed.

Lemma normalize_blank text :
  Forall (fun c => is_space c = true) text -> normalize text = [].
Proof.
  intros H. unfold normalize, strip, re_sub_ws.
  rewrite lstrip_collapse, collapse_blank by assumption. reflexivity.
Qed.

(** X1. A text made of whitespace only (the empty text included) gives one
    empty chunk, whatever the overlap; with a negative [chunk_size] it gives
    no chunk at all. *)
Theorem blank_text_gives_one_empty_chunk fuel text chunk_size overlap :
  Forall (fun c => is_space c = true) text ->
  chunk_text fuel text chunk_size overlap
  = Some (if 0 <=? chunk_size then [[]] else []).
Proof.
  intros H. unfold chunk_text. rewrite (normalize_blank text H).
  change (len (@nil N)) with 0.
  destruct (0 <=? chunk_size); [reflexivity|].
  destruct fuel; reflexivity.
Qed.

Lemma blank_text_gives_one_empty_chunk_witness :
  chunk_text 0 [SP; NL; 9%N; NL] 1000 200 = Some [[]].
Proof.
  apply (blank_text_gives_one_empty_chunk 0 [SP; NL; 9%N; NL] 1000 200).
  repeat constructor.
Defined.

(** X2. With [overlap >= chunk_size >= 0], a text whose normalised form is
    longer than [chunk_size] is never chunked: the second window starts where
    the first did, and no amount of fuel gives a result. *)
Theorem overlap_not_below_chunk_size_never_returns
    fuel text chunk_size overlap :
  0 <= chunk_size <= overlap ->
  chunk_size < len (normalize text) ->
  chunk_text fuel text chunk_size overlap = None.
Proof.
  intros Ho Hlong. unfold chunk_text.
  destruct (Z.leb_spec (len (normalize text)) chunk_size); [lia|].
  apply wide_overlap_stalls; assumption.
Qed.

Lemma overlap_not_below_chunk_size_never_returns_witness :
  chunk_text 1000 (of_string "one two three four") 5 5 = None.
Proof.
  apply (overlap_not_below_chunk_size_never_returns 1000
           (of_string "one two three four") 5 5).
  - lia.
  - vm_compute; reflexivity.
Defined.

End ChunkerEdges.

Section ChunkerContent.

Lemma lstrip_suffix s : exists a, s = a ++ lstrip s.
Proof.
  induction s as [|c t [a IH]]; simpl; [exists []; reflexivity|].
  destruct (is_space c); [|exists []; reflexivity].
  exists (c :: a). simpl. f_equal. exact IH.
Qed.

Lemma rstrip_prefix s : exists b, s = rstrip s ++ b.
Proof.
  induction s as [|c t [b IH]]; simpl; [exists []; reflexivity|].
  destruct (is_space c && is_nil (rstrip t)).
  - exists (c :: t). reflexivity.
  - exists b. simpl. f_equal. exact IH.
Qed.

Lemma strip_infix s : exists a b, s = a ++ strip s ++ b.
Proof.
  unfold strip. destruct (lstrip_suffix s) as [a Ha].
  destruct (rstrip_prefix (lstrip s)) as [b Hb].
  exists a, b. rewrite <- Hb. exact Ha.
Qed.

Lemma slice_infix {A} (s : list A) i j : exists a b, s = a ++ slice s i j ++ b.
Proof.
  unfold slice.
  set (lo := Z.to_nat (adjust (len s) i)).
  set (n := Z.to_nat (adjust (len s) j - adjust (len s) i)).
  exists (firstn lo s), (skipn n (skipn lo s)).
  rewrite firstn_skipn, firstn_skipn. reflexivity.
Qed.

Lemma chunk_at_infix text chunk_size start :
  exists a b, text = a ++ chunk_at text chunk_size start ++ b.
Proof.
  unfold chunk_at.
  destruct (slice_infix text start (window_end text chunk_size start))
    as (a & b & Hs).
  destruct (strip_infix (slice text start (window_end text chunk_size start)))
    as (a' & b' & Ht).
  exists (a ++ a'), (b' ++ b).
  rewrite Hs at 1. rewrite Ht at 1. rewrite <- !app_assoc. reflexivity.
Qed.

(** X3. Every chunk is a contiguous piece of the normalised text: the chunker
    invents no character and reorders none, for any parameters. *)
Theorem chunks_are_pieces_of_the_text fuel text chunk_size overlap chunks c :
  chunk_text fuel text chunk_size overlap = Some chunks ->
  In c chunks ->
  exists before after, normalize text = before ++ c ++ after.
Proof.
  intros Hrun Hin.
  assert (Hall : Forall (fun c => exists a b, normalize text = a ++ c ++ b) chunks).
  { apply (chunk_text_Forall _ fuel text chunk_size overlap); [| |exact Hrun].
    - intros _. exists [], []. rewrite app_nil_r. reflexivity.
    - intros start _. apply chunk_at_infix. }
  rewrite Forall_forall in Hall. apply Hall, Hin.
Qed.

Lemma chunks_are_pieces_of_the_text_witness :
  exists before after,
    normalize (of_string "  Hello   world. This is  a test! Another sentence here?  ")
    = before ++ of_string "is a test!" ++ after.
Proof.
  apply (chunks_are_pieces_of_the_text 20
           (of_string "  Hello   world. This is  a test! Another sentence here?  ")
           12 3
           [of_string "Hello world."; of_string "ld. This is";
            of_string "is a test!"; of_string "st! Another";
            of_string "er sentence"; of_string "ce here?"]).
  - vm_compute; reflexivity.
  - simpl; right; right; left; reflexivity.
Defined.

(** How many times the loop ran: the list grew by [n] chunks, the start of each
    of the [n] iterations lay inside the text, and the next one did not. *)
Lemma chunk_loop_count text chunk_size overlap :
  forall fuel start chunks result,
    chunk_loop fuel text chunk_size overlap start chunks = Some result ->
    exists n,
      length result = (length chunks + n)%nat
      /\ len text <= Nat.iter n (next_start text chunk_size overlap) start
      /\ forall k, (k < n)%nat ->
           Nat.iter k (next_start text chunk_size overlap) start < len text.
Proof.
  induction fuel as [|fuel IH]; intros start chunks result.
  - simpl. destruct (Z.ltb_spec start (len text)); [discriminate|].
    intros E; injection E as <-. exists 0%nat. simpl.
    split; [lia|]. split; [assumption|]. intros k Hk; lia.
  - rewrite chunk_loop_step. destruct (Z.ltb_spec start (len text)) as [Hlt|Hge].
    + intros E. destruct (IH _ _ _ E) as (n & Hlen & Hend & Hin).
      exists (S n). rewrite length_app in Hlen. simpl in Hlen.
      split; [lia|]. split; [rewrite Nat.iter_succ_r; exact Hend|].
      intros [|k] Hk; [exact Hlt|].
      rewrite Nat.iter_succ_r. apply Hin. lia.
    + intros E; injection E as <-. exists 0%nat. simpl.
      split; [lia|]. split; [assumption|]. intros k Hk; lia.
Qed.

Lemma start_at_succ text chunk_size overlap k :
  start_at text chunk_size overlap (S k)
  = next_start text chunk_size overlap (start_at text chunk_size overlap k).
Proof. reflexivity. Qed.

(** With [overlap >= 0] the windows leave no gap: everything before the end of
    window [k] lies in one of the windows [0..k]. *)
Lemma windows_reach text chunk_size overlap :
  0 <= chunk_size -> 0 <= overlap ->
  forall k i,
    0 <= i < window_end text chunk_size (start_at text chunk_size overlap k) ->
    exists j, (j <= k)%nat
      /\ start_at text chunk_size overlap j <= i
         < window_end text chunk_size (start_at text chunk_size overlap j).
Proof.
  intros Hc Ho. induction k as [|k IH]; intros i Hi.
  - exists 0%nat. split; [lia|]. split; [simpl; lia|apply Hi].
  - destruct (Z_lt_le_dec i
                (window_end text chunk_size (start_at text chunk_size overlap k)))
      as [Hlt|Hge].
    + destruct (IH i ltac:(lia)) as (j & Hj & Hin). exists j. split; [lia|exact Hin].
    + exists (S k). split; [lia|]. split; [|apply Hi].
      rewrite start_at_succ. unfold next_start.
      destruct (Z.ltb_spec
                  (window_end text chunk_size (start_at text chunk_size overlap k)
                   - overlap) 0); lia.
Qed.

(** X4. With [overlap >= 0] no part of a text longer than [chunk_size] is
    skipped: every position of the normalised text lies in the window
    [start, end) that one of the returned chunks was cut from. *)
Theorem windows_cover_the_text fuel text chunk_size overlap chunks i :
  0 <= chunk_size -> 0 <= overlap ->
  chunk_size < len (normalize text) ->
  chunk_text fuel text chunk_size overlap = Some chunks ->
  0 <= i < len (normalize text) ->
  exists k,
    nth_error chunks k
    = Some (strip (slice (normalize text)
                     (start_at (normalize text) chunk_size overlap k)
                     (window_end (normalize text) chunk_size
                        (start_at (normalize text) chunk_size overlap k))))
    /\ start_at (normalize text) chunk_size overlap k <= i
       < window_end (normalize text) chunk_size
           (start_at (normalize text) chunk_size overlap k).
Proof.
  intros Hc Ho Hlong Hrun Hi.
  pose proof Hrun as Hloop. unfold chunk_text in Hloop.
  destruct (Z.leb_spec (len (normalize text)) chunk_size); [lia|].
  destruct (chunk_loop_count _ _ _ _ _ _ _ Hloop) as (n & Hlen & Hend & Hin).
  simpl in Hlen. fold (start_at (normalize text) chunk_size overlap n) in Hend.
  destruct n as [|n]; [simpl in Hend; lia|].
  assert (Hreach : len (normalize text)
                   <= window_end (normalize text) chunk_size
                        (start_at (normalize text) chunk_size overlap n)).
  { rewrite start_at_succ in Hend. unfold next_start in Hend.
    destruct (Z.ltb_spec
                (window_end (normalize text) chunk_size
                   (start_at (normalize text) chunk_size overlap n) - overlap) 0);
      lia. }
  destruct (windows_reach (normalize text) chunk_size overlap Hc Ho n i ltac:(lia))
    as (j & Hj & Hwin).
  exists j. split; [|exact Hwin].
  destruct (nth_error chunks j) as [c|] eqn:E.
  - rewrite (chunk_text_nth _ _ _ _ _ _ _ Hlong Hrun E). reflexivity.
  - apply nth_error_None in E. lia.
Qed.

Lemma windows_cover_the_text_witness :
  exists k,
    nth_error [of_string "abcdef"; of_string "cdefgh"; of_string "efghij";
               of_string "ghij"; of_string "ij"] k
    = Some (strip (slice (normalize (of_string "abcdefghij"))
                     (start_at (normalize (of_string "abcdefghij")) 6 4 k)
                     (window_end (normalize (of_string "abcdefghij")) 6
                        (start_at (normalize (of_string "abcdefghij")) 6 4 k))))
    /\ start_at (normalize (of_string "abcdefghij")) 6 4 k <= 7
       < window_end (normalize (of_string "abcdefghij")) 6
           (start_at (normalize (of_string "abcdefghij")) 6 4 k).
Proof.
  apply (windows_cover_the_text 10 (of_string "abcdefghij") 6 4); try lia.
  - vm_compute; reflexivity.
  - vm_compute; reflexivity.
  - vm_compute; split; [discriminate|reflexivity].
Defined.

End ChunkerContent.

Section ChunkerEnds.

Lemma rstrip_unchanged s :
  (forall t x, s = t ++ [x] -> is_space x = false) -> rstrip s = s.
Proof.
  induction s as [|c t IH]; intros H; simpl; [reflexivity|].
  destruct t as [|d t'].
  - simpl. rewrite (H [] c eq_refl). reflexivity.
  - rewrite IH.
    + rewrite andb_false_r. reflexivity.
    + intros u x E. apply (H (c :: u) x). rewrite E. reflexivity.
Qed.

Lemma lstrip_unchanged s :
  (forall x t, s = x :: t -> is_space x = false) -> lstrip s = s.
Proof.
  destruct s as [|c t]; intros H; simpl; [reflexivity|].
  rewrite (H c t eq_refl). reflexivity.
Qed.

(** The chunk cut at 0 from a trimmed text is a prefix of it. *)
Lemma first_chunk_prefix text chunk_size :
  trimmed text -> exists rest, text = chunk_at text chunk_size 0 ++ rest.
Proof.
  intros [Hhead _]. unfold chunk_at, slice, strip.
  replace (adjust (len text) 0) with 0
    by (unfold adjust; pose proof (len_nonneg text); simpl; lia).
  rewrite Z.sub_0_r. simpl skipn.
  set (n := Z.to_nat (adjust (len text) (window_end text chunk_size 0))).
  rewrite lstrip_unchanged.
  - destruct (rstrip_prefix (firstn n text)) as [b Hb].
    exists (b ++ skipn n text). rewrite app_assoc, <- Hb.
    symmetry. apply firstn_skipn.
  - intros x t E. destruct text as [|y text']; [destruct n; discriminate|].
    destruct n; [discriminate|]. simpl in E. injection E as -> _.
    eapply Hhead. reflexivity.
Qed.

(** The chunk cut from a window that reaches the end of a trimmed text is a
    suffix of it. *)
Lemma end_chunk_suffix text chunk_size start :
  trimmed text -> 0 <= start ->
  len text <= window_end text chunk_size start ->
  exists before, text = before ++ chunk_at text chunk_size start.
Proof.
  intros [_ Hlast] Hs Hend. unfold chunk_at, slice, strip.
  pose proof (len_nonneg text) as Hlen.
  rewrite (adjust_above (len text) (window_end text chunk_size start)) by lia.
  assert (Hlo : 0 <= adjust (len text) start <= len text)
    by (apply adjust_range; lia).
  rewrite firstn_all2
    by (rewrite length_skipn; unfold len in *; lia).
  destruct (lstrip_suffix (skipn (Z.to_nat (adjust (len text) start)) text))
    as [a Ha].
  exists (firstn (Z.to_nat (adjust (len text) start)) text ++ a).
  rewrite rstrip_unchanged.
  - rewrite <- app_assoc, <- Ha. symmetry. apply firstn_skipn.
  - intros t x E. apply (Hlast (firstn (Z.to_nat (adjust (len text) start)) text
                                 ++ a ++ t)).
    rewrite <- (firstn_skipn (Z.to_nat (adjust (len text) start)) text) at 1.
    rewrite Ha, E, <- !app_assoc. reflexivity.
Qed.

(** The last chunk the loop appends comes from a window after which the loop
    condition fails. *)
Lemma chunk_loop_last text chunk_size overlap :
  forall fuel start chunks result,
    chunk_loop fuel text chunk_size overlap start chunks = Some result ->
    0 <= start < len text ->
    exists s, 0 <= s < len text
      /\ len text <= next_start text chunk_size overlap s
      /\ last result [] = chunk_at text chunk_size s.
Proof.
  induction fuel as [|fuel IH]; intros start chunks result.
  - simpl. destruct (Z.ltb_spec start (len text)); [discriminate|lia].
  - rewrite chunk_loop_step.
    destruct (Z.ltb_spec start (len text)) as [Hlt|]; [|lia].
    intros E Hs.
    destruct (Z_lt_le_dec (next_start text chunk_size overlap start) (len text))
      as [Hin|Hout].
    + apply (IH _ _ _ E). pose proof (next_start_nonneg text chunk_size overlap start).
      lia.
    + exists start. split; [lia|]. split; [exact Hout|].
      destruct fuel; simpl in E;
        destruct (Z.ltb_spec (next_start text chunk_size overlap start) (len text));
        try lia; injection E as <-; apply last_last.
Qed.

(** X5. With [overlap >= 0] the chunks begin where the normalised text begins
    and end where it ends: the first chunk is a prefix of it and the last chunk
    a suffix. *)
Theorem first_chunk_is_prefix_last_is_suffix fuel text chunk_size overlap chunks :
  0 <= overlap ->
  chunk_text fuel text chunk_size overlap = Some chunks ->
  (exists rest, normalize text = hd [] chunks ++ rest)
  /\ (exists before, normalize text = before ++ last chunks []).
Proof.
  intros Ho Hrun.
  pose proof (normalize_trimmed text) as Htrim.
  pose proof Hrun as Hloop. unfold chunk_text in Hloop.
  destruct (Z.leb_spec (len (normalize text)) chunk_size) as [Hshort|Hlong].
  - injection Hloop as <-. simpl. split.
    + exists []. symmetry; apply app_nil_r.
    + exists []. reflexivity.
  - destruct chunks as [|c0 rest].
    { split; [exists (normalize text); reflexivity|].
      exists (normalize text). symmetry; apply app_nil_r. }
    split.
    + simpl. rewrite (chunk_text_nth fuel text chunk_size overlap (c0 :: rest) 0 c0);
        [apply first_chunk_prefix; exact Htrim|lia|exact Hrun|reflexivity].
    + assert (Hpos : 0 <= 0 < len (normalize text)).
      { split; [lia|]. destruct (Z_lt_le_dec 0 (len (normalize text))); [assumption|].
        destruct fuel; simpl in Hloop;
          destruct (Z.ltb_spec 0 (len (normalize text))); try lia; discriminate. }
      destruct (chunk_loop_last _ _ _ _ _ _ _ Hloop Hpos) as (s & Hs & Hout & ->).
      apply end_chunk_suffix; [exact Htrim|lia|].
      unfold next_start in Hout.
      destruct (Z.ltb_spec
                  (window_end (normalize text) chunk_size s - overlap) 0); lia.
Qed.

Lemma first_chunk_is_prefix_last_is_suffix_witness :
  (exists rest,
      normalize (of_string "  Hello   world. This is  a test! Another sentence here?  ")
      = of_string "Hello world." ++ rest)
  /\ (exists before,
         normalize (of_string "  Hello   world. This is  a test! Another sentence here?  ")
         = before ++ of_string "ce here?").
Proof.
  apply (first_chunk_is_prefix_last_is_suffix 20
           (of_string "  Hello   world. This is  a test! Another sentence here?  ")
           12 3
           [of_string "Hello world."; of_string "ld. This is";
            of_string "is a test!"; of_string "st! Another";
            of_string "er sentence"; of_string "ce here?"]).
  - lia.
  - vm_compute; reflexivity.
Defined.

End ChunkerEnds.

Section ChunkerTermination.

(** When every start inside the text is followed by a larger one, the loop
    ends within as many iterations as the text has characters left. *)
Lemma chunk_loop_terminates text chunk_size overlap :
  (forall s, 0 <= s < len text -> s < next_start text chunk_size overlap s) ->
  forall fuel start chunks,
    0 <= start -> (Z.to_nat (len text - start) <= fuel)%nat ->
    exists result,
      chunk_loop fuel text chunk_size overlap start chunks = Some result.
Proof.
  intros Hprog. induction fuel as [|fuel IH]; intros start chunks Hs Hfuel.
  - simpl. destruct (Z.ltb_spec start (len text)); [lia|eauto].
  - rewrite chunk_loop_step.
    destruct (Z.ltb_spec start (len text)) as [Hlt|]; [|eauto].
    pose proof (Hprog start ltac:(lia)). apply IH; lia.
Qed.

Lemma chunk_text_terminates text chunk_size overlap :
  (forall s, 0 <= s < len (normalize text) ->
             s < next_start (normalize text) chunk_size overlap s) ->
  exists chunks,
    chunk_text (length (normalize text)) text chunk_size overlap = Some chunks.
Proof.
  intros Hprog. unfold chunk_text.
  destruct (len (normalize text) <=? chunk_size); [eauto|].
  apply chunk_loop_terminates; [exact Hprog|lia|unfold len; lia].
Qed.

(** X6. With a positive [chunk_size] and no overlap (zero or negative) the
    chunker always returns, within as many iterations as the normalised text
    has characters. *)
Theorem chunk_text_returns_without_overlap text chunk_size overlap :
  0 < chunk_size -> overlap <= 0 ->
  exists chunks,
    chunk_text (length (normalize text)) text chunk_size overlap = Some chunks.
Proof.
  intros Hc Ho. apply chunk_text_terminates. intros s Hs.
  destruct (window_end_bounds (normalize text) chunk_size s) as [_ B]; [lia|lia|].
  specialize (B Hc). unfold next_start.
  destruct (Z.ltb_spec (window_end (normalize text) chunk_size s - overlap) 0); lia.
Qed.

Lemma chunk_text_returns_without_overlap_witness :
  exists chunks,
    chunk_text (length (normalize (of_string "a bbbbbbbbbbbbbb")))
      (of_string "a bbbbbbbbbbbbbb") 5 0 = Some chunks.
Proof.
  apply (chunk_text_returns_without_overlap (of_string "a bbbbbbbbbbbbbb") 5 0); lia.
Defined.

(** In the words of a text joined by single spaces, any [width] consecutive
    positions hold a space when every word is shorter than [width]. *)
Lemma joined_words_have_spaces width :
  0 < width ->
  forall ws,
    Forall (fun w : list N => len w < width) ws ->
    forall a, 0 <= a -> a + width <= len (join [SP] ws) ->
    exists q, a <= q < a + width
              /\ nth_error (join [SP] ws) (Z.to_nat q) = Some SP.
Proof.
  intros Hwidth. induction ws as [|w ws IH]; intros Hall a Ha Hfit.
  - change (len (join [SP] [])) with 0 in Hfit. lia.
  - inversion Hall as [|w' ws' Hw Hws]; subst.
    rewrite join_cons in Hfit |- *.
    destruct ws as [|w2 ws2]; simpl is_nil in *; cbv iota in *.
    + rewrite app_nil_r in Hfit. lia.
    + rewrite len_app in Hfit.
      change (len (SP :: join [SP] (w2 :: ws2)))
        with (Z.of_nat (S (length (join [SP] (w2 :: ws2))))) in Hfit.
      destruct (Z_le_gt_dec a (len w)) as [Hin|Hpast].
      * exists (len w). split; [lia|].
        unfold len. rewrite Nat2Z.id, nth_error_app2, Nat.sub_diag by lia.
        reflexivity.
      * destruct (IH Hws (a - len w - 1) ltac:(lia)) as (q & Hq & Hnth).
        { unfold len in *. lia. }
        exists (q + len w + 1). split; [lia|].
        rewrite nth_error_app2 by (unfold len; lia).
        replace (Z.to_nat (q + len w + 1) - length w)%nat with (S (Z.to_nat q))
          by (unfold len; lia).
        exact Hnth.
Qed.

(** A window inside the text that holds a space is cut after that space or
    further right, or else after a terminator past its midpoint. *)
Lemma window_end_after_space text chunk_size start q :
  0 <= start -> 0 <= chunk_size -> start + chunk_size < len text ->
  start <= q < start + chunk_size ->
  nth_error text (Z.to_nat q) = Some SP ->
  start + chunk_size / 2 + 2 <= window_end text chunk_size start
  \/ q + 1 <= window_end text chunk_size start.
Proof.
  intros Hs Hc Hlt Hq Hsp. unfold window_end.
  apply Z.ltb_lt in Hlt. rewrite Hlt. apply Z.ltb_lt in Hlt.
  change SPACE with [SP].
  rfind_facts text start (start + chunk_size) SP H.
  destruct (negb _ && (_ <? _)) eqn:E.
  - left. apply andb_true_iff in E as [_ E]. apply Z.ltb_lt in E. lia.
  - right. destruct H as [[_ H]|(Hr & _ & Hafter)].
    + exfalso. apply (H q Hq Hsp).
    + destruct (rfind_in [SP] text start (start + chunk_size) =? -1) eqn:F;
        [apply Z.eqb_eq in F; lia|]. simpl.
      destruct (Z_lt_le_dec (rfind_in [SP] text start (start + chunk_size)) q)
        as [Hbefore|]; [|lia].
      exfalso. apply (Hafter q); [lia|exact Hsp].
Qed.

(** X7. The chunker returns on ordinary prose: with
    [0 <= overlap <= chunk_size // 2 + 1] and every word of the text shorter
    than [chunk_size - overlap], each window is cut at a space or terminator
    far enough to the right for the next start to move forward. With the
    defaults 1000 and 200 this asks for words under 800 characters. *)
Theorem chunk_text_returns_on_short_words text chunk_size overlap :
  0 <= overlap <= chunk_size / 2 + 1 ->
  Forall (fun w => len w < chunk_size - overlap) (words text) ->
  exists chunks,
    chunk_text (length (normalize text)) text chunk_size overlap = Some chunks.
Proof.
  intros Ho Hwords.
  destruct (Z_le_gt_dec (len (normalize text)) chunk_size) as [Hshort|Hlong].
  { unfold chunk_text. apply Z.leb_le in Hshort. rewrite Hshort. eauto. }
  pose proof (words_nonempty text) as Hne.
  destruct (words text) as [|w ws] eqn:E.
  { (* no word at all: the text is empty and the loop is not entered *)
    assert (Hnil : normalize text = []).
    { rewrite normalize_words_joined. unfold words_joined. rewrite E. reflexivity. }
    unfold chunk_text. rewrite Hnil. simpl length.
    destruct (len (@nil N) <=? chunk_size); [eauto|]. simpl. eauto. }
  assert (Hgap : 1 < chunk_size - overlap).
  { inversion Hwords as [|w' ws' Hw _]; subst.
    inversion Hne as [|w' ws' Hw0 _]; subst.
    destruct w; [contradiction|]. unfold len in Hw. simpl in Hw. lia. }
  rewrite <- E in Hwords. clear E Hne.
  assert (Hc : 0 <= chunk_size) by lia.
  assert (Hmid : 0 <= chunk_size / 2) by (apply Z.div_pos; lia).
  apply chunk_text_terminates. intros s Hs.
  unfold next_start.
  assert (Hwin : s + overlap + 1 <= window_end (normalize text) chunk_size s).
  { destruct (Z_lt_le_dec (s + chunk_size) (len (normalize text))) as [Hin|Hend].
    - destruct (joined_words_have_spaces (chunk_size - overlap) ltac:(lia)
                  (words text) Hwords (s + overlap)) as (q & Hq & Hsp); [lia| |].
      { rewrite normalize_words_joined in Hin. unfold words_joined in Hin. lia. }
      fold (words_joined text) in Hsp. rewrite <- normalize_words_joined in Hsp.
      destruct (window_end_after_space (normalize text) chunk_size s q)
        as [H|H]; try assumption; lia.
    - unfold window_end. apply Z.ltb_ge in Hend. rewrite Hend. lia. }
  destruct (Z.ltb_spec (window_end (normalize text) chunk_size s - overlap) 0); lia.
Qed.

Lemma chunk_text_returns_on_short_words_witness :
  exists chunks,
    chunk_text
      (length (normalize
                 (of_string "  Hello   world. This is  a test! Another sentence here?  ")))
      (of_string "  Hello   world. This is  a test! Another sentence here?  ")
      12 3 = Some chunks.
Proof.
  apply (chunk_text_returns_on_short_words
           (of_string "  Hello   world. This is  a test! Another sentence here?  ")
           12 3).
  - vm_compute; split; discriminate.
  - apply Forall_forall. intros w Hw. vm_compute in Hw.
    repeat (destruct Hw as [<-|Hw]; [vm_compute; reflexivity|]).
    contradiction.
Defined.

End ChunkerTermination.

(** * Reading a PDF and chunking it *)

Section HeaderStall.

Lemma plain_clean w : plain w -> clean w.
Proof. apply Forall_impl. intros x [H _]; exact H. Qed.

(** A normalised text that opens with a short header, a space and then a long
    run without spaces or terminators: the first window is cut after that
    space, and with [overlap] at least as long as the header the next window
    starts at 0 again. *)
Lemma header_stalls text head body tail chunk_size overlap :
  text = head ++ SP :: body ++ tail ->
  Forall (fun x => ~ is_terminator x) head ->
  Forall (fun x => x <> SP /\ ~ is_terminator x) body ->
  len head + 1 <= chunk_size < len head + 1 + len body ->
  len head + 1 <= overlap ->
  0 < len text /\ next_start text chunk_size overlap 0 = 0.
Proof.
  intros -> Hhead Hbody Hc Ho.
  set (text := head ++ SP :: body ++ tail).
  assert (Hlen : len head + 1 + len body <= len text).
  { unfold text. rewrite len_app.
    change (SP :: body ++ tail) with ([SP] ++ body ++ tail).
    rewrite !len_app. change (len [SP]) with 1. pose proof (len_nonneg tail). lia. }
  pose proof (len_nonneg head) as Hh0.
  split; [lia|].
  assert (Hat : forall i x, 0 <= i < chunk_size ->
                nth_error text (Z.to_nat i) = Some x ->
                (i < len head /\ In x head) \/ (i = len head /\ x = SP)
                \/ (len head < i /\ In x body)).
  { intros i x Hi Hx. unfold text in Hx.
    destruct (Z_lt_le_dec i (len head)) as [Hlt|Hge].
    - left. split; [exact Hlt|].
      rewrite nth_error_app1 in Hx by (unfold len in *; lia).
      eapply nth_error_In; eauto.
    - rewrite nth_error_app2 in Hx by (unfold len in *; lia).
      destruct (Z.eq_dec i (len head)) as [->|Hne].
      + right; left. split; [reflexivity|].
        replace (Z.to_nat (len head) - length head)%nat with 0%nat in Hx
          by (unfold len; lia).
        simpl in Hx. congruence.
      + right; right. split; [lia|].
        replace (Z.to_nat i - length head)%nat
          with (S (Z.to_nat (i - len head - 1))) in Hx by (unfold len in *; lia).
        simpl in Hx.
        rewrite nth_error_app1 in Hx by (unfold len in *; lia).
        eapply nth_error_In; eauto. }
  assert (Hnoterm : forall c, is_terminator c ->
            rfind_in [c] text 0 (0 + chunk_size) = -1).
  { intros c Hterm.
    rfind_facts text 0 (0 + chunk_size) c H.
    destruct H as [[H _]|(Hr & Hnth & _)]; [exact H|].
    exfalso. rewrite Forall_forall in Hhead, Hbody.
    assert (Hi : 0 <= rfind_in [c] text 0 (0 + chunk_size) < chunk_size) by lia.
    destruct (Hat _ _ Hi Hnth) as [[_ Hin]|[[_ ->]|[_ Hin]]].
    - apply (Hhead _ Hin Hterm).
    - destruct Hterm as [E|[E|E]]; discriminate.
    - apply (Hbody _ Hin), Hterm. }
  assert (Hspace : rfind_in [SP] text 0 (0 + chunk_size) = len head).
  { rfind_facts text 0 (0 + chunk_size) SP H.
    assert (Hsp : nth_error text (Z.to_nat (len head)) = Some SP).
    { unfold text, len. rewrite Nat2Z.id, nth_error_app2, Nat.sub_diag by lia.
      reflexivity. }
    destruct H as [[_ H]|(Hr & Hnth & Hafter)].
    - exfalso. apply (H (len head)); [lia|exact Hsp].
    - rewrite Forall_forall in Hbody.
      assert (Hi : 0 <= rfind_in [SP] text 0 (0 + chunk_size) < chunk_size) by lia.
      destruct (Hat _ _ Hi Hnth) as [[Hlt _]|[[E _]|[_ Hin]]].
      + exfalso. apply (Hafter (len head)); [lia|exact Hsp].
      + exact E.
      + exfalso. destruct (Hbody _ Hin) as [Hx _]. apply Hx. reflexivity. }
  unfold next_start, window_end.
  change DOT with [46%N]; change QMARK with [63%N];
    change BANG with [33%N]; change SPACE with [SP].
  rewrite (Hnoterm 46%N) by (left; reflexivity).
  rewrite (Hnoterm 63%N) by (right; left; reflexivity).
  rewrite (Hnoterm 33%N) by (right; right; reflexivity).
  rewrite Hspace.
  replace (0 + chunk_size <? len text) with true by (symmetry; apply Z.ltb_lt; lia).
  change (negb (Z.max (Z.max (-1) (-1)) (-1) =? -1)) with false.
  cbv beta iota. rewrite andb_false_l.
  replace (len head =? -1) with false by (symmetry; apply Z.eqb_neq; lia).
  cbn [negb]. cbv iota.
  destruct (Z.ltb_spec (len head + 1 - overlap) 0); lia.
Qed.

Lemma page_texts_acc pages : forall page_num full_text,
  PDFFiles.page_texts page_num pages full_text
  = full_text ++ PDFFiles.page_texts page_num pages [].
Proof.
  induction pages as [|text rest IH]; intros page_num full_text;
    cbn [PDFFiles.page_texts].
  - symmetry; apply app_nil_r.
  - rewrite IH. rewrite (IH _ ([] ++ _)). cbn [app].
    rewrite <- app_assoc. reflexivity.
Qed.

(** The normalised text of a PDF whose first page is one unbroken run. *)
Lemma first_page_normalized body rest :
  plain body -> body <> [] ->
  exists tail,
    normalize (PDFFiles.page_texts 0 (body :: rest) [])
    = of_string "Page 1:" ++ SP :: body ++ tail.
Proof.
  intros Hplain Hne.
  cbn [PDFFiles.page_texts]. rewrite page_texts_acc.
  set (others := PDFFiles.page_texts (0 + 1) rest []).
  rewrite normalize_words_joined. unfold words_joined.
  change ([] ++ of_string "Page " ++ str_of_int (0 + 1) ++ of_string ":" ++ [NL]
             ++ body ++ [NL; NL])
    with (of_string "Page" ++ SP :: (of_string "1:" ++ NL :: (body ++ [NL; NL]))).
  rewrite <- !app_assoc. cbn [app].
  rewrite (words_clean_then_space (of_string "Page"));
    [|repeat constructor|discriminate|reflexivity].
  repeat (rewrite <- app_assoc; cbn [app]).
  rewrite (words_clean_then_space (of_string "1:"));
    [|repeat constructor|discriminate|reflexivity].
  rewrite (words_clean_then_space body);
    [|apply plain_clean; exact Hplain|exact Hne|reflexivity].
  rewrite words_skip_space by reflexivity.
  rewrite !join_cons. cbn [is_nil].
  exists (if is_nil (words others) then [] else SP :: join [SP] (words others)).
  reflexivity.
Qed.

(** X8. Uploading a PDF whose first page is one unbroken run of 993 or more
    characters without whitespace and without ".", "?" or "!" never finishes:
    the text handed to the chunker begins "Page 1: ", the first window (1000
    characters) is cut after the space at index 7, and the next start is
    [max(0, 8 - 200) = 0] again. *)
Theorem unbroken_first_page_hangs_the_upload
    (vector : Type) (embed_content : list N -> vector)
    fuel files name path doc size body rest :
  files path = PDFFiles.Readable doc size ->
  PDFFiles.doc_pages doc = body :: rest ->
  plain body -> 993 <= len body ->
  PdfViewer.process_upload vector embed_content fuel files name path = None.
Proof.
  intros Hfile Hpages Hplain Hbody.
  unfold PdfViewer.process_upload, PDFFiles.load_pdf. rewrite Hfile, Hpages.
  assert (Hne : body <> []) by (intros ->; unfold len in Hbody; simpl in Hbody; lia).
  destruct (first_page_normalized body rest Hplain Hne) as [tail Hnorm].
  destruct (header_stalls _ (of_string "Page 1:") body tail 1000 200 Hnorm)
    as [Hpos Hstuck].
  - repeat constructor; intros [E|[E|E]]; discriminate.
  - apply Forall_forall. intros x Hx. unfold plain in Hplain.
    rewrite Forall_forall in Hplain.
    destruct (Hplain x Hx) as [Hsp Hterm]. split; [|exact Hterm].
    intros ->. discriminate.
  - change (len (of_string "Page 1:")) with 7. lia.
  - change (len (of_string "Page 1:")) with 7. lia.
  - unfold chunk_text.
    assert (Hlong : 1000 < len (normalize (PDFFiles.page_texts 0 (body :: rest) []))).
    { rewrite Hnorm, len_app.
      change (SP :: body ++ tail) with ([SP] ++ body ++ tail).
      rewrite !len_app. change (len (of_string "Page 1:")) with 7.
      change (len [SP]) with 1. pose proof (len_nonneg tail). lia. }
    destruct (Z.leb_spec (len (normalize (PDFFiles.page_texts 0 (body :: rest) [])))
                1000); [lia|].
    rewrite chunk_loop_stuck; [reflexivity|exact Hpos|exact Hstuck].
Qed.

Lemma unbroken_first_page_hangs_the_upload_witness :
  PdfViewer.process_upload nat (@length N) 500 sample_files
    (of_string "paper.pdf") (of_string "paper.pdf") = None.
Proof.
  apply (unbroken_first_page_hangs_the_upload nat (@length N) 500 sample_files
           (of_string "paper.pdf") (of_string "paper.pdf")
           {| PDFFiles.doc_metadata := [];
              PDFFiles.doc_pages := [repeat 120%N (Z.to_nat 993)] |} 4096
           (repeat 120%N (Z.to_nat 993)) []).
  - reflexivity.
  - reflexivity.
  - apply Forall_forall. intros x Hx. apply repeat_spec in Hx. subst x.
    split; [reflexivity|]. intros [E|[E|E]]; discriminate.
  - unfold len. rewrite repeat_length. lia.
Defined.

End HeaderStall.

(** * What an upload stores *)

Section UploadFacts.

Lemma auto_id_nth n i :
  (i < n)%nat ->
  nth_error (map (fun i => of_string "doc_" ++ str_of_int i) (range (Z.of_nat n))) i
  = Some (of_string "doc_" ++ str_of_N (N.of_nat i)).
Proof.
  intros Hi. unfold range. rewrite Nat2Z.id, map_map, nth_error_map, nth_error_seq.
  apply Nat.ltb_lt in Hi. rewrite Hi. cbn [option_map Nat.add].
  rewrite str_of_int_nat. reflexivity.
Qed.

Lemma str_of_N_injective a b : str_of_N a = str_of_N b -> a = b.
Proof.
  intros H. rewrite <- (int_of_digits_str_of_N a), <- (int_of_digits_str_of_N b).
  rewrite H. reflexivity.
Qed.

(** X9. The ids [add_documents] generates for one batch are pairwise
    distinct: no two documents of a call share an id. *)
Theorem generated_ids_are_distinct
    (vector : Type) (embed_content : list N -> vector)
    collection_name documents metadatas :
  NoDup (ChromaDBManager.add_ids
           (ChromaDBManager.add_documents vector embed_content
              collection_name documents metadatas None)).
Proof.
  unfold ChromaDBManager.add_documents. cbn [ChromaDBManager.add_ids].
  unfold range, len. rewrite Nat2Z.id, map_map.
  apply NoDup_map_NoDup_ForallPairs; [|apply seq_NoDup].
  intros a b _ _ E. apply app_inv_head in E.
  rewrite !str_of_int_nat in E. apply str_of_N_injective in E. lia.
Qed.

(** X10. What an upload hands to the collection "pdf_documents": the chunk at
    index [i] is at most 1000 characters long and trimmed, and it travels with
    the id "doc_i", the metadata [{source: name, chunk_index: i}] and its own
    embedding. *)
Theorem upload_stores_aligned_records
    (vector : Type) (embed_content : list N -> vector)
    fuel files name path call i chunk :
  PdfViewer.process_upload vector embed_content fuel files name path
  = Some (inr call) ->
  nth_error (ChromaDBManager.add_documents_ call) i = Some chunk ->
  ChromaDBManager.add_collection call = of_string "pdf_documents"
  /\ len chunk <= 1000 /\ trimmed chunk
  /\ nth_error (ChromaDBManager.add_ids call) i
     = Some (of_string "doc_" ++ str_of_N (N.of_nat i))
  /\ nth_error (ChromaDBManager.add_embeddings call) i = Some (embed_content chunk)
  /\ (exists metadatas,
        ChromaDBManager.add_metadatas call = Some metadatas
        /\ nth_error metadatas i
           = Some (PDict [(of_string "source", PStr name);
                          (of_string "chunk_index", PInt (Z.of_nat i))])).
Proof.
  unfold PdfViewer.process_upload.
  destruct (PDFFiles.load_pdf files path) as [e|[pdf_text pdf_metadata]];
    [discriminate|].
  destruct (chunk_text fuel pdf_text 1000 200) as [chunks|] eqn:Hrun;
    [|discriminate].
  intros E; injection E as <-.
  unfold RAGChain.add_documents, ChromaDBManager.add_documents.
  cbn [ChromaDBManager.add_documents_ ChromaDBManager.add_collection
       ChromaDBManager.add_ids ChromaDBManager.add_embeddings
       ChromaDBManager.add_metadatas].
  intros Hchunk.
  assert (Hi : (i < length chunks)%nat) by (apply nth_error_Some; congruence).
  pose proof (chunk_text_chunks fuel pdf_text 1000 200 chunks ltac:(lia) Hrun)
    as Hall.
  rewrite Forall_forall in Hall.
  destruct (Hall chunk (nth_error_In _ _ Hchunk)) as [Hlen Htrim].
  split; [reflexivity|]. split; [exact Hlen|]. split; [exact Htrim|].
  split; [apply auto_id_nth; exact Hi|].
  split; [rewrite get_embeddings_map, nth_error_map, Hchunk; reflexivity|].
  eexists. split; [reflexivity|].
  unfold range, len. rewrite Nat2Z.id, map_map, nth_error_map, nth_error_seq.
  apply Nat.ltb_lt in Hi. rewrite Hi. reflexivity.
Qed.

Lemma upload_stores_aligned_records_witness :
  ChromaDBManager.add_collection
    (ChromaDBManager.add_documents nat (@length N) (of_string "pdf_documents")
       [of_string "Page 1: Cells are small. Page 2: Plants make sugar."]
       (Some [PDict [(of_string "source", PStr (of_string "notes.pdf"));
                     (of_string "chunk_index", PInt 0)]]) None)
  = of_string "pdf_documents"
  /\ len (of_string "Page 1: Cells are small. Page 2: Plants make sugar.") <= 1000
  /\ trimmed (of_string "Page 1: Cells are small. Page 2: Plants make sugar.")
  /\ nth_error
       (ChromaDBManager.add_ids
          (ChromaDBManager.add_documents nat (@length N) (of_string "pdf_documents")
             [of_string "Page 1: Cells are small. Page 2: Plants make sugar."]
             (Some [PDict [(of_string "source", PStr (of_string "notes.pdf"));
                           (of_string "chunk_index", PInt 0)]]) None)) 0
     = Some (of_string "doc_" ++ str_of_N (N.of_nat 0))
  /\ nth_error
       (ChromaDBManager.add_embeddings
          (ChromaDBManager.add_documents nat (@length N) (of_string "pdf_documents")
             [of_string "Page 1: Cells are small. Page 2: Plants make sugar."]
             (Some [PDict [(of_string "source", PStr (of_string "notes.pdf"));
                           (of_string "chunk_index", PInt 0)]]) None)) 0
     = Some (length (of_string "Page 1: Cells are small. Page 2: Plants make sugar."))
  /\ (exists metadatas,
        ChromaDBManager.add_metadatas
          (ChromaDBManager.add_documents nat (@length N) (of_string "pdf_documents")
             [of_string "Page 1: Cells are small. Page 2: Plants make sugar."]
             (Some [PDict [(of_string "source", PStr (of_string "notes.pdf"));
                           (of_string "chunk_index", PInt 0)]]) None)
        = Some metadatas
        /\ nth_error metadatas 0
           = Some (PDict [(of_string "source", PStr (of_string "notes.pdf"));
                          (of_string "chunk_index", PInt (Z.of_nat 0))])).
Proof.
  apply (upload_stores_aligned_records nat (@length N) 10 sample_files
           (of_string "notes.pdf") (of_string "notes.pdf")).
  - vm_compute; reflexivity.
  - reflexivity.
Defined.

(** X11. Two uploads of a session collide: whatever the two files hold, their
    chunks at a common index go to the same collection under the same id. *)
Theorem uploads_reuse_the_same_ids
    (vector : Type) (embed_content : list N -> vector)
    fuel1 fuel2 files name1 path1 name2 path2 call1 call2 i chunk1 chunk2 :
  PdfViewer.process_upload vector embed_content fuel1 files name1 path1
  = Some (inr call1) ->
  PdfViewer.process_upload vector embed_content fuel2 files name2 path2
  = Some (inr call2) ->
  nth_error (ChromaDBManager.add_documents_ call1) i = Some chunk1 ->
  nth_error (ChromaDBManager.add_documents_ call2) i = Some chunk2 ->
  ChromaDBManager.add_collection call1 = ChromaDBManager.add_collection call2
  /\ exists id,
       nth_error (ChromaDBManager.add_ids call1) i = Some id
       /\ nth_error (ChromaDBManager.add_ids call2) i = Some id.
Proof.
  unfold PdfViewer.process_upload.
  destruct (PDFFiles.load_pdf files path1) as [e|[text1 meta1]]; [discriminate|].
  destruct (PDFFiles.load_pdf files path2) as [e|[text2 meta2]]; [discriminate|].
  destruct (chunk_text fuel1 text1 1000 200) as [chunks1|]; [|discriminate].
  destruct (chunk_text fuel2 text2 1000 200) as [chunks2|]; [|discriminate].
  intros E1 E2; injection E1 as <-; injection E2 as <-.
  unfold RAGChain.add_documents, ChromaDBManager.add_documents.
  cbn [ChromaDBManager.add_documents_ ChromaDBManager.add_collection
       ChromaDBManager.add_ids].
  intros H1 H2.
  assert (Hi1 : (i < length chunks1)%nat) by (apply nth_error_Some; congruence).
  assert (Hi2 : (i < length chunks2)%nat) by (apply nth_error_Some; congruence).
  split; [reflexivity|].
  exists (of_string "doc_" ++ str_of_N (N.of_nat i)).
  split; apply auto_id_nth; assumption.
Qed.

Lemma uploads_reuse_the_same_ids_witness :
  exists call1 call2,
    PdfViewer.process_upload nat (@length N) 10 sample_files
      (of_string "notes.pdf") (of_string "notes.pdf") = Some (inr call1)
    /\ PdfViewer.process_upload nat (@length N) 10 sample_files
         (of_string "lab.pdf") (of_string "lab.pdf") = Some (inr call2)
    /\ ChromaDBManager.add_documents_ call1 <> ChromaDBManager.add_documents_ call2
    /\ ChromaDBManager.add_collection call1 = ChromaDBManager.add_collection call2
    /\ exists id,
         nth_error (ChromaDBManager.add_ids call1) 0 = Some id
         /\ nth_error (ChromaDBManager.add_ids call2) 0 = Some id.
Proof.
  eexists. eexists.
  split; [vm_compute; reflexivity|].
  split; [vm_compute; reflexivity|].
  split; [vm_compute; discriminate|].
  eapply (uploads_reuse_the_same_ids nat (@length N) 10 10 sample_files
            (of_string "notes.pdf") (of_string "notes.pdf")
            (of_string "lab.pdf") (of_string "lab.pdf"));
    vm_compute; reflexivity.
Defined.

End UploadFacts.

(** * More about the response parsers *)

Section ParserFallback.

Lemma skipn_In {A} (l : list A) n x : In x (skipn n l) -> In x l.
Proof.
  revert l; induction n as [|n IH]; intros [|y l]; simpl; auto.
Qed.

Lemma starts_with_incl sub s x : starts_with sub s = true -> In x sub -> In x s.
Proof.
  revert s; induction sub as [|y sub IH]; intros [|z s]; simpl;
    try contradiction; try discriminate.
  intros H [<-|Hx]; apply andb_true_iff in H as [Hy Hs].
  - apply N.eqb_eq in Hy. left; symmetry; exact Hy.
  - right. apply IH; assumption.
Qed.

(** A needle that is found lies in the string, character by character. *)
Lemma contains_chars sub s x : contains sub s = true -> In x sub -> In x s.
Proof.
  unfold contains. intros H Hx. apply Z.leb_le in H.
  destruct (find_match sub s) as [E|(k & _ & Hm)]; [lia|].
  unfold match_at in Hm. eapply skipn_In, starts_with_incl; eauto.
Qed.

(** A match turns [in] true. *)
Lemma match_contains sub s k :
  sub <> [] -> match_at sub s k = true -> contains sub s = true.
Proof.
  intros Hne H. unfold contains. apply Z.leb_le.
  apply (find_first sub s k Hne H).
Qed.

Lemma split_go_nonempty sep : forall s budget skip cur,
  split_go sep budget skip cur s <> [].
Proof.
  induction s as [|c t IH]; intros budget skip cur; simpl; [discriminate|].
  destruct skip; [|apply IH].
  destruct (_ && starts_with sep (c :: t)); [discriminate|apply IH].
Qed.

(** Splitting at a separator that occurs gives at least two pieces, as long as
    one split is allowed. *)
Lemma split_go_two sep budget :
  sep <> [] -> budget <> Some 0%nat -> forall s cur,
  contains sep s = true -> (2 <= length (split_go sep budget 0 cur s))%nat.
Proof.
  intros Hne Hbudget. induction s as [|c t IH]; intros cur Hin.
  - exfalso. unfold contains in Hin. apply Z.leb_le in Hin.
    destruct (find_match sep []) as [E|(k & _ & Hm)]; [lia|].
    apply match_at_inside in Hm; [|exact Hne].
    destruct sep; [contradiction|]. simpl in Hm. lia.
  - cbn [split_go].
    replace (match budget with Some 0%nat => false | _ => true end) with true
      by (destruct budget as [[|n]|]; [contradiction|reflexivity|reflexivity]).
    cbn [andb].
    destruct (starts_with sep (c :: t)) eqn:Hs.
    + cbn [length].
      pose proof (split_go_nonempty sep t (option_map Nat.pred budget)
                    (Nat.pred (length sep)) []) as Hrest.
      destruct (split_go sep (option_map Nat.pred budget) (Nat.pred (length sep)) [] t);
        [contradiction|simpl; lia].
    + apply IH. unfold contains in Hin. apply Z.leb_le in Hin.
      destruct (find_match sep (c :: t)) as [E|(k & _ & Hm)]; [lia|].
      destruct k as [|k]; [unfold match_at in Hm; simpl in Hm; congruence|].
      apply (match_contains sep t k Hne). exact Hm.
Qed.

Lemma split_two sep s :
  sep <> [] -> contains sep s = true ->
  exists first second rest, split sep s = first :: second :: rest.
Proof.
  intros Hne Hin.
  pose proof (split_go_two sep None Hne ltac:(discriminate) s [] Hin) as H.
  unfold split. destruct (split_go sep None 0 [] s) as [|a [|b r]];
    simpl in H; try lia. eauto.
Qed.

Lemma split_max_two sep s :
  sep <> [] -> contains sep s = true ->
  exists first second rest, split_max sep 1 s = first :: second :: rest.
Proof.
  intros Hne Hin.
  pose proof (split_go_two sep (Some 1%nat) Hne ltac:(discriminate) s [] Hin) as H.
  unfold split_max. destruct (split_go sep (Some 1%nat) 0 [] s) as [|a [|b r]];
    simpl in H; try lia. eauto.
Qed.

Lemma parse_options_trimmed options_text :
  Forall trimmed (MCQGenerator.parse_options options_text).
Proof.
  unfold MCQGenerator.parse_options.
  enough (forall markers acc, Forall trimmed acc ->
            Forall trimmed
              (fold_left
                 (fun options opt =>
                    if contains opt options_text then
                      options ++
                      [strip (slice options_text (find opt options_text)
                                (match List.find
                                         (fun o => str_ltb opt o
                                                   && contains o options_text)
                                         MCQGenerator.OPTION_MARKERS with
                                 | Some o => find o options_text
                                 | None => len options_text
                                 end))]
                    else options) markers acc)) as H
      by (apply H; constructor).
  induction markers as [|opt markers IH]; intros acc Hacc; simpl; [exact Hacc|].
  apply IH. destruct (contains opt options_text); [|exact Hacc].
  apply Forall_app. split; [exact Hacc|].
  constructor; [apply strip_trimmed|constructor].
Qed.

(** A block that passes the marker test always yields a record. *)
Lemma parse_block_defined lower q :
  MCQGenerator.has_markers q = true ->
  exists m, MCQGenerator.parse_block lower q = Some m /\ heuristic_record m.
Proof.
  unfold MCQGenerator.has_markers. intros H.
  apply andb_true_iff in H as [H _]. apply andb_true_iff in H as [H _].
  destruct (split_two (of_string "?") q ltac:(discriminate) H)
    as (first & second & rest & Hsplit).
  unfold MCQGenerator.parse_block. rewrite Hsplit. cbn [nth_error].
  eexists. split; [reflexivity|].
  do 3 eexists. split; [reflexivity|].
  split; [apply strip_trimmed|apply parse_options_trimmed].
Qed.

Lemma parse_blocks_defined lower : forall questions mcqs,
  Forall heuristic_record mcqs ->
  exists found,
    MCQGenerator.parse_blocks lower questions mcqs = Some (mcqs ++ found)
    /\ length found = length (filter MCQGenerator.has_markers questions)
    /\ Forall heuristic_record found.
Proof.
  induction questions as [|q rest IH]; intros mcqs Hacc; cbn [MCQGenerator.parse_blocks filter].
  - exists []. rewrite app_nil_r. repeat split. constructor.
  - destruct (MCQGenerator.has_markers q) eqn:Hq.
    + destruct (parse_block_defined lower q Hq) as (m & -> & Hm).
      destruct (IH (mcqs ++ [m])) as (found & -> & Hlen & Hall).
      { apply Forall_app. split; [exact Hacc|repeat constructor; exact Hm]. }
      exists (m :: found). rewrite <- app_assoc. split; [reflexivity|].
      split; [simpl; rewrite Hlen; reflexivity|constructor; assumption].
    + apply IH. exact Hacc.
Qed.

Lemma slice_prefix_length {A} (l : list A) n :
  0 <= n -> len (slice l 0 n) <= n.
Proof.
  intros Hn. pose proof (slice_len_le l 0 n ltac:(pose proof (len_nonneg l); lia) Hn).
  lia.
Qed.

Lemma filter_length_le {A} (f : A -> bool) l :
  (length (filter f l) <= length l)%nat.
Proof.
  induction l as [|x l IH]; simpl; [lia|]. destruct (f x); simpl; lia.
Qed.

(** X12. On a response without any "[{" the quiz parser never falls back to
    the placeholder: it returns one record per block, among the first
    [num_questions] blocks separated by blank lines, that holds "?", "A." and
    "B."; each record has the four keys, a trimmed question and trimmed
    options, and there are at most [num_questions] of them. *)
Theorem heuristic_quiz_never_raises json_loads lower response num_questions :
  contains (of_string "[{") response = false ->
  0 <= num_questions ->
  exists mcqs,
    MCQGenerator.generate_mcqs json_loads lower response num_questions
    = PList mcqs
    /\ length mcqs
       = length (filter MCQGenerator.has_markers
                   (slice (split BLANK_LINE response) 0 num_questions))
    /\ len mcqs <= num_questions
    /\ Forall heuristic_record mcqs.
Proof.
  intros Hno Hn.
  unfold MCQGenerator.generate_mcqs, MCQGenerator.try_parse.
  unfold contains in Hno. apply Z.leb_gt in Hno.
  replace (0 <=? find (of_string "[{") response) with false
    by (symmetry; apply Z.leb_gt; exact Hno).
  cbn [andb].
  destruct (parse_blocks_defined lower
              (slice (split BLANK_LINE response) 0 num_questions) [])
    as (found & Hrun & Hlen & Hall); [constructor|].
  rewrite Hrun. exists found. cbn [app]. split; [reflexivity|].
  split; [exact Hlen|]. split; [|exact Hall].
  pose proof (filter_length_le MCQGenerator.has_markers
                (slice (split BLANK_LINE response) 0 num_questions)).
  pose proof (slice_prefix_length (split BLANK_LINE response) num_questions Hn).
  unfold len in *. lia.
Qed.

Lemma heuristic_quiz_never_raises_witness :
  exists mcqs,
    MCQGenerator.generate_mcqs sample_loads ascii_lower
      (of_string "Capital of France? A. Paris B. Rome" ++ BLANK_LINE
       ++ of_string "Thanks for asking.") 5
    = PList mcqs
    /\ length mcqs
       = length (filter MCQGenerator.has_markers
                   (slice (split BLANK_LINE
                             (of_string "Capital of France? A. Paris B. Rome"
                              ++ BLANK_LINE ++ of_string "Thanks for asking."))
                      0 5))
    /\ len mcqs <= 5
    /\ Forall heuristic_record mcqs.
Proof.
  apply (heuristic_quiz_never_raises sample_loads ascii_lower
           (of_string "Capital of France? A. Paris B. Rome" ++ BLANK_LINE
            ++ of_string "Thanks for asking.") 5).
  - vm_compute; reflexivity.
  - lia.
Defined.

Lemma ascii_lower_no_upper s c : In c (ascii_lower s) -> ~ is_upper c.
Proof.
  unfold ascii_lower, is_upper. intros H. apply in_map_iff in H as (x & <- & _).
  destruct ((65 <=? x) && (x <=? 90))%N eqn:E.
  - apply andb_true_iff in E as [E1 E2].
    apply N.leb_le in E1, E2. lia.
  - apply andb_false_iff in E as [E|E]; apply N.leb_gt in E; lia.
Qed.

(** X13. The heuristic path always reports "A" as the correct answer: it looks
    for "correct answer is B" (and "correct: B"), with the capital letter, in
    the lower-cased block, where no capital letter is left. *)
Theorem heuristic_correct_answer_is_always_A lower q :
  (forall c, In c (lower q) -> ~ is_upper c) ->
  MCQGenerator.correct_answer lower q = of_string "A".
Proof.
  intros Hlow. unfold MCQGenerator.correct_answer.
  destruct (contains (of_string "correct") (lower q)); [|reflexivity].
  assert (Hnone : forall letter : N, is_upper letter ->
            contains (of_string "correct answer is " ++ [letter]) (lower q)
            || contains (of_string "correct: " ++ [letter]) (lower q) = false).
  { intros letter Hup. apply orb_false_iff. split.
    - destruct (contains (of_string "correct answer is " ++ [letter]) (lower q))
        eqn:E; [|reflexivity].
      exfalso. apply (Hlow letter); [|exact Hup].
      eapply contains_chars; [exact E|]. apply in_or_app. right. left. reflexivity.
    - destruct (contains (of_string "correct: " ++ [letter]) (lower q))
        eqn:E; [|reflexivity].
      exfalso. apply (Hlow letter); [|exact Hup].
      eapply contains_chars; [exact E|]. apply in_or_app. right. left. reflexivity. }
  unfold MCQGenerator.OPTION_LETTERS. cbn [List.find].
  change (of_string "A") with [65%N]. change (of_string "B") with [66%N].
  change (of_string "C") with [67%N]. change (of_string "D") with [68%N].
  rewrite (Hnone 65%N), (Hnone 66%N), (Hnone 67%N), (Hnone 68%N);
    try reflexivity; unfold is_upper; lia.
Qed.

Lemma heuristic_correct_answer_is_always_A_witness :
  MCQGenerator.correct_answer ascii_lower
    (of_string "What is 2+2? A. 3 B. 4 The correct answer is B")
  = of_string "A".
Proof.
  apply (heuristic_correct_answer_is_always_A ascii_lower
           (of_string "What is 2+2? A. 3 B. 4 The correct answer is B")).
  intros c. apply ascii_lower_no_upper.
Defined.

(** With a lower-casing that invents no colon, a line that holds "front:" or
    "back:" once lower-cased holds a colon, and splitting at it gives a value. *)
Lemma colon_value lower line marker :
  (forall s, In 58%N (lower s) -> In 58%N s) ->
  In 58%N marker ->
  contains marker (lower line) = true ->
  exists value, nth_error (split_max (of_string ":") 1 line) 1 = Some value.
Proof.
  intros Hcolon Hmarker Hin.
  assert (Hline : contains (of_string ":") line = true).
  { apply (contains_char_complete 58%N). apply Hcolon.
    eapply contains_chars; eauto. }
  destruct (split_max_two (of_string ":") line ltac:(discriminate) Hline)
    as (first & second & rest & ->).
  exists second. reflexivity.
Qed.

Lemma read_lines_defined lower :
  (forall s, In 58%N (lower s) -> In 58%N s) ->
  forall lines front back,
    trimmed front -> trimmed back ->
    exists front' back',
      RevisionHelper.read_lines lower lines front back = Some (front', back')
      /\ trimmed front' /\ trimmed back'.
Proof.
  intros Hcolon.
  induction lines as [|line rest IH]; intros front back Hf Hb;
    cbn [RevisionHelper.read_lines].
  - eauto.
  - destruct (contains (of_string "front:") (lower line)) eqn:Efront.
    + destruct (colon_value lower line (of_string "front:") Hcolon) as [value ->];
        [do 5 right; left; reflexivity|exact Efront|].
      apply IH; [apply strip_trimmed|exact Hb].
    + destruct (contains (of_string "back:") (lower line)) eqn:Eback.
      * destruct (colon_value lower line (of_string "back:") Hcolon) as [value ->];
          [do 4 right; left; reflexivity|exact Eback|].
        apply IH; [exact Hf|apply strip_trimmed].
      * apply IH; assumption.
Qed.

Lemma nil_trimmed : trimmed [].
Proof. split; [intros x t E; discriminate|intros [|y t] x E; discriminate]. Qed.

Lemma parse_cards_defined lower :
  (forall s, In 58%N (lower s) -> In 58%N s) ->
  forall cards flashcards,
    Forall heuristic_card flashcards ->
    exists result,
      RevisionHelper.parse_cards lower cards flashcards = Some result
      /\ Forall heuristic_card result
      /\ (length result
          <= length flashcards
             + length (filter (fun card =>
                                 contains (of_string "front") (lower card)
                                 && contains (of_string "back") (lower card))
                              cards))%nat.
Proof.
  intros Hcolon.
  induction cards as [|card rest IH]; intros flashcards Hacc;
    cbn [RevisionHelper.parse_cards filter].
  - exists flashcards. split; [reflexivity|]. split; [exact Hacc|simpl; lia].
  - destruct (contains (of_string "front") (lower card)
              && contains (of_string "back") (lower card)).
    + destruct (read_lines_defined lower Hcolon (split [NL] card) [] []
                  nil_trimmed nil_trimmed) as (front & back & -> & Hf & Hb).
      destruct (truthy front && truthy back) eqn:Ht.
      * destruct (IH (flashcards
                        ++ [PDict [(of_string "front", PStr front);
                                   (of_string "back", PStr back)]]))
          as (result & Hrun & Hall & Hlen).
        -- apply Forall_app. split; [exact Hacc|]. repeat constructor.
           exists front, back. apply andb_true_iff in Ht as [Ht1 Ht2].
           split; [reflexivity|].
           split; [intros ->; discriminate|].
           split; [intros ->; discriminate|]. split; assumption.
        -- exists result. split; [exact Hrun|]. split; [exact Hall|].
           rewrite length_app in Hlen. cbn [length] in *. lia.
      * destruct (IH flashcards Hacc) as (result & Hrun & Hall & Hlen).
        exists result. split; [exact Hrun|]. split; [exact Hall|].
        cbn [length]. lia.
    + destruct (IH flashcards Hacc) as (result & Hrun & Hall & Hlen).
      exists result. split; [exact Hrun|]. split; [exact Hall|exact Hlen].
Qed.

(** X14. On a response without any "[{" the flashcard parser never reaches
    its [except] handler (given a lower-casing that invents no colon, as
    [str.lower] is): the body of the [try] returns a list of cards, which is
    the result. It has at most one card per block that names "front" and
    "back" among the first [num_cards] blocks, so at most [num_cards] cards,
    and none for a response without such a block; every card has a front and
    a back that are trimmed and not empty, a block with only one of the two
    being dropped. *)
Theorem heuristic_flashcards_are_complete json_loads lower response num_cards :
  (forall s, In 58%N (lower s) -> In 58%N s) ->
  contains (of_string "[{") response = false ->
  0 <= num_cards ->
  exists cards,
    RevisionHelper.try_parse json_loads lower response num_cards
    = Some (PList cards)
    /\ RevisionHelper.generate_flashcards json_loads lower response num_cards
       = PList cards
    /\ (length cards
        <= length (filter (fun card =>
                             contains (of_string "front") (lower card)
                             && contains (of_string "back") (lower card))
                          (slice (split BLANK_LINE response) 0 num_cards)))%nat
    /\ len cards <= num_cards
    /\ Forall heuristic_card cards.
Proof.
  intros Hcolon Hno Hn.
  unfold RevisionHelper.generate_flashcards, RevisionHelper.try_parse.
  unfold contains in Hno. apply Z.leb_gt in Hno.
  replace (0 <=? find (of_string "[{") response) with false
    by (symmetry; apply Z.leb_gt; exact Hno).
  cbn [andb].
  destruct (parse_cards_defined lower Hcolon
              (slice (split BLANK_LINE response) 0 num_cards) [] (Forall_nil _))
    as (cards & -> & Hall & Hlen).
  exists cards. split; [reflexivity|]. split; [reflexivity|].
  cbn [length Nat.add] in Hlen. split; [exact Hlen|]. split; [|exact Hall].
  pose proof (slice_prefix_length (split BLANK_LINE response) num_cards Hn).
  pose proof (filter_length_le
                (fun card => contains (of_string "front") (lower card)
                             && contains (of_string "back") (lower card))
                (slice (split BLANK_LINE response) 0 num_cards)).
  unfold len in *. lia.
Qed.

Lemma ascii_lower_colon s : In 58%N (ascii_lower s) -> In 58%N s.
Proof.
  unfold ascii_lower. intros H. apply in_map_iff in H as (x & E & Hx).
  destruct ((65 <=? x) && (x <=? 90))%N eqn:B.
  - apply andb_true_iff in B as [B1 B2]. apply N.leb_le in B1, B2. lia.
  - subst x. exact Hx.
Qed.

Lemma heuristic_flashcards_are_complete_witness :
  exists cards,
    RevisionHelper.try_parse sample_loads ascii_lower
      (of_string "Front: What is ATP?" ++ [NL] ++ of_string "Back: Energy currency"
       ++ BLANK_LINE ++ of_string "Front: orphan") 10
    = Some (PList cards)
    /\ RevisionHelper.generate_flashcards sample_loads ascii_lower
         (of_string "Front: What is ATP?" ++ [NL] ++ of_string "Back: Energy currency"
          ++ BLANK_LINE ++ of_string "Front: orphan") 10
       = PList cards
    /\ (length cards
        <= length (filter (fun card =>
                             contains (of_string "front") (ascii_lower card)
                             && contains (of_string "back") (ascii_lower card))
                          (slice (split BLANK_LINE
                                    (of_string "Front: What is ATP?" ++ [NL]
                                     ++ of_string "Back: Energy currency"
                                     ++ BLANK_LINE ++ of_string "Front: orphan"))
                                 0 10)))%nat
    /\ len cards <= 10
    /\ Forall heuristic_card cards.
Proof.
  apply (heuristic_flashcards_are_complete sample_loads ascii_lower
           (of_string "Front: What is ATP?" ++ [NL] ++ of_string "Back: Energy currency"
            ++ BLANK_LINE ++ of_string "Front: orphan") 10).
  - apply ascii_lower_colon.
  - vm_compute; reflexivity.
  - lia.
Defined.

End ParserFallback.

(** * JSON inside prose *)

Section EmbeddedPayload.

Lemma find_at_first_match sub s k :
  sub <> [] -> match_at sub s k = true ->
  (forall i, (i < k)%nat -> match_at sub s i = false) ->
  find sub s = Z.of_nat k.
Proof.
  intros Hne Hk Hbefore. pose proof (find_first sub s k Hne Hk) as Hle.
  destruct (find_match sub s) as [E|(j & E & Hj)]; [lia|].
  destruct (Nat.lt_ge_cases j k) as [Hlt|Hge]; [|lia].
  rewrite (Hbefore j Hlt) in Hj. discriminate.
Qed.

Lemma rfind_at_last_match sub s k :
  sub <> [] -> match_at sub s k = true ->
  (forall i, (k < i)%nat -> match_at sub s i = false) ->
  rfind sub s = Z.of_nat k.
Proof.
  intros Hne Hk Hafter. pose proof (rfind_last sub s k Hne Hk) as Hle.
  destruct (rfind_match sub s) as [E|(j & E & Hj)]; [lia|].
  destruct (Nat.lt_ge_cases k j) as [Hlt|Hge]; [|lia].
  rewrite (Hafter j Hlt) in Hj. discriminate.
Qed.

Lemma match_at_two_iff a b s i :
  match_at [a; b] s i = true
  <-> nth_error s i = Some a /\ nth_error s (S i) = Some b.
Proof.
  split; [apply match_at_two|].
  unfold match_at. revert i; induction s as [|y s IH]; intros [|i] [H1 H2];
    simpl in *; try discriminate.
  - destruct s as [|z s]; [discriminate|]. simpl in H2.
    injection H1 as ->. injection H2 as ->.
    rewrite !N.eqb_refl. reflexivity.
  - apply IH. split; assumption.
Qed.

Lemma no_match_without sub s i :
  sub <> [] -> contains sub s = false -> match_at sub s i = false.
Proof.
  intros Hne Hno. destruct (match_at sub s i) eqn:E; [|reflexivity].
  pose proof (find_first sub s i Hne E). unfold contains in Hno.
  apply Z.leb_gt in Hno. lia.
Qed.

Lemma starts_with_form sub s :
  starts_with sub s = true -> exists tail, s = sub ++ tail.
Proof.
  revert s; induction sub as [|x sub IH]; intros s H.
  - exists s. reflexivity.
  - destruct s as [|y s]; [discriminate|]. simpl in H.
    apply andb_true_iff in H as [Hx H]. apply N.eqb_eq in Hx. subst y.
    destruct (IH s H) as [tail ->]. exists tail. reflexivity.
Qed.

Lemma ends_with_form sub s :
  ends_with sub s = true -> exists front, s = front ++ sub.
Proof.
  unfold ends_with. intros H. apply andb_true_iff in H as [Hle H].
  apply Nat.leb_le in Hle. apply starts_with_form in H as [tail Htail].
  assert (Hlen : length (skipn (length s - length sub) s) = length sub)
    by (rewrite length_skipn; lia).
  rewrite Htail, length_app in Hlen.
  destruct tail; [|simpl in Hlen; lia]. rewrite app_nil_r in Htail.
  exists (firstn (length s - length sub) s).
  rewrite <- Htail at 2. symmetry. apply firstn_skipn.
Qed.

(** The piece between two indices of a concatenation. *)
Lemma slice_middle {A} (a b c : list A) :
  slice (a ++ b ++ c) (len a) (len a + len b) = b.
Proof.
  unfold slice. pose proof (len_nonneg a). pose proof (len_nonneg b).
  pose proof (len_nonneg c).
  rewrite !adjust_inside by (rewrite !len_app; lia).
  replace (len a + len b - len a) with (len b) by lia.
  unfold len. rewrite !Nat2Z.id.
  rewrite skipn_app, skipn_all, Nat.sub_diag. cbn [app skipn].
  rewrite firstn_app, firstn_all, Nat.sub_diag. cbn [firstn].
  apply app_nil_r.
Qed.

(** The first occurrence of a two-character needle, when the text before it
    holds none. *)
Lemma find_two_embedded a b prefix tail :
  a <> b -> contains [a; b] prefix = false ->
  find [a; b] (prefix ++ [a; b] ++ tail) = len prefix.
Proof.
  intros Hab Hno. apply find_at_first_match; [discriminate| |].
  - apply match_at_two_iff. split.
    + rewrite nth_error_app2 by lia. rewrite Nat.sub_diag. reflexivity.
    + rewrite nth_error_app2 by lia.
      replace (S (length prefix) - length prefix)%nat with 1%nat by lia.
      reflexivity.
  - intros i Hi. destruct (match_at [a; b] _ i) eqn:E; [|reflexivity].
    exfalso. apply match_at_two_iff in E as [E1 E2].
    rewrite nth_error_app1 in E1 by lia.
    destruct (Nat.eq_dec (S i) (length prefix)) as [Hlast|Hin].
    + rewrite nth_error_app2 in E2 by lia.
      rewrite Hlast, Nat.sub_diag in E2. simpl in E2. congruence.
    + rewrite nth_error_app1 in E2 by lia.
      assert (Hm : match_at [a; b] prefix i = true)
        by (apply match_at_two_iff; split; assumption).
      rewrite no_match_without in Hm; [discriminate|discriminate|exact Hno].
Qed.

(** The last occurrence of a two-character needle, when the text after it
    holds none. *)
Lemma rfind_two_embedded a b body suffix :
  a <> b -> contains [a; b] suffix = false ->
  rfind [a; b] (body ++ [a; b] ++ suffix) = len body.
Proof.
  intros Hab Hno. apply rfind_at_last_match; [discriminate| |].
  - apply match_at_two_iff. split.
    + rewrite nth_error_app2 by lia. rewrite Nat.sub_diag. reflexivity.
    + rewrite nth_error_app2 by lia.
      replace (S (length body) - length body)%nat with 1%nat by lia.
      reflexivity.
  - intros i Hi. destruct (match_at [a; b] _ i) eqn:E; [|reflexivity].
    exfalso. apply match_at_two_iff in E as [E1 E2].
    rewrite nth_error_app2 in E1, E2 by lia.
    destruct (Nat.eq_dec i (S (length body))) as [Hnext|Hin].
    + replace (i - length body)%nat with 1%nat in E1 by lia.
      simpl in E1. congruence.
    + replace (i - length body)%nat with (S (S (i - length body - 2))) in E1 by lia.
      replace (S i - length body)%nat with (S (S (S (i - length body - 2))))
        in E2 by lia.
      cbn [app nth_error] in E1, E2.
      assert (Hm : match_at [a; b] suffix (i - length body - 2) = true)
        by (apply match_at_two_iff; split; assumption).
      rewrite no_match_without in Hm; [discriminate|discriminate|exact Hno].
Qed.

(** The same for a one-character needle. *)
Lemma find_char_embedded c prefix tail :
  ~ In c prefix -> find [c] (prefix ++ c :: tail) = len prefix.
Proof.
  intros Hno. apply find_at_first_match; [discriminate| |].
  - apply match_at_char. rewrite nth_error_app2 by lia.
    rewrite Nat.sub_diag. reflexivity.
  - intros i Hi. destruct (match_at [c] _ i) eqn:E; [|reflexivity].
    exfalso. apply match_at_char in E. rewrite nth_error_app1 in E by lia.
    apply Hno. eapply nth_error_In; eauto.
Qed.

Lemma rfind_char_embedded c body suffix :
  ~ In c suffix -> rfind [c] (body ++ c :: suffix) = len body.
Proof.
  intros Hno. apply rfind_at_last_match; [discriminate| |].
  - apply match_at_char. rewrite nth_error_app2 by lia.
    rewrite Nat.sub_diag. reflexivity.
  - intros i Hi. destruct (match_at [c] _ i) eqn:E; [|reflexivity].
    exfalso. apply match_at_char in E. rewrite nth_error_app2 in E by lia.
    replace (i - length body)%nat with (S (i - length body - 1)) in E by lia.
    simpl in E. apply Hno. eapply nth_error_In; eauto.
Qed.

(** Where the parsers of lists cut a response that holds a payload between
    prose. *)
Lemma embedded_list_indices prefix payload suffix :
  contains (of_string "[{") prefix = false ->
  contains (of_string "}]") suffix = false ->
  starts_with (of_string "[{") payload = true ->
  ends_with (of_string "}]") payload = true ->
  let response := prefix ++ payload ++ suffix in
  (0 <=? find (of_string "[{") response)
  && (find (of_string "[{") response <? rfind (of_string "}]") response + 2)
  = true
  /\ slice response (find (of_string "[{") response)
           (rfind (of_string "}]") response + 2) = payload.
Proof.
  intros Hprefix Hsuffix Hs He response.
  destruct (starts_with_form _ _ Hs) as [tail Htail].
  destruct (ends_with_form _ _ He) as [front Hfront].
  assert (Hfind : find (of_string "[{") response = len prefix).
  { unfold response. rewrite Htail, <- app_assoc.
    apply (find_two_embedded 91 123)%N; [discriminate|exact Hprefix]. }
  assert (Hrfind : rfind (of_string "}]") response = len prefix + len payload - 2).
  { unfold response. rewrite Hfront, <- app_assoc, app_assoc.
    rewrite (rfind_two_embedded 125 93 (prefix ++ front))%N;
      [|discriminate|exact Hsuffix].
    rewrite !len_app. change (len (of_string "}]")) with 2. lia. }
  rewrite Hfind, Hrfind.
  replace (len prefix + len payload - 2 + 2) with (len prefix + len payload) by lia.
  split; [|apply slice_middle].
  pose proof (len_nonneg prefix). pose proof (starts_with_length _ _ Hs) as Hlen.
  apply andb_true_iff; split; [apply Z.leb_le; lia|].
  apply Z.ltb_lt. unfold len. simpl in Hlen. lia.
Qed.

(** X15. JSON inside prose is found: when the response holds a payload that
    begins with "[{" and ends with "}]", with no "[{" in the text before it
    and no "}]" in the text after it, both parsers hand exactly that payload
    to [json.loads] and return its value, or their placeholder when it
    raises. *)
Theorem embedded_list_is_extracted
    json_loads lower prefix payload suffix num_questions num_cards :
  contains (of_string "[{") prefix = false ->
  contains (of_string "}]") suffix = false ->
  starts_with (of_string "[{") payload = true ->
  ends_with (of_string "}]") payload = true ->
  MCQGenerator.generate_mcqs json_loads lower (prefix ++ payload ++ suffix)
    num_questions
  = match json_loads payload with
    | Some mcqs => mcqs
    | None => MCQGenerator.placeholder
    end
  /\ RevisionHelper.generate_flashcards json_loads lower
       (prefix ++ payload ++ suffix) num_cards
     = match json_loads payload with
       | Some flashcards => flashcards
       | None => RevisionHelper.placeholder
       end.
Proof.
  intros Hprefix Hsuffix Hs He.
  destruct (embedded_list_indices prefix payload suffix Hprefix Hsuffix Hs He)
    as [Hcond Hslice].
  unfold MCQGenerator.generate_mcqs, MCQGenerator.try_parse,
    RevisionHelper.generate_flashcards, RevisionHelper.try_parse.
  rewrite Hcond, Hslice. split; reflexivity.
Qed.

Lemma embedded_list_is_extracted_witness :
  MCQGenerator.generate_mcqs sample_loads ascii_lower
    (of_string "Here you go: " ++ of_string "[{}]" ++ of_string " Enjoy!") 5
  = PList [PDict []]
  /\ RevisionHelper.generate_flashcards sample_loads ascii_lower
       (of_string "Here you go: " ++ of_string "[{}]" ++ of_string " Enjoy!") 10
     = PList [PDict []].
Proof.
  apply (embedded_list_is_extracted sample_loads ascii_lower
           (of_string "Here you go: ") (of_string "[{}]") (of_string " Enjoy!")
           5 10);
    vm_compute; reflexivity.
Defined.

Lemma embedded_object_indices prefix payload suffix :
  ~ In 123%N prefix -> ~ In 125%N suffix ->
  starts_with (of_string "{") payload = true ->
  ends_with (of_string "}") payload = true ->
  let response := prefix ++ payload ++ suffix in
  (0 <=? find (of_string "{") response)
  && (find (of_string "{") response <? rfind (of_string "}") response + 1)
  = true
  /\ slice response (find (of_string "{") response)
           (rfind (of_string "}") response + 1) = payload.
Proof.
  intros Hprefix Hsuffix Hs He response.
  destruct (starts_with_form _ _ Hs) as [tail Htail].
  destruct (ends_with_form _ _ He) as [front Hfront].
  assert (Hfind : find (of_string "{") response = len prefix).
  { unfold response. rewrite Htail.
    apply (find_char_embedded 123%N prefix (tail ++ suffix)). exact Hprefix. }
  assert (Hrfind : rfind (of_string "}") response = len prefix + len payload - 1).
  { unfold response. rewrite Hfront, <- app_assoc, app_assoc.
    etransitivity;
      [apply (rfind_char_embedded 125%N (prefix ++ front) suffix Hsuffix)|].
    rewrite !len_app. change (len (of_string "}")) with 1. lia. }
  rewrite Hfind, Hrfind.
  replace (len prefix + len payload - 1 + 1) with (len prefix + len payload) by lia.
  split; [|apply slice_middle].
  pose proof (len_nonneg prefix). pose proof (starts_with_length _ _ Hs) as Hlen.
  apply andb_true_iff; split; [apply Z.leb_le; lia|].
  apply Z.ltb_lt. unfold len. simpl in Hlen. lia.
Qed.

(** X16. The concept map is read from the first "{" of the response to its
    last "}": when the response holds a payload that begins with "{" and ends
    with "}", with no "{" before it and no "}" after it, that payload goes to
    [json.loads] and its value is the map; when [json.loads] raises, the map
    is the one that holds the main concept alone. *)
Theorem embedded_object_is_extracted
    json_loads prefix payload suffix main_concept :
  ~ In 123%N prefix -> ~ In 125%N suffix ->
  starts_with (of_string "{") payload = true ->
  ends_with (of_string "}") payload = true ->
  RevisionHelper.generate_concept_connections json_loads
    (prefix ++ payload ++ suffix) main_concept
  = match json_loads payload with
    | Some concept_map => concept_map
    | None => RevisionHelper.default_map main_concept
    end.
Proof.
  intros Hprefix Hsuffix Hs He.
  destruct (embedded_object_indices prefix payload suffix Hprefix Hsuffix Hs He)
    as [Hcond Hslice].
  unfold RevisionHelper.generate_concept_connections,
    RevisionHelper.try_concept_map.
  rewrite Hcond, Hslice. reflexivity.
Qed.

Lemma embedded_object_is_extracted_witness :
  RevisionHelper.generate_concept_connections sample_object_loads
    (of_string "Sure! " ++ of_string "{}" ++ of_string " Done.")
    (of_string "Osmosis")
  = PDict []
  /\ RevisionHelper.generate_concept_connections sample_object_loads
       (of_string "Sure! " ++ of_string "{oops}" ++ of_string " Done.")
       (of_string "Osmosis")
     = RevisionHelper.default_map (of_string "Osmosis").
Proof.
  split.
  - apply (embedded_object_is_extracted sample_object_loads
             (of_string "Sure! ") (of_string "{}") (of_string " Done.")
             (of_string "Osmosis")).
    + intros H. vm_compute in H. intuition discriminate.
    + intros H. vm_compute in H. intuition discriminate.
    + reflexivity.
    + reflexivity.
  - apply (embedded_object_is_extracted sample_object_loads
             (of_string "Sure! ") (of_string "{oops}") (of_string " Done.")
             (of_string "Osmosis")).
    + intros H. vm_compute in H. intuition discriminate.
    + intros H. vm_compute in H. intuition discriminate.
    + reflexivity.
    + reflexivity.
Defined.

Lemma rfind_char_absent c s : ~ In c s -> rfind [c] s = -1.
Proof.
  intros Hno. destruct (rfind_match [c] s) as [E|(k & _ & Hm)]; [exact E|].
  exfalso. apply match_at_char in Hm. apply Hno. eapply nth_error_In; eauto.
Qed.

Lemma find_char_absent c s : ~ In c s -> find [c] s = -1.
Proof.
  intros Hno. destruct (find_match [c] s) as [E|(k & _ & Hm)]; [exact E|].
  exfalso. apply match_at_char in Hm. apply Hno. eapply nth_error_In; eauto.
Qed.

(** [find] never returns less than [-1]. *)
Lemma find_lower_bound sub s : -1 <= find sub s.
Proof. destruct (find_match sub s) as [E|(k & E & _)]; lia. Qed.

(** X17. A response that lacks an opening or a closing brace never reaches
    [json.loads]: the concept map is the one that holds the main concept
    alone, whatever the decoder. *)
Theorem braceless_response_gives_default_map json_loads response main_concept :
  ~ In 123%N response \/ ~ In 125%N response ->
  RevisionHelper.generate_concept_connections json_loads response main_concept
  = RevisionHelper.default_map main_concept.
Proof.
  intros Hno.
  unfold RevisionHelper.generate_concept_connections,
    RevisionHelper.try_concept_map.
  assert (Hcond : (0 <=? find (of_string "{") response)
                  && (find (of_string "{") response
                      <? rfind (of_string "}") response + 1) = false).
  { change (of_string "{") with [123%N]. change (of_string "}") with [125%N].
    destruct Hno as [Hno|Hno].
    - rewrite (find_char_absent 123%N response Hno). reflexivity.
    - rewrite (rfind_char_absent 125%N response Hno).
      pose proof (find_lower_bound [123%N] response).
      destruct (Z.leb_spec 0 (find [123%N] response)); [|reflexivity].
      apply Z.ltb_ge. lia. }
  rewrite Hcond. reflexivity.
Qed.

Lemma braceless_response_gives_default_map_witness :
  RevisionHelper.generate_concept_connections sample_object_loads
    (of_string "I am not sure.") (of_string "Osmosis")
  = RevisionHelper.default_map (of_string "Osmosis").
Proof.
  apply (braceless_response_gives_default_map sample_object_loads
           (of_string "I am not sure.") (of_string "Osmosis")).
  left. intros H. vm_compute in H. intuition discriminate.
Defined.

End EmbeddedPayload.

(** * The study guide *)

Section StudyGuide.

Lemma split_first sep s : exists piece, nth_error (split sep s) 0 = Some piece.
Proof.
  unfold split. pose proof (split_go_nonempty sep s None 0%nat []) as H.
  destruct (split_go sep None 0 [] s) as [|piece rest]; [contradiction|].
  exists piece. reflexivity.
Qed.

Lemma split_second sep s :
  sep <> [] -> contains sep s = true ->
  exists piece, nth_error (split sep s) 1 = Some piece.
Proof.
  intros Hne Hin. destruct (split_two sep s Hne Hin) as (a & b & rest & ->).
  exists b. reflexivity.
Qed.

Lemma cut_at_first_defined sections text :
  exists piece, RevisionHelper.cut_at_first sections text = Some piece.
Proof.
  induction sections as [|section rest IH]; cbn [RevisionHelper.cut_at_first].
  - eauto.
  - destruct (contains section text); [apply split_first|exact IH].
Qed.

Lemma cut_section_defined sections text :
  exists piece, RevisionHelper.cut_section sections text = Some piece.
Proof.
  unfold RevisionHelper.cut_section.
  destruct (existsb _ sections); [apply cut_at_first_defined|eauto].
Qed.

(** X18. The study guide parser cannot fail: for every response the result is
    a dictionary that has, in this order, the key of each header the response
    holds ("Key Concepts", "Definitions", "Summary", "Practice Questions")
    and no other key, so never [raw_content]; every value is a trimmed
    string. *)
Theorem study_guide_has_a_section_per_header response :
  exists sections,
    RevisionHelper.generate_study_guide response = PDict sections
    /\ map fst sections
       = map snd
           (filter (fun header => contains (fst header) response)
              [(RevisionHelper.KEY_CONCEPTS, of_string "key_concepts");
               (RevisionHelper.DEFINITIONS, of_string "definitions");
               (RevisionHelper.SUMMARY, of_string "summary");
               (RevisionHelper.PRACTICE_QUESTIONS,
                of_string "practice_questions")])
    /\ Forall (fun item => exists text, snd item = PStr text /\ trimmed text)
              sections.
Proof.
  unfold RevisionHelper.generate_study_guide, RevisionHelper.guide_sections.
  cbn [filter fst snd].
  destruct (contains RevisionHelper.KEY_CONCEPTS response) eqn:E1.
  1: destruct (split_second RevisionHelper.KEY_CONCEPTS response
                 ltac:(discriminate) E1) as [t1 ->];
     destruct (cut_section_defined
                 [RevisionHelper.DEFINITIONS; RevisionHelper.SUMMARY;
                  RevisionHelper.PRACTICE_QUESTIONS] t1) as [c1 ->].
  all: destruct (contains RevisionHelper.DEFINITIONS response) eqn:E2.
  1, 3: destruct (split_second RevisionHelper.DEFINITIONS response
                    ltac:(discriminate) E2) as [t2 ->];
        destruct (cut_section_defined
                    [RevisionHelper.SUMMARY; RevisionHelper.PRACTICE_QUESTIONS]
                    t2) as [c2 ->].
  all: destruct (contains RevisionHelper.SUMMARY response) eqn:E3.
  1, 3, 5, 7: destruct (split_second RevisionHelper.SUMMARY response
                          ltac:(discriminate) E3) as [t3 ->];
              destruct (contains RevisionHelper.PRACTICE_QUESTIONS t3);
              [destruct (split_first RevisionHelper.PRACTICE_QUESTIONS t3)
                 as [c3 ->]|].
  all: destruct (contains RevisionHelper.PRACTICE_QUESTIONS response) eqn:E4.
  all: try (destruct (split_second RevisionHelper.PRACTICE_QUESTIONS response
                        ltac:(discriminate) E4) as [t4 ->]).
  all: eexists; split; [reflexivity|]; split; [reflexivity|].
  all: repeat (constructor; [eexists; split; [reflexivity|apply strip_trimmed]|]).
  all: constructor.
Qed.

End StudyGuide.

(** * The chat *)

Section ChatFacts.

Lemma list_item_last {A} (l : list A) x : list_item (l ++ [x]) (-1) = Some x.
Proof.
  unfold list_item. change (-1 <? 0) with true. cbv iota.
  rewrite len_app. change (len [x]) with 1. pose proof (len_nonneg l).
  destruct (Z.leb_spec 0 (-1 + (len l + 1))); [|lia].
  replace (Z.to_nat (-1 + (len l + 1))) with (length l) by (unfold len; lia).
  rewrite nth_error_app2 by lia. rewrite Nat.sub_diag. reflexivity.
Qed.

Lemma dict_get_item {A} (d : list (list N * A)) key default v :
  dict_item d key = Some v -> dict_get d key default = v.
Proof.
  induction d as [|[k w] d IH]; simpl; [discriminate|].
  destruct (str_eqb k key); [congruence|exact IH].
Qed.

Lemma to_gemini_complete messages : forall gemini_messages,
  Forall has_role_and_content messages ->
  GeminiInterface.to_gemini messages gemini_messages
  = inr (gemini_messages ++ map gemini_entry messages).
Proof.
  induction messages as [|msg rest IH]; intros acc Hall;
    cbn [GeminiInterface.to_gemini map].
  - rewrite app_nil_r. reflexivity.
  - inversion Hall as [|? ? (r & c & Hr & Hc) Hrest]; subst.
    rewrite Hr, Hc, (IH _ Hrest), <- app_assoc. cbn [app].
    unfold gemini_entry.
    rewrite (dict_get_item _ _ _ _ Hr), (dict_get_item _ _ _ _ Hc).
    reflexivity.
Qed.

(** X19. [chat] delivers the last message twice: for messages that all have a
    role and a content, the history given to [start_chat] holds an entry for
    every message, the last one included, with "user" kept and every other
    role turned into "model"; the content of the last message is then sent
    once more as the new message. *)
Theorem chat_sends_the_last_message_again
    (send_message : list GeminiInterface.content -> list N -> Z -> list N)
    earlier last temperature :
  Forall has_role_and_content (earlier ++ [last]) ->
  GeminiInterface.chat send_message (earlier ++ [last]) temperature
  = inr (send_message (map gemini_entry earlier ++ [gemini_entry last])
           (dict_get last (of_string "content") []) temperature).
Proof.
  intros Hall. unfold GeminiInterface.chat.
  rewrite (to_gemini_complete _ [] Hall). cbn [app].
  rewrite map_app. cbn [map]. rewrite list_item_last. reflexivity.
Qed.

Lemma chat_sends_the_last_message_again_witness :
  GeminiInterface.chat sample_chat
    ([ChatbotUI.message (of_string "user") (of_string "Hi");
      ChatbotUI.message (of_string "assistant") (of_string "Hello!")]
     ++ [ChatbotUI.message (of_string "user") (of_string "What is ATP?")])
    GeminiInterface.FLOAT_0_7
  = inr (sample_chat
           ([{| GeminiInterface.role := of_string "user";
                GeminiInterface.parts := [of_string "Hi"] |};
             {| GeminiInterface.role := of_string "model";
                GeminiInterface.parts := [of_string "Hello!"] |}]
            ++ [{| GeminiInterface.role := of_string "user";
                   GeminiInterface.parts := [of_string "What is ATP?"] |}])
           (of_string "What is ATP?") GeminiInterface.FLOAT_0_7).
Proof.
  apply (chat_sends_the_last_message_again sample_chat
           [ChatbotUI.message (of_string "user") (of_string "Hi");
            ChatbotUI.message (of_string "assistant") (of_string "Hello!")]
           (ChatbotUI.message (of_string "user") (of_string "What is ATP?"))
           GeminiInterface.FLOAT_0_7).
  repeat constructor; eexists; eexists; split; reflexivity.
Defined.

Lemma message_complete msg_role msg_content :
  has_role_and_content (ChatbotUI.message msg_role msg_content).
Proof. exists msg_role, msg_content. split; reflexivity. Qed.

Lemma transcript_complete {api_exn}
    (send_message :
       list GeminiInterface.content -> list N -> Z -> api_exn + list N)
    chat_history :
  transcript send_message chat_history ->
  Forall has_role_and_content chat_history.
Proof.
  induction 1 as [|chat_history question answer _ IH _ _
                  |chat_history question raised _ IH _ _]; [constructor| |].
  - apply Forall_app. split; [exact IH|].
    repeat constructor; apply message_complete.
  - apply Forall_app. split; [exact IH|].
    repeat constructor; apply message_complete.
Qed.

Lemma copy_messages_complete chat_history :
  Forall has_role_and_content chat_history ->
  exists messages,
    ChatbotUI.copy_messages chat_history = inr messages
    /\ map gemini_entry messages = map gemini_entry chat_history
    /\ Forall has_role_and_content messages.
Proof.
  induction 1 as [|msg rest (r & c & Hr & Hc) _ (messages & IH & Hmap & Hall)];
    cbn [ChatbotUI.copy_messages].
  - exists []. repeat split. constructor.
  - rewrite Hr, Hc, IH. eexists. split; [reflexivity|]. split.
    + cbn [map]. rewrite Hmap. f_equal. unfold gemini_entry.
      rewrite (dict_get_item _ _ _ _ Hr), (dict_get_item _ _ _ _ Hc).
      reflexivity.
    + constructor; [apply message_complete|exact Hall].
Qed.

(** What [chat] is asked on a press of Send: the history with the new
    question at its end, and the question once more. *)
Lemma chat_on_press {api_exn}
    (send_message :
       list GeminiInterface.content -> list N -> Z -> api_exn + list N)
    chat_history user_input :
  Forall has_role_and_content chat_history ->
  exists messages,
    ChatbotUI.copy_messages
      (chat_history ++ [ChatbotUI.message (of_string "user") user_input])
    = inr messages
    /\ GeminiInterface.chat send_message messages GeminiInterface.FLOAT_0_7
       = inr (send_message
                (map gemini_entry
                   (chat_history
                    ++ [ChatbotUI.message (of_string "user") user_input]))
                user_input GeminiInterface.FLOAT_0_7).
Proof.
  intros Hhistory.
  assert (Hall : Forall has_role_and_content
                   (chat_history
                    ++ [ChatbotUI.message (of_string "user") user_input])).
  { apply Forall_app. split; [exact Hhistory|].
    repeat constructor; apply message_complete. }
  destruct (copy_messages_complete _ Hall) as (messages & Hcopy & Hmap & Hm).
  exists messages. split; [exact Hcopy|].
  destruct (exists_last (l := messages)) as (earlier & last & Hlast).
  { intros ->. rewrite map_app in Hmap. cbn [map] in Hmap.
    destruct (map gemini_entry chat_history); discriminate. }
  subst messages.
  assert (Hentry : gemini_entry last
                   = gemini_entry (ChatbotUI.message (of_string "user") user_input)).
  { rewrite !map_app in Hmap. cbn [map] in Hmap.
    apply app_inj_tail in Hmap as [_ Hentry]. exact Hentry. }
  assert (Hsame : dict_get last (of_string "content") [] = user_input).
  { pose proof (f_equal GeminiInterface.parts Hentry) as Hparts.
    unfold gemini_entry in Hparts. cbn [GeminiInterface.parts] in Hparts.
    injection Hparts as Hparts. exact Hparts. }
  unfold GeminiInterface.chat.
  rewrite (to_gemini_complete _ [] Hm). cbn [app].
  rewrite Hmap. rewrite map_app. cbn [map]. rewrite list_item_last.
  cbn [GeminiInterface.parts gemini_entry list_item].
  change (0 <? 0) with false. cbv iota. cbn [Z.to_nat nth_error].
  change (dict_get (ChatbotUI.message (of_string "user") user_input)
            (of_string "content") []) with user_input.
  reflexivity.
Qed.

Lemma press_keeps_transcript {api_exn}
    (send_message :
       list GeminiInterface.content -> list N -> Z -> api_exn + list N)
    chat_history e :
  transcript send_message chat_history ->
  exists after shown,
    ChatbotUI.press api_exn send_message chat_history e = (after, shown)
    /\ transcript send_message after
    /\ (shown = None
        \/ exists raised history text,
             shown = Some (ChatbotUI.ApiRaised raised)
             /\ send_message history text GeminiInterface.FLOAT_0_7
                = inl raised).
Proof.
  intros Ht. destruct e as [user_input|]; cbn [ChatbotUI.press].
  - destruct (truthy (strip user_input)) eqn:Hinput.
    + assert (Hquestion : strip user_input <> []).
      { intros E. rewrite E in Hinput. discriminate. }
      destruct (chat_on_press send_message chat_history user_input
                  (transcript_complete _ _ Ht)) as (messages & -> & ->).
      destruct (send_message _ user_input GeminiInterface.FLOAT_0_7)
        as [raised|answer] eqn:Hcall.
      * eexists. eexists. split; [reflexivity|]. split.
        -- eapply transcript_unanswered; eauto.
        -- right. eauto.
      * eexists. eexists. split; [reflexivity|]. split.
        -- rewrite <- app_assoc. cbn [app].
           eapply transcript_answered; eauto.
        -- left. reflexivity.
    + exists chat_history, None. split; [reflexivity|]. split; [exact Ht|].
      left. reflexivity.
  - exists [], None. split; [reflexivity|]. split; [constructor|].
    left. reflexivity.
Qed.

(** X20. In a session of the chatbot page [chat] never raises [KeyError] or
    [IndexError]: whatever the user sends or clears, starting from an empty
    history, the only exceptions shown are those the call of the API raised.
    Blank input is ignored, and the history stays a sequence of questions,
    each followed by the model's answer to the history that already ends with
    that question, or left without an answer when that call raised. *)
Theorem chatbot_session_shows_api_errors_only
    (api_exn : Type)
    (send_message :
       list GeminiInterface.content -> list N -> Z -> api_exn + list N)
    events :
  exists chat_history errors,
    ChatbotUI.session api_exn send_message events [] = (chat_history, errors)
    /\ transcript send_message chat_history
    /\ Forall (fun shown =>
                 exists raised history text,
                   shown = ChatbotUI.ApiRaised raised
                   /\ send_message history text GeminiInterface.FLOAT_0_7
                      = inl raised)
              errors.
Proof.
  assert (Hgen : forall start, transcript send_message start ->
            exists chat_history errors,
              ChatbotUI.session api_exn send_message events start
              = (chat_history, errors)
              /\ transcript send_message chat_history
              /\ Forall (fun shown =>
                           exists raised history text,
                             shown = ChatbotUI.ApiRaised raised
                             /\ send_message history text
                                  GeminiInterface.FLOAT_0_7 = inl raised)
                        errors).
  { induction events as [|e rest IH]; intros start Hstart;
      cbn [ChatbotUI.session].
    - exists start, []. split; [reflexivity|]. split; [exact Hstart|constructor].
    - destruct (press_keeps_transcript send_message start e Hstart)
        as (after & shown & -> & Hafter & Hshown).
      destruct (IH after Hafter) as (final & errors & -> & Hfinal & Herrors).
      destruct Hshown as [->|(raised & history & text & -> & Hcall)].
      + exists final, errors. split; [reflexivity|]. split; assumption.
      + exists final, (ChatbotUI.ApiRaised raised :: errors).
        split; [reflexivity|]. split; [exact Hfinal|].
        constructor; [eauto|exact Herrors]. }
  apply Hgen. constructor.
Qed.

(** A call that raises leaves the question in the history: the next question
    then follows it directly, and the model is given two user entries in a
    row. *)
Example unanswered_question_stays :
  ChatbotUI.session Z sample_flaky_chat
    [ChatbotUI.Send (of_string "Hi"); ChatbotUI.Send (of_string "   ");
     ChatbotUI.Send (of_string "Again")] []
  = ([ChatbotUI.message (of_string "user") (of_string "Hi");
      ChatbotUI.message (of_string "user") (of_string "Again");
      ChatbotUI.message (of_string "assistant") (of_string "**")],
     [ChatbotUI.ApiRaised 503]).
Proof. vm_compute; reflexivity. Qed.

End ChatFacts.

(** * Answers from retrieved context *)

Section AnswerFacts.

(** The loop returns one record per index, each read at that index. *)
Lemma collect_spec {dist} (results : ChromaDBManager.query_result dist) :
  forall indices retrieved_docs out,
    RAGChain.collect dist results indices retrieved_docs = Some out ->
    exists docs,
      out = retrieved_docs ++ docs
      /\ Forall2 (fun i doc => RAGChain.record_at dist results i = Some doc)
                 indices docs.
Proof.
  induction indices as [|i rest IH]; intros acc out; cbn [RAGChain.collect].
  - intros E. injection E as <-. exists []. rewrite app_nil_r. split; constructor.
  - destruct (RAGChain.record_at dist results i) as [doc|] eqn:Hdoc;
      [|discriminate].
    intros E. destruct (IH _ _ E) as (docs & -> & Hall).
    exists (doc :: docs). rewrite <- app_assoc. split; [reflexivity|].
    constructor; assumption.
Qed.

(** What [retrieve] returns under the store's contract. *)
Lemma retrieve_rows {vector dist} (dist_le : dist -> dist -> Prop)
    (embed_content : list N -> vector)
    (collection_query :
       list N -> vector -> Z -> ChromaDBManager.query_result dist)
    collection_name query n_results row_ids row_documents row_distances :
  let results := collection_query collection_name (embed_content query)
                   n_results in
  store_contract dist_le n_results results row_ids row_documents row_distances ->
  exists docs,
    RAGChain.retrieve vector dist embed_content collection_query
      collection_name query n_results = Some docs
    /\ map RAGChain.r_id docs = row_ids
    /\ map RAGChain.r_document docs = row_documents
    /\ Forall2 (fun i doc => RAGChain.record_at dist results i = Some doc)
               (seq 0 (length row_ids)) docs.
Proof.
  intros results Hc.
  destruct (collect_rows _ _ _ _ _ _ Hc (length row_ids) 0%nat [] (le_n _))
    as (docs & Hrun & Hids & Hdocs & _).
  simpl in Hids, Hdocs. rewrite firstn_all in Hids.
  rewrite firstn_all2 in Hdocs
    by (rewrite (contract_documents_length _ _ _ _ _ _ Hc); lia).
  exists docs.
  unfold RAGChain.retrieve, ChromaDBManager.query_collection.
  rewrite get_embeddings_map.
  change (nth_error (map embed_content [query]) 0)
    with (Some (embed_content query)).
  cbv beta iota. fold results. rewrite (contract_ids _ _ _ _ _ _ Hc), Hrun.
  cbn [app]. split; [reflexivity|]. split; [exact Hids|]. split; [exact Hdocs|].
  destruct (collect_spec results _ _ _ Hrun) as (docs' & E & Hall).
  cbn [app] in E. subst docs'. exact Hall.
Qed.

(** X21. [generate_response] puts the store's documents into the prompt in
    the store's order, joined by blank lines: under the store's contract it
    returns the model's answer to that prompt, asked at temperature 0.3 with
    the other settings at their defaults, together with the retrieved
    records. *)
Theorem generate_response_prompts_ranked_documents
    (vector dist : Type) (dist_le : dist -> dist -> Prop)
    (embed_content : list N -> vector)
    (collection_query :
       list N -> vector -> Z -> ChromaDBManager.query_result dist)
    generate_content
    collection_name query n_results row_ids row_documents row_distances :
  store_contract dist_le n_results
    (collection_query collection_name (embed_content query) n_results)
    row_ids row_documents row_distances ->
  exists docs,
    RAGChain.generate_response vector dist embed_content collection_query
      generate_content collection_name query n_results
    = Some {| RAGChain.response :=
                generate_content
                  (GeminiInterface.context_prompt query
                     (join BLANK_LINE row_documents))
                  (config_at GeminiInterface.FLOAT_0_3);
              RAGChain.context := docs |}
    /\ map RAGChain.r_id docs = row_ids
    /\ map RAGChain.r_document docs = row_documents.
Proof.
  intros Hc.
  destruct (retrieve_rows dist_le embed_content collection_query
              collection_name query n_results _ _ _ Hc)
    as (docs & Hrun & Hids & Hdocs & _).
  exists docs. unfold RAGChain.generate_response.
  rewrite Hrun, Hdocs. repeat split; assumption.
Qed.

Lemma generate_response_prompts_ranked_documents_witness :
  exists docs,
    RAGChain.generate_response nat Z (@length N) sample_query sample_model
      (of_string "pdf_documents") (of_string "photosynthesis") 3
    = Some {| RAGChain.response :=
                sample_model
                  (GeminiInterface.context_prompt (of_string "photosynthesis")
                     (join BLANK_LINE
                        [of_string "Plants turn light into sugar.";
                         of_string "Page 1:"]))
                  (config_at GeminiInterface.FLOAT_0_3);
              RAGChain.context := docs |}
    /\ map RAGChain.r_id docs = [of_string "doc_4"; of_string "doc_0"]
    /\ map RAGChain.r_document docs
       = [of_string "Plants turn light into sugar."; of_string "Page 1:"].
Proof.
  apply (generate_response_prompts_ranked_documents nat Z Z.le (@length N)
           sample_query sample_model (of_string "pdf_documents")
           (of_string "photosynthesis") 3 _ _ [120; 870]).
  constructor; try reflexivity.
  - simpl. lia.
  - repeat constructor. lia.
Defined.

(** The metadata of a record is the entry of the metadata row at its index,
    or the empty dictionary when the store gave no metadata. *)
Lemma record_at_metadata {dist} (results : ChromaDBManager.query_result dist)
    i doc :
  RAGChain.record_at dist results i = Some doc ->
  (metadata_row results = [] /\ RAGChain.r_metadata doc = PDict [])
  \/ nth_error (metadata_row results) i = Some (RAGChain.r_metadata doc).
Proof.
  unfold RAGChain.record_at, metadata_row.
  destruct (nth_error (ChromaDBManager.ids results) 0) as [ids0|]; [|discriminate].
  destruct (nth_error ids0 i); [|discriminate].
  destruct (nth_error (ChromaDBManager.documents results) 0) as [documents0|];
    [|discriminate].
  destruct (nth_error documents0 i); [|discriminate].
  destruct (ChromaDBManager.metadatas results) as [[|row rows]|].
  - destruct (nth_error (ChromaDBManager.distances results) 0) as [distances0|];
      [|discriminate].
    destruct (nth_error distances0 i); [|discriminate].
    intros E. injection E as <-. left. split; reflexivity.
  - change (nth_error (row :: rows) 0) with (Some row). cbv iota beta.
    destruct (nth_error row i) as [metadata|] eqn:Hrow; [|discriminate].
    destruct (nth_error (ChromaDBManager.distances results) 0) as [distances0|];
      [|discriminate].
    destruct (nth_error distances0 i); [|discriminate].
    intros E. injection E as <-. right. reflexivity.
  - destruct (nth_error (ChromaDBManager.distances results) 0) as [distances0|];
      [|discriminate].
    destruct (nth_error distances0 i); [|discriminate].
    intros E. injection E as <-. left. split; reflexivity.
Qed.


(** The citation loop raises at a record whose metadata is no dictionary. *)
Lemma cite_raises {dist} format_value :
  forall (docs : list (RAGChain.retrieved dist)) i context_parts,
    Exists (fun doc => is_dict (RAGChain.r_metadata doc) = false) docs ->
    RAGChain.cite dist format_value i docs context_parts = None.
Proof.
  induction docs as [|doc rest IH]; intros i acc Hex; cbn [RAGChain.cite].
  - inversion Hex.
  - destruct (RAGChain.r_metadata doc) eqn:Hmeta; cbn [RAGChain.source_of];
      try reflexivity.
    apply IH. inversion Hex as [? ? Hdoc|? ? Hrest]; subst; [|exact Hrest].
    rewrite Hmeta in Hdoc. discriminate.
Qed.



(** X23. Matches stored without metadata break the cited answer only: under
    the store's contract, when some metadata entry the store returns is not a
    dictionary ([None] for a document added without metadata),
    [answer_with_sources] raises, while [generate_response] on the same
    query returns. *)
Theorem missing_metadata_breaks_cited_answers
    (vector dist : Type) (dist_le : dist -> dist -> Prop)
    (embed_content : list N -> vector)
    (collection_query :
       list N -> vector -> Z -> ChromaDBManager.query_result dist)
    generate_content format_value
    collection_name query n_results row_ids row_documents row_distances :
  store_contract dist_le n_results
    (collection_query collection_name (embed_content query) n_results)
    row_ids row_documents row_distances ->
  forallb is_dict
    (metadata_row
       (collection_query collection_name (embed_content query) n_results))
  = false ->
  RAGChain.answer_with_sources vector dist embed_content collection_query
    generate_content format_value collection_name query n_results = None
  /\ exists answer,
       RAGChain.generate_response vector dist embed_content collection_query
         generate_content collection_name query n_results = Some answer.
Proof.
  intros Hc Hdicts.
  destruct (retrieve_rows dist_le embed_content collection_query
              collection_name query n_results _ _ _ Hc)
    as (docs & Hrun & Hids & Hdocs & Hall).
  split.
  - unfold RAGChain.answer_with_sources. rewrite Hrun.
    rewrite cite_raises; [reflexivity|].
    set (results := collection_query collection_name (embed_content query)
                      n_results) in *.
    assert (Hbad : exists j m, nth_error (metadata_row results) j = Some m
                               /\ is_dict m = false).
    { clear - Hdicts. induction (metadata_row results) as [|m row IH];
        [discriminate|].
      cbn [forallb] in Hdicts. destruct (is_dict m) eqn:Hm.
      - destruct (IH Hdicts) as (j & m' & Hj & Hm'). exists (S j), m'. eauto.
      - exists 0%nat, m. eauto. }
    destruct Hbad as (j & m & Hj & Hm).
    assert (Hlen : (j < length row_ids)%nat).
    { pose proof (contract_metadatas _ _ _ _ _ _ Hc) as Hrow.
      fold results in Hrow. unfold metadata_row in Hj.
      destruct (ChromaDBManager.metadatas results) as [[|row rows]|];
        try (destruct j; discriminate).
      rewrite <- Hrow. apply nth_error_Some. congruence. }
    assert (Hdoc : exists doc, nth_error docs j = Some doc
                     /\ RAGChain.record_at dist results j = Some doc).
    { clear - Hall Hlen.
      assert (Hgen : forall first count (docs : list (RAGChain.retrieved dist)) j,
                Forall2 (fun i doc => RAGChain.record_at dist results i = Some doc)
                        (seq first count) docs ->
                (j < count)%nat ->
                exists doc, nth_error docs j = Some doc
                  /\ RAGChain.record_at dist results (first + j) = Some doc).
      { intros first count. revert first.
        induction count as [|count IH]; intros first ds k H Hk; [lia|].
        cbn [seq] in H. inversion H as [|? doc ? rest Hrec Hrest]; subst.
        destruct k as [|k].
        - exists doc. rewrite Nat.add_0_r. split; [reflexivity|exact Hrec].
        - destruct (IH (S first) rest k Hrest ltac:(lia)) as (d & Hd & Hr).
          exists d. split; [exact Hd|].
          replace (first + S k)%nat with (S first + k)%nat by lia. exact Hr. }
      apply (Hgen 0%nat (length row_ids) docs j Hall Hlen). }
    destruct Hdoc as (doc & Hnth & Hrec).
    apply Exists_exists. exists doc. split; [eapply nth_error_In; eauto|].
    destruct (record_at_metadata _ _ _ Hrec) as [[Hrow _]|Hsame].
    + rewrite Hrow in Hj. destruct j; discriminate.
    + rewrite Hj in Hsame. injection Hsame as <-. exact Hm.
  - unfold RAGChain.generate_response. rewrite Hrun. eauto.
Qed.

Lemma missing_metadata_breaks_cited_answers_witness :
  RAGChain.answer_with_sources nat Z (@length N) sample_query sample_model
    sample_format (of_string "pdf_documents") (of_string "sugar") 3 = None
  /\ exists answer,
       RAGChain.generate_response nat Z (@length N) sample_query sample_model
         (of_string "pdf_documents") (of_string "sugar") 3 = Some answer.
Proof.
  apply (missing_metadata_breaks_cited_answers nat Z Z.le (@length N)
           sample_query sample_model sample_format (of_string "pdf_documents")
           (of_string "sugar") 3 [of_string "doc_4"; of_string "doc_0"]
           [of_string "Plants turn light into sugar."; of_string "Page 1:"]
           [120; 870]).
  - constructor; try reflexivity.
    + simpl. lia.
    + repeat constructor. lia.
  - reflexivity.
Defined.

End AnswerFacts.

(** * The text of a PDF and its pages *)

Section PageFacts.

Lemma pages_text_append (pages : list (list N)) : forall pages_text,
  fold_left (fun pages_text text => pages_text ++ [text]) pages pages_text
  = pages_text ++ pages.
Proof.
  induction pages as [|text rest IH]; intros acc; simpl.
  - symmetry; apply app_nil_r.
  - rewrite IH, <- app_assoc. reflexivity.
Qed.

Lemma page_texts_framed pages : forall n,
  PDFFiles.page_texts (Z.of_nat n) pages []
  = concat (map (fun page => framed_page (fst page) (snd page))
                (combine (map Z.of_nat (seq (S n) (length pages))) pages)).
Proof.
  induction pages as [|text rest IH]; intros n; [reflexivity|].
  cbn [PDFFiles.page_texts length seq map combine concat fst snd].
  rewrite page_texts_acc. cbn [app].
  replace (Z.of_nat n + 1) with (Z.of_nat (S n)) by lia.
  rewrite IH. unfold framed_page. cbn [app].
  repeat (rewrite <- app_assoc; cbn [app]). reflexivity.
Qed.

(** X24. [load_pdf] and [extract_text_by_page] agree: when the latter returns
    the pages of a file, the former returns their texts in order, page [k]
    (counted from 1) under its header "Page k:" and followed by a blank line,
    and reports their number as [page_count]. *)
Theorem load_pdf_frames_the_pages files file_path pages :
  PDFFiles.extract_text_by_page files file_path = inr pages ->
  exists metadata,
    PDFFiles.load_pdf files file_path
    = inr (concat (map (fun page => framed_page (fst page) (snd page))
                       (combine (map Z.of_nat (seq 1 (length pages))) pages)),
           metadata)
    /\ dict_get metadata (of_string "page_count") PNone = PInt (len pages).
Proof.
  unfold PDFFiles.extract_text_by_page, PDFFiles.load_pdf.
  destruct (files file_path) as [|message|doc size]; try discriminate.
  intros E. injection E as <-. rewrite pages_text_append. cbn [app].
  eexists. split.
  - change 0 with (Z.of_nat 0).
    rewrite (page_texts_framed (PDFFiles.doc_pages doc) 0). reflexivity.
  - reflexivity.
Qed.

Lemma load_pdf_frames_the_pages_witness :
  exists metadata,
    PDFFiles.load_pdf sample_files (of_string "notes.pdf")
    = inr (concat (map (fun page => framed_page (fst page) (snd page))
                       (combine (map Z.of_nat (seq 1 2))
                          [of_string "Cells are small.";
                           of_string "Plants  make sugar."])),
           metadata)
    /\ dict_get metadata (of_string "page_count") PNone = PInt 2.
Proof.
  apply (load_pdf_frames_the_pages sample_files (of_string "notes.pdf")
           [of_string "Cells are small."; of_string "Plants  make sugar."]).
  reflexivity.
Defined.

End PageFacts.
